(** * Dedupe: a shallow embedding of [dedupe.go]

    The program is one [main] function: it walks the directories named by
    [--partitions], buckets the regular non-empty files by size, hashes the
    files of every bucket with two or more entries, groups them by digest,
    orders every digest group, keeps the first file of the group and removes
    the others (subject to [--dry-run] and [--confirm]).

    The embedding follows the source statement by statement.  The loops of
    [main] become monadic folds over the same collections, the closures
    passed to [filepath.Walk] and [sort.Slice] become the functions [walkFn]
    and [less], and everything the program does to the outside (the file
    system, the two output streams, standard input) lives in an explicit
    state.  A run ends normally, by a run-time panic or by [os.Exit]. *)

From Stdlib Require Import ZArith String Ascii List Permutation.
From stdpp Require Import base option list gmap strings pretty sorting.

Local Open Scope Z_scope.

(** ** Go values *)

(** An [error] is represented by its message (what [%v] prints). *)
Definition error : Type := string.

Inductive result (A : Type) : Type :=
| Ok (a : A)
| Err (e : error).
Arguments Ok {A} a.
Arguments Err {A} e.

(** The part of [os.FileInfo] the program looks at: [IsDir()],
    [Mode()&os.ModeSymlink != 0], [Size()] and [ModTime()] (an instant,
    compared with [Before]). *)
Record FileInfo : Type := mkFileInfo {
  IsDir : bool;
  ModeSymlink : bool;
  Size : Z;
  ModTime : Z
}.

(** [int64] arithmetic wraps around. *)
Definition int64 (z : Z) : Z := (z + 2 ^ 63) mod 2 ^ 64 - 2 ^ 63.

(** One call of the function handed to [filepath.Walk]: either the entry was
    read ([err == nil], [info] is set) or it was not ([err != nil]). *)
Inductive WalkEntry : Type :=
| VisitOk (path : string) (info : FileInfo)
| VisitErr (path : string) (err : error).

(** ** The world outside the program *)

(** What the scan and the hashing read.  [Walk root] is the sequence of
    calls [filepath.Walk root fn] makes to [fn]; [Open path] is the outcome
    of [os.Open path] followed by reading the file to its end (an error of
    either step, or the bytes read); [elapsed] is what [time.Since] prints.
    The program reads the tree three times (scan, hashing, treatment of the
    groups) without locking it, so what one stage saw need not be what the
    next one finds: the three views are kept apart. *)
Record World : Type := mkWorld {
  Walk : string → list WalkEntry;
  Open : string → result (list Byte.byte);
  elapsed : string
}.

(** The file system as [os.Stat] and [os.Remove] see it: the existing paths
    with their metadata, and the paths whose removal is refused
    (permissions, a busy file).  A path string stands for the file it
    names: two strings that name one file (a relative and an absolute
    root, a directory reached through a symlink) are two entries here, and
    removing one leaves the other. *)
Record FileSys : Type := mkFileSys {
  nodes : gmap string FileInfo;
  locked : gset string
}.

(** Lines written to standard output, one constructor per [fmt.Printf] or
    [fmt.Println] of the source, carrying its arguments. *)
Inductive Printed : Type :=
| PGroup (hash8 : string)        (* "\nDuplicate group (%s):\n" *)
| PKeeper (path : string)        (* "  Keeper: %s\n" *)
| PDuplicate (path : string)     (* "  Duplicate: %s\n" *)
| PPrompt (path : string)        (* "Delete %s? (y/N) " *)
| PDeleted (path : string)       (* "Deleted %s\n" *)
| PSummary                       (* "\nSummary:\n" *)
| PTotalFiles (n : Z)            (* "\tTotal files processed: %d\n" *)
| PTotalDuplicates (n : Z)       (* "\tTotal duplicates found: %d\n" *)
| PSpaceSaved (mb : Z)           (* "\tPotential space saved: %d MB\n" *)
| PDryRunBanner.                 (* "\n\t**RUN IN DRY-RUN MODE ...**" *)

(** Lines written through the [log] package. *)
Inductive Logged : Type :=
| LNoPartitions
| LScanning (partition : string)
| LErrorAccessing (path : string) (err : error)
| LScanned (n : Z) (t : string)
| LPotential (n : Z)
| LProcessing (n : Z) (size : Z)
| LErrorHashing (path : string) (err : error)
| LErrorDeleting (path : string) (err : error).

Definition nl : string := String (ascii_of_nat 10) "".
Definition tab : string := String (ascii_of_nat 9) "".

Definition render (p : Printed) : string :=
  match p with
  | PGroup hash8 => nl +:+ "Duplicate group (" +:+ hash8 +:+ "):" +:+ nl
  | PKeeper path => "  Keeper: " +:+ path +:+ nl
  | PDuplicate path => "  Duplicate: " +:+ path +:+ nl
  | PPrompt path => "Delete " +:+ path +:+ "? (y/N) "
  | PDeleted path => "Deleted " +:+ path +:+ nl
  | PSummary => nl +:+ "Summary:" +:+ nl
  | PTotalFiles n => tab +:+ "Total files processed: " +:+ pretty n +:+ nl
  | PTotalDuplicates n => tab +:+ "Total duplicates found: " +:+ pretty n +:+ nl
  | PSpaceSaved mb => tab +:+ "Potential space saved: " +:+ pretty mb +:+ " MB" +:+ nl
  | PDryRunBanner =>
      nl +:+ tab +:+ "**RUN IN DRY-RUN MODE - NO FILES WERE DELETED**" +:+ nl
  end.

Definition render_log (l : Logged) : string :=
  match l with
  | LNoPartitions =>
      "Please specify partitions/directories to scan using --partitions"
  | LScanning partition => "Scanning partition: " +:+ partition
  | LErrorAccessing path err => "Error accessing " +:+ path +:+ ": " +:+ err
  | LScanned n t =>
      "Scanned " +:+ pretty n +:+ " files across partitions in " +:+ t
  | LPotential n => "Found " +:+ pretty n +:+ " potential duplicates by size"
  | LProcessing n size =>
      "Processing " +:+ pretty n +:+ " files of size " +:+ pretty size +:+ " bytes"
  | LErrorHashing path err => "Error hashing " +:+ path +:+ ": " +:+ err
  | LErrorDeleting path err => "Error deleting " +:+ path +:+ ": " +:+ err
  end.

(** The state a run threads through: the file system, what is left of
    standard input (one entry per [fmt.Scanln(&response)], the value it
    stores in [response]), the two output streams (latest line last), and
    the arguments of the calls to [os.Remove] made so far. *)
Record State : Type := mkState {
  fs : FileSys;
  stdin : list string;
  stdout : list Printed;
  stderr : list Logged;
  remove_calls : list string
}.

Definition output_text (s : State) : string :=
  String.concat "" (render <$> stdout s).

(** ** The monad of a run *)

Inductive PanicReason : Type :=
| NilDereference        (* a method called on a nil [os.FileInfo] *)
| IndexOutOfRange       (* [files[0]] on an empty slice *)
| SliceBounds.          (* [hash[:8]] on a shorter string *)

Inductive Outcome (A : Type) : Type :=
| Done (a : A)
| Panic (why : PanicReason)
| Exit (code : Z).
Arguments Done {A} a.
Arguments Panic {A} why.
Arguments Exit {A} code.

Definition Go (A : Type) : Type := State → Outcome A * State.

Global Instance Go_ret : MRet Go := λ A a s, (Done a, s).
Global Instance Go_bind : MBind Go := λ A B f m s,
  match m s with
  | (Done a, s') => f a s'
  | (Panic why, s') => (Panic why, s')
  | (Exit code, s') => (Exit code, s')
  end.

Definition panic {A} (why : PanicReason) : Go A := λ s, (Panic why, s).

(** [for _, x := range l { acc = body(acc, x) }] over a slice. *)
Fixpoint foldM {A B} (body : B → A → Go B) (l : list A) (acc : B) : Go B :=
  match l with
  | [] => mret acc
  | x :: l' => acc' ← body acc x; foldM body l' acc'
  end.

Definition when (b : bool) (m : Go unit) : Go unit :=
  if b then m else mret tt.

(** ** Library calls with an effect *)

Definition fmt_Print (p : Printed) : Go unit := λ s,
  (Done tt, mkState (fs s) (stdin s) (stdout s ++ [p]) (stderr s) (remove_calls s)).

Definition log_Printf (l : Logged) : Go unit := λ s,
  (Done tt, mkState (fs s) (stdin s) (stdout s) (stderr s ++ [l]) (remove_calls s)).

(** [log.Fatal]: the line, then [os.Exit(1)]. *)
Definition log_Fatal {A} (l : Logged) : Go A := λ s,
  (Exit 1, mkState (fs s) (stdin s) (stdout s) (stderr s ++ [l]) (remove_calls s)).

(** [info, _ := os.Stat(path)]: the error is dropped, [info] is nil ([None])
    when the call failed. *)
Definition os_Stat (path : string) : Go (option FileInfo) := λ s,
  (Done (nodes (fs s) !! path), s).

(** A method call on the [os.FileInfo] that [os.Stat] returned. *)
Definition deref (info : option FileInfo) : Go FileInfo :=
  match info with
  | Some i => mret i
  | None => panic NilDereference
  end.

(** [os.Remove(path)]. *)
Definition os_Remove (path : string) : Go (option error) := λ s,
  let calls := remove_calls s ++ [path] in
  match nodes (fs s) !! path with
  | None =>
      (Done (Some ("remove " +:+ path +:+ ": no such file or directory")),
       mkState (fs s) (stdin s) (stdout s) (stderr s) calls)
  | Some _ =>
      if decide (path ∈ locked (fs s)) then
        (Done (Some ("remove " +:+ path +:+ ": permission denied")),
         mkState (fs s) (stdin s) (stdout s) (stderr s) calls)
      else
        (Done None,
         mkState (mkFileSys (delete path (nodes (fs s))) (locked (fs s)))
                 (stdin s) (stdout s) (stderr s) calls)
  end.

(** [fmt.Scanln(&response)] with [response] starting empty; its error is
    dropped by the source. *)
Definition fmt_Scanln : Go string := λ s,
  match stdin s with
  | [] => (Done "", s)
  | response :: rest =>
      (Done response,
       mkState (fs s) rest (stdout s) (stderr s) (remove_calls s))
  end.

(** [s[:n]]. *)
Definition slice_to (s : string) (n : nat) : Go string :=
  if decide (n ≤ String.length s)%nat then mret (substring 0 n s)
  else panic SliceBounds.

(** ** Library functions without an effect *)

(** The functions of Go's library whose result depends on the platform or
    on the release: [filepath.VolumeName], [filepath.SplitList],
    [sort.Slice] on a [[]string] (the comparison may panic: [None]), and
    [fmt.Sprintf("%x", sha256-digest)] of a byte sequence. *)
Class GoLib : Type := mkGoLib {
  VolumeName : string → string;
  SplitList : string → list string;
  sort_Slice : (string → string → option bool) → list string → option (list string);
  sha256_hex : list Byte.byte → string
}.

(** What the documentation of [sort.Slice] promises when [less] is a strict
    weak order that does not panic on the slice: the slice is permuted into
    ascending order.  Nothing is promised about elements that compare
    equal ("The sort is not guaranteed to be stable"). *)
Record StrictWeakOrder (lt : string → string → bool) : Prop := {
  swo_asym : ∀ a b, lt a b = true → lt b a = false;
  swo_negtrans : ∀ a b c, lt a b = false → lt b c = false → lt a c = false
}.

Definition ascending (lt : string → string → bool) (l : list string) : Prop :=
  StronglySorted (λ a b, lt b a = false) l.

Definition sorts
    (sort : (string → string → option bool) → list string → option (list string))
    : Prop :=
  ∀ less lt l,
    StrictWeakOrder lt →
    (∀ a b, a ∈ l → b ∈ l → less a b = Some (lt a b)) →
    ∃ l', sort less l = Some l' ∧ l' ≡ₚ l ∧ ascending lt l'.

(** [sort.Slice] moves the elements by swapping them: what it returns, if it
    returns, is a permutation of the slice, whatever [less] does.  A SHA-256
    digest in hexadecimal has 64 digits. *)
Class GoLibLaws (lib : GoLib) : Prop := {
  sort_Slice_sorts : sorts sort_Slice;
  sort_Slice_permutes : ∀ less l l', sort_Slice less l = Some l' → l' ≡ₚ l;
  sha256_hex_length : ∀ bytes, String.length (sha256_hex bytes) = 64%nat
}.

(** *** Sorting as Go does it on short slices *)

(** The inner loop of [insertionSort]:
    [for j := i; j > a && less(j, j-1); j-- { swap(j, j-1) }].
    The sorted part [data[a:i]] is held nearest element first. *)
Fixpoint sink (less : string → string → option bool) (x : string)
    (before : list string) : option (list string) :=
  match before with
  | [] => Some [x]
  | y :: before' =>
      b ← less x y;
      if b : bool then (y ::.) <$> sink less x before'
      else Some (x :: y :: before')
  end.

Fixpoint insertion_loop (less : string → string → option bool)
    (before rest : list string) : option (list string) :=
  match rest with
  | [] => Some (reverse before)
  | x :: rest' => before' ← sink less x before; insertion_loop less before' rest'
  end.

(** [sort.Slice] of Go 1.19 and later on a slice of at most 12 elements
    ([pdqsort] goes straight to insertion sort there). *)
Definition insertionSort (less : string → string → option bool)
    (data : list string) : option (list string) :=
  insertion_loop less [] data.

(** One step of the pass that Go 1.18 and earlier run before the insertion
    sort on a slice of 2 to 12 elements:
    [if less(i, i-6) { swap(i, i-6) }]. *)
Definition gap_step (less : string → string → option bool)
    (data : list string) (i : nat) : option (list string) :=
  match data !! i, data !! (i - 6)%nat with
  | Some x, Some y =>
      b ← less x y;
      Some (if b : bool then <[(i - 6)%nat := x]> (<[i := y]> data) else data)
  | _, _ => Some data
  end.

Fixpoint gap_loop (less : string → string → option bool)
    (data : list string) (idx : list nat) : option (list string) :=
  match idx with
  | [] => Some data
  | i :: idx' => data' ← gap_step less data i; gap_loop less data' idx'
  end.

(** [for i := a + 6; i < b; i++ { ... }] followed by [insertionSort]. *)
Definition shellInsertionSort (less : string → string → option bool)
    (data : list string) : option (list string) :=
  if decide (1 < length data)%nat then
    data' ← gap_loop less data (seq 6 (length data - 6));
    insertionSort less data'
  else Some data.

(** *** A Unix build *)

(** [strings.Split(s, sep)] for a one-byte separator. *)
Fixpoint strings_Split (sep : ascii) (s : string) : list string :=
  match s with
  | EmptyString => [""]
  | String c s' =>
      if Ascii.eqb c sep then "" :: strings_Split sep s'
      else match strings_Split sep s' with
           | [] => [String c ""]
           | w :: ws => String c w :: ws
           end
  end.

(** [filepath.SplitList] on Unix: the list separator is the colon. *)
Definition SplitList_unix (path : string) : list string :=
  if String.eqb path "" then [] else strings_Split ":" path.

(** [filepath.VolumeName] on Unix: [volumeNameLen] is constantly 0. *)
Definition VolumeName_unix (path : string) : string := substring 0 0 path.

(** A stand-in digest for running the model on examples: the first 32
    bytes in hexadecimal, padded with zeros to 64 digits. *)
Definition hex_digit (n : N) : ascii :=
  if (n <? 10)%N then ascii_of_N (48 + n) else ascii_of_N (87 + n).

Definition hex_byte (b : Byte.byte) (rest : string) : string :=
  let n := Byte.to_N b in
  String (hex_digit (n / 16)%N) (String (hex_digit (n mod 16)%N) rest).

Fixpoint hex_padded (n : nat) (bytes : list Byte.byte) : string :=
  match n with
  | O => ""
  | S n' =>
      match bytes with
      | [] => String "0" (String "0" (hex_padded n' []))
      | b :: bytes' => hex_byte b (hex_padded n' bytes')
      end
  end.

Definition toy_hex (bytes : list Byte.byte) : string := hex_padded 32 bytes.

Definition unix_go119 : GoLib :=
  mkGoLib VolumeName_unix SplitList_unix insertionSort toy_hex.

Definition unix_go118 : GoLib :=
  mkGoLib VolumeName_unix SplitList_unix shellInsertionSort toy_hex.

(** *** Drive letters *)

(** [filepath.VolumeName] on a Windows build, for paths with a drive
    letter: [volumeNameLen] is 2 when the second byte is a colon and the
    first an ASCII letter.  The other form of a volume name there, the UNC
    prefix of a path that starts with two separators, is left out: such
    paths get no volume name here. *)
Definition is_letter (c : ascii) : bool :=
  let n := nat_of_ascii c in
  ((97 <=? n)%nat && (n <=? 122)%nat) || ((65 <=? n)%nat && (n <=? 90)%nat).

Definition VolumeName_drive (path : string) : string :=
  match path with
  | String c (String ":" _) => if is_letter c then substring 0 2 path else ""
  | _ => ""
  end.

(** [filepath.SplitList] with the semicolon as list separator (quoted
    entries are left out). *)
Definition SplitList_semicolon (path : string) : list string :=
  if String.eqb path "" then [] else strings_Split ";" path.

(** A library that knows drive letters, with the sort of Go 1.19. *)
Definition drives_go119 : GoLib :=
  mkGoLib VolumeName_drive SplitList_semicolon insertionSort toy_hex.

(** ** The program *)

(** The order in which a [range] over a map visits it is not fixed by Go and
    changes from one loop to the next; a run is given one order for each of
    its three loops over a map (lines 66, 80 and 105). *)
Record MapOrder : Type := mkMapOrder {
  range_count : gmap Z (list string) → list (Z * list string);
  range_sizes : gmap Z (list string) → list (Z * list string);
  range_hashes : gmap string (list string) → list (string * list string)
}.

Record MapOrderOk (o : MapOrder) : Prop := {
  range_count_perm : ∀ m, range_count o m ≡ₚ map_to_list m;
  range_sizes_perm : ∀ m, range_sizes o m ≡ₚ map_to_list m;
  range_hashes_perm : ∀ m, range_hashes o m ≡ₚ map_to_list m
}.

Record Flags : Type := mkFlags {
  partitions : string;
  dryRun : bool;
  confirm : bool;
  verbose : bool
}.

(** [m[k] = append(m[k], path)]. *)
Definition append_at `{Countable K} (m : gmap K (list string)) (k : K)
    (path : string) : gmap K (list string) :=
  <[k := default [] (m !! k) ++ [path]]> m.

(** [len(l)], and with it the counters of type [int]: they count elements
    of slices held in memory and stay far from the bounds of [int]. *)
Definition len {A} (l : list A) : Z := Z.of_nat (length l).

Section Dedupe.
Context {lib : GoLib}.
Variable w : World.
Variable o : MapOrder.
Variable flags : Flags.

(** [fileHash] (lines 167-179). *)
Definition fileHash (path : string) : result string :=
  match Open w path with
  | Err err => Err err
  | Ok bytes => Ok (sha256_hex bytes)
  end.

(** The function literal passed to [filepath.Walk] (lines 37-54); it
    always returns nil, so [filepath.Walk] returns nil as well and the
    branch of line 55 is never taken. *)
Definition walkFn (sizeMap : gmap Z (list string)) (e : WalkEntry)
    : Go (gmap Z (list string)) :=
  match e with
  | VisitErr path err => log_Printf (LErrorAccessing path err);; mret sizeMap
  | VisitOk path info =>
      if IsDir info then mret sizeMap
      else if ModeSymlink info then mret sizeMap
      else
        let size := Size info in
        if size =? 0 then mret sizeMap
        else mret (append_at sizeMap size path)
  end.

(** The body of the loop over the partitions (lines 32-58). *)
Definition scan_partition (sizeMap : gmap Z (list string))
    (partition : string) : Go (gmap Z (list string)) :=
  when (verbose flags) (log_Printf (LScanning partition));;
  foldM walkFn (Walk w partition) sizeMap.

(** Lines 65-70. *)
Definition count_potential (potentialDuplicates : Z)
    (entry : Z * list string) : Z :=
  let files := entry.2 in
  if 1 <? len files then potentialDuplicates + (len files - 1)
  else potentialDuplicates.

(** The body of the inner hashing loop (lines 89-98). *)
Definition hash_file (acc : gmap string (list string) * Z) (path : string)
    : Go (gmap string (list string) * Z) :=
  let '(hashMap, totalFiles) := acc in
  match fileHash path with
  | Err err => log_Printf (LErrorHashing path err);; mret (hashMap, totalFiles)
  | Ok hash => mret (append_at hashMap hash path, totalFiles + 1)
  end.

(** The body of the loop over [sizeMap] (lines 80-99). *)
Definition hash_bucket (acc : gmap string (list string) * Z)
    (entry : Z * list string) : Go (gmap string (list string) * Z) :=
  let '(size, files) := entry in
  if len files <? 2 then mret acc
  else
    when (verbose flags) (log_Printf (LProcessing (len files) size));;
    foldM hash_file files acc.

(** The comparison passed to [sort.Slice] (lines 111-122), on the two
    paths [files[i]] and [files[j]].  The errors of [os.Stat] are dropped;
    [infoI.ModTime()] and [infoJ.ModTime()] dereference what it returned. *)
Definition less (nodes : gmap string FileInfo) (fi fj : string) : option bool :=
  let infoI := nodes !! fi in
  let infoJ := nodes !! fj in
  let partitionI := VolumeName fi in
  let partitionJ := VolumeName fj in
  if negb (String.eqb partitionI partitionJ) then
    Some (String.ltb partitionI partitionJ)
  else
    match infoI, infoJ with
    | Some infoI, Some infoJ => Some (ModTime infoI <? ModTime infoJ)
    | _, _ => None
    end.

(** [sort.Slice(files, ...)] in the current file system. *)
Definition sort_files (files : list string) : Go (list string) := λ s,
  match sort_Slice (less (nodes (fs s))) files with
  | Some files' => (Done files', s)
  | None => (Panic NilDereference, s)
  end.

(** Lines 147-152. *)
Definition remove_duplicate (dup : string) : Go unit :=
  err ← os_Remove dup;
  match err with
  | Some err => log_Printf (LErrorDeleting dup err)
  | None => fmt_Print (PDeleted dup)
  end.

(** The body of the loop over the duplicates of a group (lines 130-154). *)
Definition process_duplicate (acc : Z * Z) (dup : string) : Go (Z * Z) :=
  let '(duplicateCount, totalSaved) := acc in
  let duplicateCount := duplicateCount + 1 in
  info ← os_Stat dup;
  info ← deref info;
  let totalSaved := int64 (totalSaved + Size info) in
  fmt_Print (PDuplicate dup);;
  if negb (dryRun flags) then
    if confirm flags then
      fmt_Print (PPrompt dup);;
      response ← fmt_Scanln;
      if negb (String.eqb response "y") && negb (String.eqb response "Y") then
        mret (duplicateCount, totalSaved)
      else
        remove_duplicate dup;; mret (duplicateCount, totalSaved)
    else
      remove_duplicate dup;; mret (duplicateCount, totalSaved)
  else mret (duplicateCount, totalSaved).

(** The body of the loop over [hashMap] (lines 105-155). *)
Definition process_group (acc : Z * Z) (entry : string * list string)
    : Go (Z * Z) :=
  let '(hash, files) := entry in
  if len files <? 2 then mret acc
  else
    files ← sort_files files;
    match files with
    | [] => panic IndexOutOfRange
    | keeper :: duplicates =>
        hash8 ← slice_to hash 8;
        fmt_Print (PGroup hash8);;
        fmt_Print (PKeeper keeper);;
        foldM process_duplicate duplicates acc
    end.

(** Lines 27-58. *)
Definition scan : Go (gmap Z (list string)) :=
  foldM scan_partition (SplitList (partitions flags)) ∅.

(** Lines 76-99. *)
Definition hash_candidates (sizeMap : gmap Z (list string))
    : Go (gmap string (list string) * Z) :=
  foldM hash_bucket (range_sizes o sizeMap) (∅, 0).

(** Lines 101-155. *)
Definition process_duplicates (hashMap : gmap string (list string))
    : Go (Z * Z) :=
  foldM process_group (range_hashes o hashMap) (0, 0).

(** Lines 157-163. *)
Definition summary (totalFiles duplicateCount totalSaved : Z) : Go unit :=
  fmt_Print PSummary;;
  fmt_Print (PTotalFiles totalFiles);;
  fmt_Print (PTotalDuplicates duplicateCount);;
  fmt_Print (PSpaceSaved (totalSaved `quot` (1024 * 1024)));;
  when (dryRun flags) (fmt_Print PDryRunBanner).

(** [main] from line 23 on: [flags] holds what [flag.Parse] (line 21)
    stored.  Where [flag.Parse] ends the program itself (a flag that is not
    defined, a value that does not parse, [-h]) this body is not reached. *)
Definition main : Go unit :=
  if String.eqb (partitions flags) "" then log_Fatal LNoPartitions
  else
    sizeMap ← scan;
    when (verbose flags)
      (log_Printf (LScanned (Z.of_nat (size sizeMap)) (elapsed w)));;
    let potentialDuplicates :=
      foldl count_potential 0 (range_count o sizeMap) in
    when (verbose flags) (log_Printf (LPotential potentialDuplicates));;
    '(hashMap, totalFiles) ← hash_candidates sizeMap;
    '(duplicateCount, totalSaved) ← process_duplicates hashMap;
    summary totalFiles duplicateCount totalSaved.

End Dedupe.

(** ** Describing what a run has built *)

(** A computation that leaves the file system alone and never calls
    [os.Remove]. *)
Definition keeps_files {A} (m : Go A) : Prop :=
  ∀ s, fs (m s).2 = fs s ∧ remove_calls (m s).2 = remove_calls s.

(** The sorted part of an insertion sort, nearest element first. *)
Definition descending (lt : string → string → bool) (l : list string) : Prop :=
  StronglySorted (λ a b, lt a b = false) l.

(** The modification time [os.Stat] reports for a path. *)
Definition mtime (nodes : gmap string FileInfo) (path : string) : Z :=
  from_option ModTime 0 (nodes !! path).

(** The order [less] decides when [os.Stat] succeeds on both files: first
    the volume names, as byte strings, then the modification times. *)
Definition before `{GoLib} (nodes : gmap string FileInfo) (a b : string) : bool :=
  if negb (String.eqb (VolumeName a) (VolumeName b)) then
    String.ltb (VolumeName a) (VolumeName b)
  else mtime nodes a <? mtime nodes b.

Definition nonempty {A} (l : list A) : option (list A) :=
  match l with [] => None | _ => Some l end.

(** The values of the items filed under key [k], in the order of the
    items. *)
Definition filed {X} `{EqDecision K} (key : X → option K) (val : X → string)
    (items : list X) (k : K) : list string :=
  val <$> filter (λ x, key x = Some k) items.

(** A map built by [append_at] from a sequence of items. *)
Definition represents {X} `{Countable K} (key : X → option K) (val : X → string)
    (m : gmap K (list string)) (items : list X) : Prop :=
  ∀ k, m !! k = nonempty (filed key val items k).

(** The size under which [walkFn] records an entry, if it records it. *)
Definition recorded_size (e : WalkEntry) : option Z :=
  match e with
  | VisitOk path info =>
      if IsDir info then None
      else if ModeSymlink info then None
      else if Size info =? 0 then None
      else Some (Size info)
  | VisitErr path err => None
  end.

Definition visit_path (e : WalkEntry) : string :=
  match e with
  | VisitOk path _ => path
  | VisitErr path _ => path
  end.

(** All the entries the scan of a run visits, in order. *)
Definition visits `{GoLib} (w : World) (flags : Flags) : list WalkEntry :=
  mjoin (Walk w <$> SplitList (partitions flags)).

Definition digest_of `{GoLib} (w : World) (path : string) : option string :=
  match fileHash w path with
  | Ok hash => Some hash
  | Err _ => None
  end.

(** The paths handed to [fileHash], in order: the buckets of two or more
    entries, in the order of the loop over [sizeMap]. *)
Definition candidates (entries : list (Z * list string)) : list string :=
  mjoin (snd <$> filter (λ e, 2 ≤ length e.2)%nat entries).

Definition add_logs (s : State) (logs : list Logged) : State :=
  mkState (fs s) (stdin s) (stdout s) (stderr s ++ logs) (remove_calls s).

(** A computation that ends normally and only writes log lines; [P] relates
    its result to the lines written. *)
Definition logs_only {A} (m : Go A) (P : A → list Logged → Prop) : Prop :=
  ∀ s, ∃ a logs, m s = (Done a, add_logs s logs) ∧ P a logs.

(** What the hashing loop has built once it has gone through the paths
    [paths]: the digest groups, the count of hashed files, and a log line
    for every path that could not be hashed. *)
Definition hashed `{GoLib} (w : World) (paths : list string)
    (acc : gmap string (list string) * Z) (logs : list Logged) : Prop :=
  represents (digest_of w) id acc.1 paths ∧
  acc.2 = len (filter (λ path, is_Some (digest_of w path)) paths) ∧
  ∀ path err, path ∈ paths → fileHash w path = Err err →
    LErrorHashing path err ∈ logs.

(** A computation whose keeper lines, duplicate lines and calls to
    [os.Remove] all name paths in [S]. *)
Definition confined {A} (S : string → Prop) (m : Go A) : Prop :=
  ∀ s path,
    (PKeeper path ∈ stdout (m s).2 → PKeeper path ∈ stdout s ∨ S path) ∧
    (PDuplicate path ∈ stdout (m s).2 → PDuplicate path ∈ stdout s ∨ S path) ∧
    (path ∈ remove_calls (m s).2 → path ∈ remove_calls s ∨ S path).

(** ** The report of a dry run, stated on its own *)

Definition add_out (s : State) (out : list Printed) : State :=
  mkState (fs s) (stdin s) (stdout s ++ out) (stderr s) (remove_calls s).

(** The size [os.Stat] reports for a path. *)
Definition size_in (fsys : FileSys) (path : string) : Z :=
  from_option Size 0 (nodes fsys !! path).

(** The duplicates of a map entry: none for a group of fewer than two
    files, otherwise all but the first of the ordered group. *)
Definition group_duplicates `{GoLib} (fsys : FileSys)
    (entry : string * list string) : list string :=
  if len entry.2 <? 2 then []
  else match sort_Slice (less (nodes fsys)) entry.2 with
       | Some (keeper :: duplicates) => duplicates
       | _ => []
       end.

(** The lines a map entry adds to a report: the header with the first
    eight digits of the digest, the keeper, the duplicates. *)
Definition group_report `{GoLib} (fsys : FileSys)
    (entry : string * list string) : list Printed :=
  if len entry.2 <? 2 then []
  else match sort_Slice (less (nodes fsys)) entry.2 with
       | Some (keeper :: duplicates) =>
           PGroup (substring 0 8 entry.1) :: PKeeper keeper
             :: (PDuplicate <$> duplicates)
       | _ => []
       end.

(** What a map entry adds to the two statistics. *)
Definition add_sizes (fsys : FileSys) (total : Z) (paths : list string) : Z :=
  foldl (λ total path, int64 (total + size_in fsys path)) total paths.

Definition count_group `{GoLib} (fsys : FileSys) (acc : Z * Z)
    (entry : string * list string) : Z * Z :=
  (acc.1 + len (group_duplicates fsys entry),
   add_sizes fsys acc.2 (group_duplicates fsys entry)).

Definition summary_lines (totalFiles : Z) (acc : Z * Z) : list Printed :=
  [PSummary; PTotalFiles totalFiles; PTotalDuplicates acc.1;
   PSpaceSaved (acc.2 `quot` (1024 * 1024)); PDryRunBanner].

(** Files with the same digest were seen with the same size by the scan (as
    files with the same content are, on a tree that does not change under
    the run). *)
Definition same_digest_same_size `{GoLib} (w : World) (flags : Flags) : Prop :=
  ∀ p q infoP infoQ hash,
    VisitOk p infoP ∈ visits w flags → VisitOk q infoQ ∈ visits w flags →
    fileHash w p = Ok hash → fileHash w q = Ok hash →
    Size infoP = Size infoQ.

(** The files that the scan saw and the hashing could read are still there
    when the groups are treated. *)
Definition hashed_files_present `{GoLib} (w : World) (flags : Flags)
    (fsys : FileSys) : Prop :=
  ∀ p infoP hash,
    VisitOk p infoP ∈ visits w flags → fileHash w p = Ok hash →
    is_Some (nodes fsys !! p).

(** ** Describing what a run leaves alone *)

(** A computation that ends normally or by the panic of a method called on
    a nil [os.FileInfo], and in no other way. *)
Definition ends_or_nil {A} (m : Go A) : Prop :=
  ∀ s, (∃ a, (m s).1 = Done a) ∨ (m s).1 = Panic NilDereference.

(** A computation that reads nothing from standard input. *)
Definition keeps_stdin {A} (m : Go A) : Prop :=
  ∀ s, stdin (m s).2 = stdin s.

(** Two states that differ in the log at most. *)
Definition agree (s1 s2 : State) : Prop :=
  fs s1 = fs s2 ∧ stdin s1 = stdin s2 ∧ stdout s1 = stdout s2 ∧
  remove_calls s1 = remove_calls s2.

(** Two computations that, from states that agree, end the same way in
    states that agree. *)
Definition alike {A} (m1 m2 : Go A) : Prop :=
  ∀ s1 s2, agree s1 s2 →
    (m1 s1).1 = (m2 s2).1 ∧ agree (m1 s1).2 (m2 s2).2.

(** Every path handed to [os.Remove] so far has its "Duplicate:" line. *)
Definition removals_reported (s : State) : Prop :=
  ∀ path, path ∈ remove_calls s → PDuplicate path ∈ stdout s.

(** A path the scan saw as a regular file (no directory, no symlink) that is
    not empty, and that the hashing could read. *)
Definition scanned_and_hashed `{GoLib} (w : World) (flags : Flags)
    (path : string) : Prop :=
  ∃ info hash,
    VisitOk path info ∈ visits w flags ∧
    IsDir info = false ∧ ModeSymlink info = false ∧ Size info ≠ 0 ∧
    fileHash w path = Ok hash.

(** The number of "Duplicate:" lines among lines printed. *)
Definition is_duplicate_line (p : Printed) : bool :=
  match p with PDuplicate _ => true | _ => false end.

Definition duplicate_lines (out : list Printed) : Z :=
  len (filter (λ p, is_duplicate_line p = true) out).

(** The number of paths held by a map of groups. *)
Definition group_sizes `{Countable K} (m : gmap K (list string)) : nat :=
  sum_list_with (λ e : K * list string, length e.2) (map_to_list m).

(** The sum of the sizes [os.Stat] reports for some paths. *)
Definition sum_sizes (fsys : FileSys) (paths : list string) : Z :=
  foldr (λ path z, size_in fsys path + z) 0 paths.

(** The paths of the "Duplicate:" lines among lines printed, in order. *)
Definition duplicate_paths (out : list Printed) : list string :=
  omap (λ p, match p with PDuplicate dup => Some dup | _ => None end) out.

(** [os.Remove] was called for the reported duplicates, once for each line
    and in the order of the lines. *)
Definition all_attempted (s : State) : Prop :=
  remove_calls s = duplicate_paths (stdout s).

(** The paths the scan records, in the order it records them. *)
Definition recorded_paths `{GoLib} (w : World) (flags : Flags) : list string :=
  visit_path <$> filter (λ e, is_Some (recorded_size e)) (visits w flags).

(** ** Example inputs *)

Definition dirInfo : FileInfo := mkFileInfo true false 4096 50.
Definition regular (size mtime : Z) : FileInfo := mkFileInfo false false size mtime.
Definition bytes_of (s : string) : list Byte.byte := String.list_byte_of_string s.

(** A map order that follows the map's own listing, and one that goes
    through it backwards. *)
Definition forwards : MapOrder := mkMapOrder map_to_list map_to_list map_to_list.
Definition backwards : MapOrder :=
  mkMapOrder (λ m, reverse (map_to_list m)) (λ m, reverse (map_to_list m))
             (λ m, reverse (map_to_list m)).

(** One directory [/a] holding the single file [/a/f] (5 bytes). *)
Definition one_file : World := mkWorld
  (λ root,
     if String.eqb root "/a" then
       [VisitOk "/a" dirInfo; VisitOk "/a/f" (regular 5 100)]
     else [VisitErr root "lstat: no such file or directory"])
  (λ path,
     if String.eqb path "/a/f" then Ok (bytes_of "hello")
     else Err "open: no such file or directory")
  "1ms".

Definition one_file_fs : FileSys :=
  mkFileSys (<["/a/f" := regular 5 100]> (<["/a" := dirInfo]> ∅)) ∅.

Definition start (fsys : FileSys) (input : list string) : State :=
  mkState fsys input [] [] [].

(** The same directory a moment later: [/a/g], a copy of [/a/f], was seen
    by the scan and read by the hashing, and is gone when the groups are
    ordered. *)
Definition copy_vanished : World := mkWorld
  (λ root,
     if String.eqb root "/a" then
       [VisitOk "/a" dirInfo; VisitOk "/a/f" (regular 5 100);
        VisitOk "/a/g" (regular 5 200)]
     else [VisitErr root "lstat: no such file or directory"])
  (λ path,
     if String.eqb path "/a/f" || String.eqb path "/a/g" then Ok (bytes_of "hello")
     else Err "open: no such file or directory")
  "1ms".

(** Seven copies of one file in [/d]; [/d/b] and [/d/g] are the oldest and
    have the same modification time. *)
Definition seven_paths : list string :=
  ["/d/a"; "/d/b"; "/d/c"; "/d/d"; "/d/e"; "/d/f"; "/d/g"].

Definition seven_copies_nodes : gmap string FileInfo :=
  list_to_map
    [("/d", dirInfo);
     ("/d/a", regular 3 5); ("/d/b", regular 3 1); ("/d/c", regular 3 5);
     ("/d/d", regular 3 5); ("/d/e", regular 3 5); ("/d/f", regular 3 5);
     ("/d/g", regular 3 1)].

Definition seven_copies_fs : FileSys := mkFileSys seven_copies_nodes ∅.

Definition seven_copies : World := mkWorld
  (λ root,
     if String.eqb root "/d" then
       VisitOk "/d" dirInfo ::
       ((λ path, VisitOk path (default dirInfo (seven_copies_nodes !! path)))
          <$> seven_paths)
     else [VisitErr root "lstat: no such file or directory"])
  (λ path,
     if bool_decide (path ∈ seven_paths) then Ok (bytes_of "dup")
     else Err "open: no such file or directory")
  "1ms".

(** [/a/f], [/a/g] and [/a/h] have the same size; [/a/h] cannot be
    opened. *)
Definition one_unreadable : World := mkWorld
  (λ root,
     if String.eqb root "/a" then
       [VisitOk "/a" dirInfo; VisitOk "/a/f" (regular 5 100);
        VisitOk "/a/g" (regular 5 200); VisitOk "/a/h" (regular 5 300)]
     else [VisitErr root "lstat: no such file or directory"])
  (λ path,
     if String.eqb path "/a/f" || String.eqb path "/a/g" then Ok (bytes_of "hello")
     else Err "open: permission denied")
  "1ms".

Definition one_unreadable_fs : FileSys :=
  mkFileSys
    (list_to_map
       [("/a", dirInfo); ("/a/f", regular 5 100); ("/a/g", regular 5 200);
        ("/a/h", regular 5 300)]) ∅.

(** Two groups of two copies each, of different sizes. *)
Definition two_groups_nodes : gmap string FileInfo :=
  list_to_map
    [("/b", dirInfo);
     ("/b/p1", regular 3 10); ("/b/p2", regular 3 20);
     ("/b/q1", regular 5 30); ("/b/q2", regular 5 40)].

Definition two_groups_fs : FileSys := mkFileSys two_groups_nodes ∅.

Definition two_groups : World := mkWorld
  (λ root,
     if String.eqb root "/b" then
       [VisitOk "/b" dirInfo;
        VisitOk "/b/p1" (regular 3 10); VisitOk "/b/p2" (regular 3 20);
        VisitOk "/b/q1" (regular 5 30); VisitOk "/b/q2" (regular 5 40)]
     else [VisitErr root "lstat: no such file or directory"])
  (λ path,
     if String.eqb path "/b/p1" || String.eqb path "/b/p2" then Ok (bytes_of "one")
     else if String.eqb path "/b/q1" || String.eqb path "/b/q2" then
       Ok (bytes_of "three")
     else Err "open: no such file or directory")
  "1ms".

(** Copies on two drives; the copy on [D:] is the oldest. *)
Definition two_drives_paths : list string :=
  ["D:/x/old"; "C:/x/new"; "C:/x/mid"].

Definition two_drives_nodes : gmap string FileInfo :=
  list_to_map
    [("D:/x/old", regular 4 1); ("C:/x/new", regular 4 9);
     ("C:/x/mid", regular 4 5)].

(** The same three paths with other times, and a size changed. *)
Definition two_drives_later : gmap string FileInfo :=
  list_to_map
    [("D:/x/old", regular 4 70); ("C:/x/new", regular 4 20);
     ("C:/x/mid", regular 6 30)].

(** ** Reasoning about runs *)

Lemma bind_Done {A B} (m : Go A) (k : A → Go B) s a s' :
  m s = (Done a, s') → (m ≫= k) s = k a s'.
Proof. intros H. unfold mbind, Go_bind. by rewrite H. Qed.

Lemma foldM_cons {A B} (body : B → A → Go B) x l acc :
  foldM body (x :: l) acc = body acc x ≫= λ acc', foldM body l acc'.
Proof. done. Qed.

Lemma bind_Panic {A B} (m : Go A) (k : A → Go B) s why s' :
  m s = (Panic why, s') → (m ≫= k) s = (Panic why, s').
Proof. intros H. unfold mbind, Go_bind. by rewrite H. Qed.

Lemma keeps_ret {A} (a : A) : keeps_files (mret a : Go A).
Proof. by intros s. Qed.

Lemma keeps_bind {A B} (m : Go A) (k : A → Go B) :
  keeps_files m → (∀ a, keeps_files (k a)) → keeps_files (m ≫= k).
Proof.
  intros Hm Hk s. specialize (Hm s). unfold mbind, Go_bind.
  destruct (m s) as [[a|why|code] s'] eqn:E; simpl in *; [|done..].
  destruct (Hk a s') as [-> ->]. done.
Qed.

Lemma keeps_foldM {A B} (body : B → A → Go B) (l : list A) :
  (∀ acc x, keeps_files (body acc x)) → ∀ acc, keeps_files (foldM body l acc).
Proof.
  intros Hbody. induction l as [|x l IH]; intros acc; simpl.
  - apply keeps_ret.
  - apply keeps_bind; auto.
Qed.

Lemma keeps_when b (m : Go unit) : keeps_files m → keeps_files (when b m).
Proof. destruct b; simpl; auto using keeps_ret. Qed.

Lemma keeps_print p : keeps_files (fmt_Print p).
Proof. by intros s. Qed.

Lemma keeps_log l : keeps_files (log_Printf l).
Proof. by intros s. Qed.

Lemma keeps_fatal {A} l : keeps_files (log_Fatal l : Go A).
Proof. by intros s. Qed.

Lemma keeps_panic {A} why : keeps_files (panic why : Go A).
Proof. by intros s. Qed.

Lemma keeps_stat path : keeps_files (os_Stat path).
Proof. by intros s. Qed.

Lemma keeps_deref info : keeps_files (deref info).
Proof. destruct info; [apply keeps_ret | apply keeps_panic]. Qed.

Lemma keeps_scanln : keeps_files fmt_Scanln.
Proof. intros s. unfold fmt_Scanln. by destruct (stdin s). Qed.

Lemma keeps_slice_to h n : keeps_files (slice_to h n).
Proof. unfold slice_to. case_decide; [apply keeps_ret | apply keeps_panic]. Qed.

Lemma keeps_sort_files `{GoLib} files : keeps_files (sort_files files).
Proof. intros s. unfold sort_files. by destruct (sort_Slice _ _). Qed.

Create HintDb keeps.
#[export] Hint Resolve keeps_ret keeps_print keeps_log keeps_fatal keeps_panic
  keeps_stat keeps_deref keeps_scanln keeps_slice_to keeps_sort_files : keeps.

Ltac keeps_step :=
  first
    [ apply keeps_bind; [|intros ?]
    | apply keeps_foldM; intros ? ?
    | apply keeps_when
    | solve [auto with keeps] ].

Lemma keeps_walkFn sizeMap e : keeps_files (walkFn sizeMap e).
Proof.
  destruct e as [path info|path err]; simpl.
  - repeat case_match; auto with keeps.
  - repeat keeps_step.
Qed.

Lemma keeps_scan `{GoLib} w flags : keeps_files (scan w flags).
Proof.
  unfold scan. apply keeps_foldM. intros sizeMap partition.
  unfold scan_partition. repeat keeps_step. apply keeps_walkFn.
Qed.

Lemma keeps_hash_candidates `{GoLib} w o flags sizeMap :
  keeps_files (hash_candidates w o flags sizeMap).
Proof.
  unfold hash_candidates. apply keeps_foldM. intros acc [size files].
  unfold hash_bucket. case_match; [auto with keeps|].
  apply keeps_bind; [repeat keeps_step|]. intros _.
  apply keeps_foldM. intros [hashMap totalFiles] path.
  unfold hash_file. case_match; repeat keeps_step.
Qed.

Lemma keeps_process_duplicate flags acc dup :
  dryRun flags = true → keeps_files (process_duplicate flags acc dup).
Proof.
  intros Hdry. unfold process_duplicate. destruct acc as [n t].
  rewrite Hdry. simpl. repeat keeps_step.
Qed.

Lemma keeps_process_duplicates `{GoLib} o flags hashMap :
  dryRun flags = true → keeps_files (process_duplicates o flags hashMap).
Proof.
  intros Hdry. unfold process_duplicates. apply keeps_foldM.
  intros acc [hash files]. unfold process_group.
  case_match; [auto with keeps|].
  apply keeps_bind; [auto with keeps|]. intros [|keeper duplicates].
  - auto with keeps.
  - repeat keeps_step. by apply keeps_process_duplicate.
Qed.

Lemma keeps_main `{GoLib} w o flags :
  dryRun flags = true → keeps_files (main w o flags).
Proof.
  intros Hdry. unfold main. case_match; [auto with keeps|].
  apply keeps_bind; [apply keeps_scan|]. intros sizeMap.
  apply keeps_bind; [repeat keeps_step|]. intros _.
  apply keeps_bind; [repeat keeps_step|]. intros _.
  apply keeps_bind; [apply keeps_hash_candidates|]. intros [hashMap totalFiles].
  apply keeps_bind; [by apply keeps_process_duplicates|].
  intros [duplicateCount totalSaved].
  unfold summary. repeat keeps_step.
Qed.

(** C1. With [--dry-run] set, whatever the other flags, the input, the map
    iteration order, the library and the way the run ends (normally, by a
    panic, by [os.Exit]): [os.Remove] is never called, the file system is
    the one the run started with, and so is its set of paths. *)
Theorem dry_run_deletes_nothing (lib : GoLib) (w : World) (o : MapOrder)
    (partitions : string) (confirm verbose : bool) (s : State) :
  let s' := (main w o (mkFlags partitions true confirm verbose) s).2 in
  remove_calls s' = remove_calls s ∧
  fs s' = fs s ∧
  dom (nodes (fs s')) = dom (nodes (fs s)).
Proof.
  intros s'.
  destruct (keeps_main w o (mkFlags partitions true confirm verbose) eq_refl s)
    as [Hfs Hcalls].
  subst s'. by rewrite Hfs, Hcalls.
Qed.

(** ** The sorts of the two builds meet the promise of [sort.Slice] *)

Lemma descending_reverse lt l : descending lt l → ascending lt (reverse l).
Proof.
  unfold descending, ascending. induction l as [|x l IH]; intros Hl.
  - constructor.
  - apply StronglySorted_cons in Hl as [Hx Hl].
    rewrite reverse_cons. apply StronglySorted_app. split_and!.
    + intros a b Ha Hb. apply list_elem_of_singleton in Hb as ->.
      rewrite elem_of_reverse in Ha. rewrite Forall_forall in Hx. by apply Hx.
    + auto.
    + repeat constructor.
Qed.

Lemma elem_of_cons_skip {A} (a x y : A) (l : list A) :
  a ∈ x :: l → a ∈ x :: y :: l.
Proof. rewrite !elem_of_cons. tauto. Qed.

Lemma sink_sorts less lt x before :
  StrictWeakOrder lt →
  (∀ a b, a ∈ x :: before → b ∈ x :: before → less a b = Some (lt a b)) →
  descending lt before →
  ∃ before', sink less x before = Some before' ∧
             before' ≡ₚ x :: before ∧ descending lt before'.
Proof.
  intros [Hasym Hneg] Hless. unfold descending.
  induction before as [|y before IH]; intros Hsorted; simpl.
  - exists [x]. split_and!; [done..|repeat constructor].
  - apply StronglySorted_cons in Hsorted as [Hy Hsorted].
    rewrite Hless; [|by left|right; by left]. simpl.
    destruct (lt x y) eqn:Hxy.
    + destruct IH as (before' & -> & Hperm & Hdesc); [|done|].
      { intros a b Ha Hb. apply Hless; by apply elem_of_cons_skip. }
      exists (y :: before'). split_and!; [done| |].
      * rewrite Hperm. apply Permutation_swap.
      * apply StronglySorted_cons. split; [|done].
        rewrite Hperm. constructor; auto.
    + exists (x :: y :: before). split_and!; [done..|].
      apply StronglySorted_cons. split.
      * constructor; [done|]. eapply Forall_impl; [exact Hy|].
        simpl. intros b Hb. by apply (Hneg x y b).
      * by apply StronglySorted_cons.
Qed.

Lemma insertion_loop_sorts less lt before rest :
  StrictWeakOrder lt →
  (∀ a b, a ∈ before ++ rest → b ∈ before ++ rest → less a b = Some (lt a b)) →
  descending lt before →
  ∃ l', insertion_loop less before rest = Some l' ∧
        l' ≡ₚ before ++ rest ∧ ascending lt l'.
Proof.
  intros Hswo. revert before.
  induction rest as [|x rest IH]; intros before Hless Hdesc; simpl.
  - exists (reverse before). rewrite app_nil_r. split_and!; [done| |].
    + apply reverse_Permutation.
    + by apply descending_reverse.
  - destruct (sink_sorts less lt x before Hswo) as (before' & -> & Hperm & Hdesc');
      [|done|].
    { intros a b Ha Hb.
      apply Hless; rewrite <-Permutation_middle, app_comm_cons;
        apply elem_of_app; by left. }
    simpl.
    assert (before' ++ rest ≡ₚ before ++ x :: rest) as Hmid.
    { by rewrite Hperm, <-Permutation_middle. }
    destruct (IH before') as (l' & -> & Hperm' & Hasc); [|done|].
    + intros a b Ha Hb. apply Hless; by rewrite <-Hmid.
    + exists l'. split_and!; [done| |done]. by rewrite Hperm'.
Qed.

Lemma insertionSort_sorts : sorts insertionSort.
Proof.
  intros less lt l Hswo Hless.
  destruct (insertion_loop_sorts less lt [] l Hswo) as (l' & ? & ? & ?);
    [done|constructor|]. by exists l'.
Qed.

Lemma gap_step_permutes less lt data i :
  (∀ a b, a ∈ data → b ∈ data → less a b = Some (lt a b)) →
  ∃ data', gap_step less data i = Some data' ∧ data' ≡ₚ data.
Proof.
  intros Hless. unfold gap_step.
  destruct (data !! i) as [x|] eqn:Hx; [|by exists data].
  destruct (data !! (i - 6)%nat) as [y|] eqn:Hy; [|by exists data].
  rewrite Hless by (eapply list_elem_of_lookup_2; eauto). simpl.
  destruct (lt x y); [|by exists data].
  eexists. split; [done|]. by apply Permutation_insert_swap.
Qed.

Lemma gap_loop_permutes less lt idx : ∀ data,
  (∀ a b, a ∈ data → b ∈ data → less a b = Some (lt a b)) →
  ∃ data', gap_loop less data idx = Some data' ∧ data' ≡ₚ data.
Proof.
  induction idx as [|i idx IH]; intros data Hless; simpl.
  - by exists data.
  - destruct (gap_step_permutes less lt data i Hless) as (data1 & -> & Hperm).
    simpl. destruct (IH data1) as (data2 & -> & Hperm').
    + intros a b Ha Hb. apply Hless; by rewrite <-Hperm.
    + exists data2. split; [done|]. by rewrite Hperm'.
Qed.

Lemma shellInsertionSort_sorts : sorts shellInsertionSort.
Proof.
  intros less lt l Hswo Hless. unfold shellInsertionSort.
  case_decide as Hlen.
  - destruct (gap_loop_permutes less lt (seq 6 (length l - 6)) l Hless)
      as (data & -> & Hperm). simpl.
    destruct (insertionSort_sorts less lt data Hswo) as (l' & -> & Hperm' & Hasc).
    + intros a b Ha Hb. apply Hless; by rewrite <-Hperm.
    + exists l'. split_and!; [done| |done]. by rewrite Hperm'.
  - exists l. split_and!; [done..|].
    destruct l as [|x [|y l]]; simpl in *; [repeat constructor..|lia].
Qed.

Lemma hex_padded_length n bytes : String.length (hex_padded n bytes) = (2 * n)%nat.
Proof.
  revert bytes. induction n as [|n IH]; intros bytes; simpl; [done|].
  destruct bytes as [|b bytes]; simpl; rewrite IH; lia.
Qed.

Lemma sink_permutes less x before before' :
  sink less x before = Some before' → before' ≡ₚ x :: before.
Proof.
  revert before'. induction before as [|y before IH]; intros before' Hsink;
    simpl in Hsink.
  - by simplify_eq.
  - destruct (less x y) as [[]|]; simplify_eq/=.
    + destruct (sink less x before) as [r|]; simplify_eq/=.
      rewrite (IH r eq_refl). apply Permutation_swap.
    + done.
Qed.

Lemma insertion_loop_permutes less rest : ∀ before l',
  insertion_loop less before rest = Some l' → l' ≡ₚ before ++ rest.
Proof.
  induction rest as [|x rest IH]; intros before l' Hloop; simpl in Hloop.
  - simplify_eq. rewrite app_nil_r. apply reverse_Permutation.
  - destruct (sink less x before) as [before'|] eqn:Hsink; simplify_eq/=.
    rewrite (IH _ _ Hloop), (sink_permutes _ _ _ _ Hsink).
    by rewrite <-Permutation_middle.
Qed.

Lemma gap_loop_returns_permutation less idx : ∀ data data',
  gap_loop less data idx = Some data' → data' ≡ₚ data.
Proof.
  induction idx as [|i idx IH]; intros data data' Hloop; simpl in Hloop.
  - by simplify_eq.
  - destruct (gap_step less data i) as [data1|] eqn:Hstep; simplify_eq/=.
    rewrite (IH _ _ Hloop). unfold gap_step in Hstep.
    destruct (data !! i) as [x|] eqn:Hx; [|by simplify_eq].
    destruct (data !! (i - 6)%nat) as [y|] eqn:Hy; [|by simplify_eq].
    destruct (less x y) as [[]|]; simplify_eq/=; [|done].
    by apply Permutation_insert_swap.
Qed.

Lemma unix_go119_laws : GoLibLaws unix_go119.
Proof.
  constructor.
  - apply insertionSort_sorts.
  - intros less l l' Hsort. by apply (insertion_loop_permutes less l [] l').
  - intros bytes. apply hex_padded_length.
Qed.

Lemma unix_go118_laws : GoLibLaws unix_go118.
Proof.
  constructor.
  - apply shellInsertionSort_sorts.
  - intros less l l' Hsort. simpl in Hsort. unfold shellInsertionSort in Hsort.
    case_decide; [|by simplify_eq].
    destruct (gap_loop less l _) as [data|] eqn:Hgap; simplify_eq/=.
    rewrite (insertion_loop_permutes less data [] l' Hsort). simpl.
    by apply (gap_loop_returns_permutation less _ l data Hgap).
  - intros bytes. apply hex_padded_length.
Qed.

(** ** The order of the comparison *)

Lemma ltb_leb (a b : string) : String.ltb a b = negb (String.leb b a).
Proof.
  unfold String.ltb, String.leb. rewrite (String.compare_antisym b a).
  by destruct (String.compare a b).
Qed.

Lemma string_ltb_asym (a b : string) :
  String.ltb a b = true → String.ltb b a = false.
Proof.
  rewrite !ltb_leb. intros Hab.
  destruct (String.leb_total a b) as [H|H]; rewrite H in *; done.
Qed.

Lemma string_ltb_negtrans (a b c : string) :
  String.ltb a b = false → String.ltb b c = false → String.ltb a c = false.
Proof.
  rewrite !ltb_leb, !negb_false_iff. intros Hba Hcb.
  assert (String.le c a) as H; [|by apply Is_true_true in H].
  transitivity b; by apply Is_true_true.
Qed.

Lemma string_ltb_irrefl (a : string) : String.ltb a a = false.
Proof.
  destruct (String.ltb a a) eqn:E; [|done].
  by rewrite (string_ltb_asym a a E) in E.
Qed.

Lemma before_swo `{GoLib} nodes : StrictWeakOrder (before nodes).
Proof.
  split.
  - intros a b. unfold before.
    rewrite (String.eqb_sym (VolumeName b) (VolumeName a)).
    destruct (String.eqb_spec (VolumeName a) (VolumeName b)) as [Heq|Hne]; simpl.
    + intros Hlt. apply Z.ltb_lt in Hlt. apply Z.ltb_ge. lia.
    + apply string_ltb_asym.
  - intros a b c. unfold before.
    generalize (VolumeName a) (VolumeName b) (VolumeName c)
               (mtime nodes a) (mtime nodes b) (mtime nodes c).
    intros va vb vc ta tb tc.
    destruct (String.eqb_spec va vb) as [Hab|Hab];
    destruct (String.eqb_spec vb vc) as [Hbc|Hbc];
    destruct (String.eqb_spec va vc) as [Hac|Hac];
      subst; simpl; try congruence.
    + rewrite !Z.ltb_ge. lia.
    + intros Hcb Hbc'. exfalso. apply Hab. apply String.leb_antisym.
      * rewrite ltb_leb in Hbc'. by apply negb_false_iff.
      * rewrite ltb_leb in Hcb. by apply negb_false_iff.
    + apply string_ltb_negtrans.
Qed.

Lemma less_before `{GoLib} nodes a b :
  is_Some (nodes !! a) → is_Some (nodes !! b) →
  less nodes a b = Some (before nodes a b).
Proof.
  intros [ia Ha] [ib Hb]. unfold less, before, mtime. rewrite Ha, Hb. simpl.
  by destruct (negb _).
Qed.

(** ** The ordering of a digest group *)

Lemma string_ltb_total (a b : string) :
  a ≠ b → String.ltb b a = false → String.ltb a b = true.
Proof.
  rewrite !ltb_leb, negb_false_iff, negb_true_iff. intros Hne Hab.
  destruct (String.leb b a) eqn:Hba; [|done].
  destruct Hne. by apply String.leb_antisym.
Qed.

Lemma StronglySorted_lookup {A} (R : A → A → Prop) (l : list A) i j a b :
  StronglySorted R l → (i < j)%nat → l !! i = Some a → l !! j = Some b → R a b.
Proof.
  intros Hl. revert i j. induction Hl as [|x l Hl IH Hx]; intros i j Hij Hi Hj.
  - done.
  - destruct j as [|j]; [lia|]. destruct i as [|i]; simplify_eq/=.
    + rewrite Forall_forall in Hx. apply Hx. by eapply list_elem_of_lookup_2.
    + apply (IH i j); [lia|done..].
Qed.

(** C3 (as amended). [sort.Slice] with the comparison of the source returns
    the files of the group, each once, with the volume names ascending (as
    byte strings) and, between files of one volume, the modification times
    ascending.  The order of two files equal on both keys is not fixed. *)
Theorem group_ordered_by_volume_then_mtime (lib : GoLib) (laws : GoLibLaws lib)
    (nodes : gmap string FileInfo) (files : list string) :
  (∀ path, path ∈ files → is_Some (nodes !! path)) →
  ∃ sorted,
    sort_Slice (less nodes) files = Some sorted ∧
    sorted ≡ₚ files ∧
    ∀ i j a b infoA infoB,
      (i < j)%nat → sorted !! i = Some a → sorted !! j = Some b →
      nodes !! a = Some infoA → nodes !! b = Some infoB →
      String.ltb (VolumeName a) (VolumeName b) = true ∨
      (VolumeName a = VolumeName b ∧ ModTime infoA ≤ ModTime infoB).
Proof.
  intros Hstat.
  destruct (sort_Slice_sorts (less nodes) (before nodes) files (before_swo nodes))
    as (sorted & Hsort & Hperm & Hasc).
  { intros a b Ha Hb. apply less_before; auto. }
  exists sorted. split_and!; [done..|].
  intros i j a b infoA infoB Hij Hi Hj Ha Hb.
  pose proof (StronglySorted_lookup _ _ _ _ _ _ Hasc Hij Hi Hj) as Hba.
  simpl in Hba. unfold before, mtime in Hba. rewrite Ha, Hb in Hba. simpl in Hba.
  destruct (String.eqb_spec (VolumeName b) (VolumeName a)) as [Heq|Hne];
    simpl in Hba.
  - right. split; [done|]. by apply Z.ltb_ge.
  - left. apply string_ltb_total; [congruence|done].
Qed.

(** The seven copies, ordered by the insertion sort of Go 1.19. *)
Lemma group_ordered_by_volume_then_mtime_witness :
  ∃ sorted,
    @sort_Slice unix_go119 (@less unix_go119 seven_copies_nodes) seven_paths
      = Some sorted ∧
    sorted ≡ₚ seven_paths ∧
    ∀ i j a b infoA infoB,
      (i < j)%nat → sorted !! i = Some a → sorted !! j = Some b →
      seven_copies_nodes !! a = Some infoA →
      seven_copies_nodes !! b = Some infoB →
      String.ltb (@VolumeName unix_go119 a) (@VolumeName unix_go119 b) = true ∨
      (@VolumeName unix_go119 a = @VolumeName unix_go119 b ∧
       ModTime infoA ≤ ModTime infoB).
Proof.
  apply (group_ordered_by_volume_then_mtime unix_go119 unix_go119_laws).
  intros path Hpath. unfold seven_paths in Hpath.
  repeat (apply elem_of_cons in Hpath as [->|Hpath]; [vm_compute; eauto|]).
  by apply elem_of_nil in Hpath.
Defined.

(** C3 (as stated) fails.  With the [sort.Slice] of Go 1.18, which keeps
    the promise of [sort.Slice], the group of seven copies, discovered in the
    order [/d/a], ..., [/d/g], comes out with [/d/g] in front of [/d/b]
    although the two are equal on both keys and [/d/b] was discovered first;
    the run keeps [/d/g]. *)
Lemma ties_not_kept_in_discovery_order :
  GoLibLaws unix_go118 ∧
  @less unix_go118 seven_copies_nodes "/d/b" "/d/g" = Some false ∧
  @less unix_go118 seven_copies_nodes "/d/g" "/d/b" = Some false ∧
  @sort_Slice unix_go118 (@less unix_go118 seven_copies_nodes) seven_paths
    = Some ["/d/g"; "/d/b"; "/d/c"; "/d/d"; "/d/e"; "/d/f"; "/d/a"] ∧
  let run := @main unix_go118 seven_copies forwards (mkFlags "/d" true false false)
               (start seven_copies_fs []) in
  run.1 = Done tt ∧
  take 3 (stdout run.2) = [PGroup "64757000"; PKeeper "/d/g"; PDuplicate "/d/b"].
Proof. split; [apply unix_go118_laws|]. vm_compute. done. Qed.

(** ** The partition key *)

Lemma drives_go119_laws : GoLibLaws drives_go119.
Proof.
  constructor.
  - apply insertionSort_sorts.
  - intros less l l' Hsort. by apply (insertion_loop_permutes less l [] l').
  - intros bytes. apply hex_padded_length.
Qed.

Lemma before_keys `{GoLib} nodes a b :
  before nodes b a = false →
  String.ltb (VolumeName b) (VolumeName a) = false.
Proof.
  unfold before.
  destruct (String.eqb_spec (VolumeName b) (VolumeName a)) as [->|]; simpl;
    [|done].
  intros _. apply string_ltb_irrefl.
Qed.

Lemma ascending_keys `{GoLib} nodes l :
  ascending (before nodes) l →
  StronglySorted (λ x y, String.ltb y x = false) (VolumeName <$> l).
Proof.
  unfold ascending. induction 1 as [|a l Hl IH Ha]; simpl; constructor;
    [done|].
  rewrite Forall_fmap. eapply Forall_impl; [done|].
  intros b. by apply before_keys.
Qed.

(** The files of a group that can all be read come out of [sort.Slice]
    in the order of [before]. *)
Lemma sort_files_ascending `{GoLibLaws} files s :
  (∀ path, path ∈ files → is_Some (nodes (fs s) !! path)) →
  ∃ sorted,
    sort_files files s = (Done sorted, s) ∧ sorted ≡ₚ files ∧
    ascending (before (nodes (fs s))) sorted.
Proof.
  intros Hstat.
  destruct (sort_Slice_sorts (less (nodes (fs s))) (before (nodes (fs s)))
              files (before_swo _)) as (sorted & Hsort & Hperm & Hasc).
  { intros a b Ha Hb. apply less_before; auto. }
  exists sorted. unfold sort_files. by rewrite Hsort.
Qed.

(** C10. The key that orders the partitions is [filepath.VolumeName] of the
    path and nothing read from the file system.  Where the volume names of
    two files differ the comparison is theirs, whatever the file system
    holds (nothing of what [os.Stat] returned is used).  A group ordered in
    two file systems has its volume names in the same sequence, ascending,
    whatever times and sizes the two hold.  For two paths without a volume
    name the comparison is the one of the modification times, and a group
    of such paths comes out with the times ascending; on a Unix build no
    path has a volume name. *)
Theorem partition_key_from_path_only (lib : GoLib) (laws : GoLibLaws lib) :
  (∀ nodes nodes' a b,
     VolumeName a ≠ VolumeName b →
     less nodes a b = Some (String.ltb (VolumeName a) (VolumeName b)) ∧
     less nodes' a b = less nodes a b) ∧
  (∀ files s s',
     (∀ path, path ∈ files →
        is_Some (nodes (fs s) !! path) ∧ is_Some (nodes (fs s') !! path)) →
     ∃ sorted sorted',
       sort_files files s = (Done sorted, s) ∧
       sort_files files s' = (Done sorted', s') ∧
       sorted ≡ₚ files ∧ sorted' ≡ₚ files ∧
       VolumeName <$> sorted = VolumeName <$> sorted' ∧
       ∀ i j a b,
         (i < j)%nat → sorted !! i = Some a → sorted !! j = Some b →
         String.ltb (VolumeName b) (VolumeName a) = false) ∧
  (∀ nodes a b,
     VolumeName a = "" → VolumeName b = "" →
     less nodes a b =
       match nodes !! a, nodes !! b with
       | Some infoA, Some infoB => Some (ModTime infoA <? ModTime infoB)
       | _, _ => None
       end) ∧
  (∀ files s,
     (∀ path, path ∈ files → VolumeName path = "") →
     (∀ path, path ∈ files → is_Some (nodes (fs s) !! path)) →
     ∃ sorted,
       sort_files files s = (Done sorted, s) ∧
       sorted ≡ₚ files ∧
       ∀ i j a b infoA infoB,
         (i < j)%nat → sorted !! i = Some a → sorted !! j = Some b →
         nodes (fs s) !! a = Some infoA → nodes (fs s) !! b = Some infoB →
         ModTime infoA ≤ ModTime infoB) ∧
  (∀ path, VolumeName_unix path = "").
Proof.
  split_and!.
  - intros nodes nodes' a b Hne. unfold less.
    by destruct (String.eqb_spec (VolumeName a) (VolumeName b)).
  - intros files s s' Hstat.
    destruct (sort_files_ascending files s) as (sorted & Hrun & Hperm & Hasc).
    { intros path Hpath. by apply Hstat. }
    destruct (sort_files_ascending files s')
      as (sorted' & Hrun' & Hperm' & Hasc').
    { intros path Hpath. by apply Hstat. }
    exists sorted, sorted'. split_and!; [done..| |].
    + apply (StronglySorted_unique_strong
               (λ x y : string, String.ltb y x = false)).
      * intros x y _ _ Hyx Hxy. destruct (decide (x = y)) as [|Hne]; [done|].
        rewrite (string_ltb_total x y Hne Hyx) in Hxy. done.
      * by apply (ascending_keys (nodes (fs s))).
      * by apply (ascending_keys (nodes (fs s'))).
      * by rewrite Hperm, Hperm'.
    + intros i j a b Hij Hi Hj.
      apply (before_keys (nodes (fs s))).
      apply (StronglySorted_lookup _ _ _ _ _ _ Hasc Hij Hi Hj).
  - intros nodes a b Ha Hb. unfold less. by rewrite Ha, Hb.
  - intros files s Hvol Hstat.
    destruct (sort_files_ascending files s Hstat)
      as (sorted & Hrun & Hperm & Hasc).
    exists sorted. split_and!; [done..|].
    intros i j a b infoA infoB Hij Hi Hj Ha Hb.
    pose proof (StronglySorted_lookup _ _ _ _ _ _ Hasc Hij Hi Hj) as Hba.
    simpl in Hba. unfold before, mtime in Hba.
    rewrite Ha, Hb in Hba. simpl in Hba.
    rewrite !Hvol in Hba; [|rewrite <-Hperm; by eapply list_elem_of_lookup_2..].
    simpl in Hba. by apply Z.ltb_ge.
  - intros path. unfold VolumeName_unix. by destruct path.
Qed.

(** With drive letters, [D:/x/old] is not before [C:/x/new] even where
    neither can be read, and the three copies on two drives come out with
    the drives in the same sequence under two sets of times that order the
    copies on [C:] differently.  On a Unix build [/d/b] (time 1) comes
    before [/d/a] (time 5), and the seven copies come out by their times. *)
Lemma partition_key_from_path_only_witness :
  @less drives_go119 ∅ "D:/x/old" "C:/x/new" = Some false ∧
  (∃ sorted sorted',
     @sort_files drives_go119 two_drives_paths
         (start (mkFileSys two_drives_nodes ∅) [])
       = (Done sorted, start (mkFileSys two_drives_nodes ∅) []) ∧
     @sort_files drives_go119 two_drives_paths
         (start (mkFileSys two_drives_later ∅) [])
       = (Done sorted', start (mkFileSys two_drives_later ∅) []) ∧
     @VolumeName drives_go119 <$> sorted
       = @VolumeName drives_go119 <$> sorted') ∧
  @less unix_go119 seven_copies_nodes "/d/b" "/d/a" = Some (1 <? 5) ∧
  (∃ sorted,
     @sort_files unix_go119 seven_paths (start seven_copies_fs [])
       = (Done sorted, start seven_copies_fs []) ∧
     sorted ≡ₚ seven_paths).
Proof.
  pose proof (partition_key_from_path_only drives_go119 drives_go119_laws)
    as (Hdiffer & Hkeys & _).
  pose proof (partition_key_from_path_only unix_go119 unix_go119_laws)
    as (_ & _ & Hmtime & Hgroup & Hunix).
  split_and!.
  - destruct (Hdiffer ∅ ∅ "D:/x/old" "C:/x/new") as [Hless _];
      [discriminate|exact Hless].
  - destruct (Hkeys two_drives_paths
                (start (mkFileSys two_drives_nodes ∅) [])
                (start (mkFileSys two_drives_later ∅) []))
      as (sorted & sorted' & Hrun & Hrun' & _ & _ & Heq & _).
    + intros path Hpath. unfold two_drives_paths in Hpath.
      repeat (apply elem_of_cons in Hpath as [->|Hpath];
              [split; vm_compute; eauto|]).
      by apply elem_of_nil in Hpath.
    + exists sorted, sorted'. split_and!; [exact Hrun|exact Hrun'|exact Heq].
  - rewrite Hmtime; [reflexivity|apply Hunix..].
  - destruct (Hgroup seven_paths (start seven_copies_fs []))
      as (sorted & Hrun & Hperm & _).
    + intros path _. apply Hunix.
    + intros path Hpath. unfold seven_paths in Hpath.
      repeat (apply elem_of_cons in Hpath as [->|Hpath]; [vm_compute; eauto|]).
      by apply elem_of_nil in Hpath.
    + exists sorted. split; [exact Hrun|exact Hperm].
Defined.

(** ** One duplicate *)

Ltac run_step :=
  unfold process_duplicate, remove_duplicate, mbind, Go_bind, mret, Go_ret,
    os_Stat, deref, fmt_Print, log_Printf, fmt_Scanln, os_Remove, panic;
  simpl.

Ltac printed_more :=
  let p := fresh "p" in
  let Hp := fresh "Hp" in
  intros p Hp;
  first [ exact Hp
        | apply elem_of_app; left; exact Hp
        | apply elem_of_app; left; apply elem_of_app; left; exact Hp ].

Lemma process_duplicate_Done flags acc dup s info :
  nodes (fs s) !! dup = Some info →
  ∃ s',
    process_duplicate flags acc dup s
      = (Done (acc.1 + 1, int64 (acc.2 + Size info)), s') ∧
    PDuplicate dup ∈ stdout s' ∧
    (∀ p, p ∈ stdout s → p ∈ stdout s') ∧
    (∀ path, path ≠ dup → nodes (fs s') !! path = nodes (fs s) !! path).
Proof.
  intros Hinfo.
  assert (∀ (out : Outcome (Z * Z)) s1,
            (∀ p, p ∈ stdout s ++ [PDuplicate dup] → p ∈ stdout s1) →
            (∀ path, path ≠ dup → nodes (fs s1) !! path = nodes (fs s) !! path) →
            ∃ s', (out, s1) = (out, s') ∧ PDuplicate dup ∈ stdout s' ∧
                  (∀ p, p ∈ stdout s → p ∈ stdout s') ∧
                  (∀ path, path ≠ dup →
                     nodes (fs s') !! path = nodes (fs s) !! path)) as Hfinish.
  { intros out s1 Hout Hnodes. exists s1. split_and!; [done| | |done].
    - apply Hout. apply elem_of_app. right. by left.
    - intros p Hp. apply Hout. apply elem_of_app. by left. }
  destruct acc as [n t], flags as [? [] [] ?]; run_step;
    rewrite Hinfo; simpl.
  1,2: apply Hfinish; simpl; [printed_more|done].
  - destruct (stdin s) as [|response rest]; simpl.
    + apply Hfinish; simpl; [printed_more|done].
    + destruct (negb (response =? "y")%string && negb (response =? "Y")%string);
        simpl; [apply Hfinish; simpl; [printed_more|done]|].
      rewrite Hinfo. case_decide; simpl.
      * apply Hfinish; simpl; [printed_more|done].
      * apply Hfinish; simpl; [printed_more|].
        intros path Hne. by rewrite lookup_delete_ne.
  - rewrite Hinfo. case_decide; simpl.
    + apply Hfinish; simpl; [printed_more|done].
    + apply Hfinish; simpl; [printed_more|].
      intros path Hne. by rewrite lookup_delete_ne.
Qed.

(** The confirmation step where [os.Stat] succeeds.  With [--confirm] and
    without [--dry-run], for a duplicate whose metadata can be read: the
    duplicate is reported and counted, the prompt
    is printed, and [os.Remove] is called exactly when the response read is
    "y" or "Y" (the file is then gone unless its removal is refused).  Any
    other response, the empty one included, leaves the file system and the
    log as they were and the run goes on. *)
Theorem confirm_deletes_only_on_y (partitions : string) (verbose : bool)
    (acc : Z * Z) (dup : string) (s : State) (info : FileInfo) :
  nodes (fs s) !! dup = Some info →
  let flags := mkFlags partitions false true verbose in
  let response := hd "" (stdin s) in
  let r := process_duplicate flags acc dup s in
  r.1 = Done (acc.1 + 1, int64 (acc.2 + Size info)) ∧
  (response = "y" ∨ response = "Y" →
     remove_calls r.2 = remove_calls s ++ [dup] ∧
     (dup ∉ locked (fs s) →
        nodes (fs r.2) = delete dup (nodes (fs s)) ∧
        stdout r.2 = stdout s ++ [PDuplicate dup; PPrompt dup; PDeleted dup])) ∧
  (response ≠ "y" → response ≠ "Y" →
     remove_calls r.2 = remove_calls s ∧
     fs r.2 = fs s ∧
     stderr r.2 = stderr s ∧
     stdout r.2 = stdout s ++ [PDuplicate dup; PPrompt dup]).
Proof.
  intros Hinfo flags response r. subst flags response r.
  destruct acc as [n t]. run_step. rewrite Hinfo. simpl.
  destruct (stdin s) as [|response rest]; simpl.
  { split_and!; [done| |].
    - intros [|]; done.
    - intros _ _. by rewrite <-!app_assoc. }
  destruct (String.eqb_spec response "y") as [Hy|Hy];
    destruct (String.eqb_spec response "Y") as [HY|HY]; simpl;
    try (rewrite Hinfo; case_decide; simpl).
  all: split_and!; try done.
  all: try (intros _; split; [done|]; intros Hlocked; try done;
            by rewrite <-!app_assoc).
  all: try (intros; congruence).
  - intros [|]; done.
  - intros _ _. by rewrite <-!app_assoc.
Qed.

(** The answer "n" keeps [/a/f]. *)
Lemma confirm_deletes_only_on_y_witness :
  let s := start one_file_fs ["n"] in
  let r := process_duplicate (mkFlags "/a" false true false) (0, 0) "/a/f" s in
  r.1 = Done (1, 5) ∧ remove_calls r.2 = [] ∧ fs r.2 = one_file_fs.
Proof.
  pose proof (confirm_deletes_only_on_y "/a" false (0, 0) "/a/f"
                (start one_file_fs ["n"]) (regular 5 100) eq_refl)
    as (Hdone & _ & Hskip).
  destruct Hskip as (Hcalls & Hfs & _); [done..|].
  split_and!; [exact Hdone|exact Hcalls|exact Hfs].
Defined.

(** ** The duplicates of a group *)

Lemma foldl_ext_elem {A B} (f g : A → B → A) (l : list B) :
  (∀ a x, x ∈ l → f a x = g a x) → ∀ a, foldl f a l = foldl g a l.
Proof.
  induction l as [|x l IH]; intros Hfg a; simpl; [done|].
  rewrite Hfg by left. apply IH. intros a' x' Hx'. apply Hfg. by right.
Qed.

(** The statistics where [os.Stat] succeeds.  For distinct duplicates whose
    metadata can be read, whatever the flags, the answers on standard input
    and the outcome of each removal (done, refused, skipped, not attempted):
    every duplicate of a group is reported, adds one to the count of
    duplicates and adds its size to the bytes that can be reclaimed; the
    loop runs to its end. *)
Theorem duplicates_counted_in_every_mode (flags : Flags) (dups : list string)
    (acc : Z * Z) (s : State) :
  NoDup dups →
  (∀ dup, dup ∈ dups → is_Some (nodes (fs s) !! dup)) →
  let r := foldM (process_duplicate flags) dups acc s in
  r.1 = Done (acc.1 + len dups,
              foldl (λ total dup, int64 (total + size_in (fs s) dup)) acc.2 dups) ∧
  (∀ dup, dup ∈ dups → PDuplicate dup ∈ stdout r.2) ∧
  (∀ p, p ∈ stdout s → p ∈ stdout r.2).
Proof.
  intros Hnodup. revert acc s.
  induction Hnodup as [|dup dups Hnotin Hnodup IH]; intros acc s Hstat r.
  - subst r. destruct acc. simpl. unfold len. simpl. rewrite Z.add_0_r.
    split_and!; [done| |done]. intros dup Hdup. by apply elem_of_nil in Hdup.
  - subst r. destruct (Hstat dup) as [info Hinfo]; [left|].
    destruct (process_duplicate_Done flags acc dup s info Hinfo)
      as (s1 & Hstep & Hprinted & Hmono & Hothers).
    simpl. rewrite (bind_Done _ _ _ _ _ Hstep).
    specialize (IH (acc.1 + 1, int64 (acc.2 + Size info)) s1).
    destruct IH as (Hdone & Hall & Hmono').
    { intros d Hd. rewrite Hothers; [apply Hstat; by right|].
      intros ->. done. }
    simpl in Hdone. split_and!.
    + rewrite Hdone. f_equal. f_equal.
      * unfold len. simpl length. lia.
      * replace (size_in (fs s) dup) with (Size info)
          by (unfold size_in; by rewrite Hinfo).
        apply foldl_ext_elem. intros total d Hd. unfold size_in.
        rewrite Hothers; [done|]. intros ->. done.
    + intros d [->|Hd]%elem_of_cons; auto.
    + auto.
Qed.

(** Two duplicates of 3 bytes, the first removed ("y"), the second kept
    ("n"): both are counted. *)
Lemma duplicates_counted_in_every_mode_witness :
  let r := foldM (process_duplicate (mkFlags "/d" false true false))
             ["/d/a"; "/d/b"] (0, 0) (start seven_copies_fs ["y"; "n"]) in
  r.1 = Done (2, 6) ∧ PDuplicate "/d/b" ∈ stdout r.2.
Proof.
  pose proof (duplicates_counted_in_every_mode (mkFlags "/d" false true false)
                ["/d/a"; "/d/b"] (0, 0) (start seven_copies_fs ["y"; "n"]))
    as Hcount.
  destruct Hcount as (Hdone & Hall & _).
  - apply (bool_decide_unpack _). vm_compute. exact I.
  - intros dup Hdup.
    repeat (apply elem_of_cons in Hdup as [->|Hdup]; [vm_compute; eauto|]).
    by apply elem_of_nil in Hdup.
  - split; [exact Hdone|]. apply Hall. right. by left.
Defined.

(** ** A root listed twice *)

(** C2 fails on the code.  [--partitions /a:/a] walks [/a] twice, so the
    only file [/a/f] is recorded twice, lands twice in its digest group, is
    the keeper of that group and also its duplicate: the run reports it as
    keeper and removes it. *)
Theorem keeper_removed_when_root_listed_twice :
  let run := @main unix_go119 one_file forwards
               (mkFlags "/a:/a" false false false) (start one_file_fs []) in
  run.1 = Done tt ∧
  stdout run.2 =
    [PGroup "68656c6c"; PKeeper "/a/f"; PDuplicate "/a/f"; PDeleted "/a/f";
     PSummary; PTotalFiles 2; PTotalDuplicates 1; PSpaceSaved 0] ∧
  remove_calls run.2 = ["/a/f"] ∧
  nodes one_file_fs !! "/a/f" = Some (regular 5 100) ∧
  nodes (fs run.2) !! "/a/f" = None.
Proof. vm_compute. done. Qed.

(** C6 fails on the code for the same reason.  In the same directory no
    other file has the size of [/a/f], and still, with [/a] listed twice,
    [/a/f] is hashed (twice: two files processed) and reported as a
    duplicate group. *)
Theorem lone_file_hashed_when_root_listed_twice :
  let run := @main unix_go119 one_file forwards
               (mkFlags "/a:/a" true false false) (start one_file_fs []) in
  Walk one_file "/a" = [VisitOk "/a" dirInfo; VisitOk "/a/f" (regular 5 100)] ∧
  run.1 = Done tt ∧
  stdout run.2 =
    [PGroup "68656c6c"; PKeeper "/a/f"; PDuplicate "/a/f";
     PSummary; PTotalFiles 2; PTotalDuplicates 1; PSpaceSaved 0;
     PDryRunBanner].
Proof. vm_compute. done. Qed.

(** ** Metadata that cannot be read *)

(** C4 fails on the code.  The error of [os.Stat] is dropped and the nil
    [os.FileInfo] is used: the run panics, at the ordering when a hashed
    file is gone by then (line 121), and at the statistics when the
    duplicate is gone by then (line 133; here [/a/f], recorded three times,
    was removed as the first duplicate and is met again as the second). *)
Theorem stat_failure_panics :
  (let run := @main unix_go119 copy_vanished forwards
                (mkFlags "/a" true false false) (start one_file_fs []) in
   nodes one_file_fs !! "/a/g" = None ∧
   run.1 = Panic NilDereference ∧
   stdout run.2 = []) ∧
  (let run := @main unix_go119 one_file forwards
                (mkFlags "/a:/a:/a" false false false) (start one_file_fs []) in
   run.1 = Panic NilDereference ∧
   stdout run.2 =
     [PGroup "68656c6c"; PKeeper "/a/f"; PDuplicate "/a/f"; PDeleted "/a/f"]).
Proof. vm_compute. done. Qed.

(** In general: the comparison panics as soon as the two volume names agree
    and one of the two files cannot be read, and so does the statistics
    step of a duplicate that cannot be read. *)
Lemma less_nil_dereference `{GoLib} nodes a b :
  VolumeName a = VolumeName b →
  nodes !! a = None ∨ nodes !! b = None →
  less nodes a b = None.
Proof.
  intros Hvol Hnil. unfold less. rewrite Hvol, String.eqb_refl. simpl.
  destruct Hnil as [-> | ->]; [done|]. by destruct (nodes !! a).
Qed.

Lemma process_duplicate_nil_dereference flags acc dup s :
  nodes (fs s) !! dup = None →
  process_duplicate flags acc dup s = (Panic NilDereference, s).
Proof. intros Hnil. destruct acc. run_step. by rewrite Hnil. Qed.

(** C8 fails on the code, by the same dropped error of [os.Stat].  With
    [--confirm], [/a] listed three times and the answers "y", "y": the group
    holds [/a/f] three times and so has two duplicates; the first is
    prompted for and removed, and the second is never prompted for: the run
    panics at its statistics (line 133) and the second answer stays unread.
    Where a copy is gone before the ordering, the run panics at line 121 and
    no duplicate is prompted for at all. *)
Theorem prompt_lost_when_stat_fails :
  (let flags := mkFlags "/a:/a:/a" false true false in
   let run := @main unix_go119 one_file forwards flags
                (start one_file_fs ["y"; "y"]) in
   @recorded_paths unix_go119 one_file flags = ["/a/f"; "/a/f"; "/a/f"] ∧
   run.1 = Panic NilDereference ∧
   stdout run.2 =
     [PGroup "68656c6c"; PKeeper "/a/f"; PDuplicate "/a/f"; PPrompt "/a/f";
      PDeleted "/a/f"] ∧
   stdin run.2 = ["y"] ∧
   remove_calls run.2 = ["/a/f"]) ∧
  (let run := @main unix_go119 copy_vanished forwards
                (mkFlags "/a" false true false) (start one_file_fs ["y"]) in
   nodes one_file_fs !! "/a/g" = None ∧
   run.1 = Panic NilDereference ∧
   stdout run.2 = [] ∧
   stdin run.2 = ["y"] ∧
   remove_calls run.2 = []).
Proof. vm_compute. done. Qed.

(** C9 fails on the code, by the same dropped error.  With [/a] listed three
    times the group has two duplicates, as the dry run reports; the run
    that removes reports the first, panics at the statistics of the second
    (line 133) and prints neither its "Duplicate:" line nor any tally.  In a
    dry run where a copy is gone before the ordering, no duplicate is
    reported and no tally printed. *)
Theorem duplicate_lost_when_stat_fails :
  (let preview := @main unix_go119 one_file forwards
                    (mkFlags "/a:/a:/a" true false false)
                    (start one_file_fs []) in
   let run := @main unix_go119 one_file forwards
                (mkFlags "/a:/a:/a" false false false)
                (start one_file_fs []) in
   preview.1 = Done tt ∧
   stdout preview.2 =
     [PGroup "68656c6c"; PKeeper "/a/f"; PDuplicate "/a/f"; PDuplicate "/a/f";
      PSummary; PTotalFiles 3; PTotalDuplicates 2; PSpaceSaved 0;
      PDryRunBanner] ∧
   run.1 = Panic NilDereference ∧
   duplicate_lines (stdout run.2) = 1 ∧
   PSummary ∉ stdout run.2) ∧
  (let run := @main unix_go119 copy_vanished forwards
                (mkFlags "/a" true true false) (start one_file_fs []) in
   @recorded_paths unix_go119 copy_vanished (mkFlags "/a" true true false)
     = ["/a/f"; "/a/g"] ∧
   run.1 = Panic NilDereference ∧
   duplicate_lines (stdout run.2) = 0 ∧
   PSummary ∉ stdout run.2).
Proof.
  vm_compute. split_and!; try done.
  all: intros Hin; repeat (apply elem_of_cons in Hin as [Hin|Hin]; [done|]);
    by apply elem_of_nil in Hin.
Qed.

(** ** Computations that only log *)

Lemma add_logs_nil s : add_logs s [] = s.
Proof. destruct s. unfold add_logs. simpl. by rewrite app_nil_r. Qed.

Lemma add_logs_app s l1 l2 : add_logs (add_logs s l1) l2 = add_logs s (l1 ++ l2).
Proof. unfold add_logs. simpl. by rewrite app_assoc. Qed.

Lemma logs_only_ret {A} (a : A) (P : A → list Logged → Prop) :
  P a [] → logs_only (mret a) P.
Proof. intros HP s. exists a, []. by rewrite add_logs_nil. Qed.

Lemma logs_only_bind {A B} (m : Go A) (k : A → Go B) P Q :
  logs_only m P →
  (∀ a l1, P a l1 → logs_only (k a) (λ b l2, Q b (l1 ++ l2))) →
  logs_only (m ≫= k) Q.
Proof.
  intros Hm Hk s. destruct (Hm s) as (a & l1 & Hrun & HP).
  destruct (Hk a l1 HP (add_logs s l1)) as (b & l2 & Hrun' & HQ).
  exists b, (l1 ++ l2). rewrite (bind_Done _ _ _ _ _ Hrun), Hrun'.
  by rewrite add_logs_app.
Qed.

Lemma logs_only_log l : logs_only (log_Printf l) (λ _ logs, logs = [l]).
Proof. intros s. by exists tt, [l]. Qed.

Lemma logs_only_when b l :
  logs_only (when b (log_Printf l)) (λ _ logs, logs = if b then [l] else []).
Proof. destruct b; simpl; [apply logs_only_log|by apply logs_only_ret]. Qed.

Lemma logs_only_weaken {A} (m : Go A) (P Q : A → list Logged → Prop) :
  logs_only m P → (∀ a logs, P a logs → Q a logs) → logs_only m Q.
Proof. intros Hm HPQ s. destruct (Hm s) as (a & logs & ? & ?). eauto. Qed.

(** A loop that only logs, with an invariant over the items gone through. *)
Lemma logs_only_foldM {A B} (body : B → A → Go B)
    (I : list A → B → list Logged → Prop) (l : list A) :
  (∀ done x acc logs, I done acc logs →
     logs_only (body acc x) (λ acc' l', I (done ++ [x]) acc' (logs ++ l'))) →
  ∀ done acc logs, I done acc logs →
    logs_only (foldM body l acc) (λ acc' l', I (done ++ l) acc' (logs ++ l')).
Proof.
  intros Hbody. induction l as [|x l IH]; intros done acc logs HI; simpl.
  - apply logs_only_ret. by rewrite !app_nil_r.
  - eapply logs_only_bind; [by apply Hbody|].
    intros acc' l1 HI'. simpl in HI'.
    eapply logs_only_weaken; [by apply IH|].
    intros acc'' l2. simpl. by rewrite <-!app_assoc.
Qed.

(** ** Maps built by appending *)

Lemma filed_snoc {X} `{EqDecision K} (key : X → option K) val items x (k : K) :
  filed key val (items ++ [x]) k =
  filed key val items k ++ (if decide (key x = Some k) then [val x] else []).
Proof.
  unfold filed. rewrite filter_app, fmap_app. f_equal.
  rewrite filter_cons, filter_nil. by case_decide.
Qed.

Lemma default_nonempty {A} (l : list A) : default [] (nonempty l) = l.
Proof. by destruct l. Qed.

Lemma nonempty_snoc {A} (l : list A) x : nonempty (l ++ [x]) = Some (l ++ [x]).
Proof. by destruct l. Qed.

Lemma represents_empty {X} `{Countable K} (key : X → option K) val :
  represents key val ∅ [].
Proof. intros k. by rewrite lookup_empty. Qed.

Lemma represents_snoc {X} `{Countable K} (key : X → option K) val m items x :
  represents key val m items →
  represents key val
    (match key x with Some k => append_at m k (val x) | None => m end)
    (items ++ [x]).
Proof.
  intros Hm k. rewrite filed_snoc. destruct (key x) as [k'|] eqn:Hkey.
  - unfold append_at. destruct (decide (k' = k)) as [->|Hne].
    + rewrite lookup_insert_eq, decide_True by done.
      by rewrite Hm, default_nonempty, nonempty_snoc.
    + rewrite lookup_insert_ne, decide_False by congruence.
      by rewrite app_nil_r.
  - rewrite decide_False by done. by rewrite app_nil_r.
Qed.

Lemma represents_elem_of {X} `{Countable K} (key : X → option K) val m items
    (k : K) (files : list string) path :
  represents key val m items → m !! k = Some files → path ∈ files →
  ∃ x, x ∈ items ∧ key x = Some k ∧ val x = path.
Proof.
  intros Hm Hk Hpath. rewrite Hm in Hk.
  assert (files = filed key val items k) as ->.
  { destruct (filed key val items k); simpl in Hk; congruence. }
  unfold filed in Hpath. apply list_elem_of_fmap in Hpath as (x & -> & Hx).
  apply list_elem_of_filter in Hx as [? ?]. eauto.
Qed.

(** ** The scan *)

Lemma walkFn_records sizeMap e :
  logs_only (walkFn sizeMap e)
    (λ sizeMap' _,
       sizeMap' = match recorded_size e with
                  | Some size => append_at sizeMap size (visit_path e)
                  | None => sizeMap
                  end).
Proof.
  destruct e as [path info|path err]; simpl.
  - repeat case_match; by apply logs_only_ret.
  - eapply logs_only_bind; [apply logs_only_log|].
    intros _ l1 _. by apply logs_only_ret.
Qed.

Lemma scan_represents `{GoLib} w flags :
  logs_only (scan w flags)
    (λ sizeMap _, represents recorded_size visit_path sizeMap (visits w flags)).
Proof.
  unfold scan, visits.
  pose (I := λ (roots : list string) (sizeMap : gmap Z (list string))
               (_ : list Logged),
             represents recorded_size visit_path sizeMap
               (mjoin (Walk w <$> roots))).
  eapply logs_only_weaken.
  - apply (logs_only_foldM _ I _) with (done := []) (logs := []).
    + intros roots root sizeMap logs HI. unfold scan_partition.
      eapply logs_only_bind; [apply logs_only_when|].
      intros _ l1 _.
      pose (J := λ (entries : list WalkEntry) (sizeMap : gmap Z (list string))
                   (_ : list Logged),
                 represents recorded_size visit_path sizeMap
                   (mjoin (Walk w <$> roots) ++ entries)).
      eapply logs_only_weaken.
      * apply (logs_only_foldM _ J _) with (done := []) (logs := []).
        -- intros entries e sizeMap' logs' HJ.
           eapply logs_only_weaken; [apply walkFn_records|].
           intros sizeMap'' l3 ->. unfold J. rewrite app_assoc.
           by apply represents_snoc.
        -- unfold J. by rewrite app_nil_r.
      * intros sizeMap' l2 HJ. unfold I, J in *. simpl in HJ.
        by rewrite fmap_app, join_app; simpl; rewrite app_nil_r.
    + apply represents_empty.
  - intros sizeMap logs HI. exact HI.
Qed.

(** ** The hashing *)

Lemma hashed_snoc `{GoLib} w paths acc logs path :
  hashed w paths acc logs →
  logs_only (hash_file w acc path)
    (λ acc' l', hashed w (paths ++ [path]) acc' (logs ++ l')).
Proof.
  intros (Hrep & Hcount & Hlogged). destruct acc as [hashMap totalFiles].
  simpl in *. unfold hash_file.
  pose proof (represents_snoc (digest_of w) id hashMap paths path Hrep) as Hrep'.
  destruct (fileHash w path) as [hash|err] eqn:Hhash.
  - assert (digest_of w path = Some hash) as Hdigest.
    { unfold digest_of. by rewrite Hhash. }
    rewrite Hdigest in Hrep'.
    apply logs_only_ret. rewrite app_nil_r. split_and!; simpl.
    + done.
    + rewrite filter_app, filter_cons, filter_nil.
      rewrite decide_True by (rewrite Hdigest; eauto).
      unfold len in *. rewrite length_app. simpl. lia.
    + intros p e [Hp|Hp]%elem_of_app He; [eauto|].
      apply list_elem_of_singleton in Hp as ->. congruence.
  - assert (digest_of w path = None) as Hdigest.
    { unfold digest_of. by rewrite Hhash. }
    rewrite Hdigest in Hrep'.
    eapply logs_only_bind; [apply logs_only_log|].
    intros _ l1 ->. apply logs_only_ret. rewrite app_nil_r.
    split_and!; simpl.
    + done.
    + rewrite filter_app, filter_cons, filter_nil.
      rewrite decide_False by (rewrite Hdigest; by intros [? ?]).
      by rewrite app_nil_r.
    + intros p e [Hp|Hp]%elem_of_app He.
      * apply elem_of_app. left. eauto.
      * apply list_elem_of_singleton in Hp as ->.
        apply elem_of_app. right. rewrite Hhash in He. simplify_eq. by left.
Qed.

Lemma hashed_more_logs `{GoLib} w paths acc logs l' :
  hashed w paths acc logs → hashed w paths acc (logs ++ l').
Proof.
  intros (? & ? & Hlogged). split_and!; [done..|].
  intros path err Hpath Herr. apply elem_of_app. left. eauto.
Qed.

Lemma candidates_snoc entries entry :
  candidates (entries ++ [entry]) =
  candidates entries ++ (if decide (2 ≤ length entry.2)%nat then entry.2 else []).
Proof.
  unfold candidates. rewrite filter_app, fmap_app, join_app. f_equal.
  rewrite filter_cons, filter_nil. case_decide; simpl; by rewrite ?app_nil_r.
Qed.

Lemma hash_candidates_hashed `{GoLib} w o flags sizeMap :
  logs_only (hash_candidates w o flags sizeMap)
    (hashed w (candidates (range_sizes o sizeMap))).
Proof.
  unfold hash_candidates.
  pose (I := λ (entries : list (Z * list string)) acc logs,
             hashed w (candidates entries) acc logs).
  eapply logs_only_weaken.
  - apply (logs_only_foldM _ I _) with (done := []) (logs := []).
    + intros entries [size files] acc logs HI. unfold hash_bucket, I.
      rewrite candidates_snoc. simpl. unfold len.
      destruct (Z.ltb_spec (Z.of_nat (length files)) 2) as [Hlt|Hge].
      * rewrite decide_False by lia. rewrite app_nil_r.
        apply logs_only_ret. by rewrite app_nil_r.
      * rewrite decide_True by lia.
        eapply logs_only_bind; [apply logs_only_when|].
        intros _ l1 _.
        pose (J := λ (paths : list string) acc logs,
                   hashed w (candidates entries ++ paths) acc logs).
        eapply logs_only_weaken.
        -- apply (logs_only_foldM _ J _) with (done := []) (logs := logs ++ l1).
           ++ intros paths path acc' logs' HJ. unfold J.
              rewrite app_assoc. by apply hashed_snoc.
           ++ unfold J. rewrite app_nil_r. by apply hashed_more_logs.
        -- intros acc' l2 HJ. unfold J in HJ. simpl in HJ.
           by rewrite app_assoc.
    + split_and!; [apply represents_empty|done|].
      intros path err Hpath. by apply elem_of_nil in Hpath.
  - intros acc logs HI. exact HI.
Qed.

(** ** Which paths a run names *)

Lemma confined_same {A} S (m : Go A) :
  (∀ s, stdout (m s).2 = stdout s ∧ remove_calls (m s).2 = remove_calls s) →
  confined S m.
Proof. intros Hm s path. destruct (Hm s) as [-> ->]. auto. Qed.

Lemma confined_bind_val {A B} S (m : Go A) (k : A → Go B) (Q : A → Prop) :
  confined S m →
  (∀ s a s', m s = (Done a, s') → Q a) →
  (∀ a, Q a → confined S (k a)) →
  confined S (m ≫= k).
Proof.
  intros Hm HQ Hk s path. specialize (Hm s path). unfold mbind, Go_bind.
  destruct (m s) as [[a|why|code] s'] eqn:E; simpl in *; [|done..].
  specialize (Hk a (HQ _ _ _ E) s' path). tauto.
Qed.

Lemma confined_bind {A B} S (m : Go A) (k : A → Go B) :
  confined S m → (∀ a, confined S (k a)) → confined S (m ≫= k).
Proof.
  intros Hm Hk. apply (confined_bind_val S m k (λ _, True)); auto.
Qed.

Lemma confined_foldM {A B} S (body : B → A → Go B) (l : list A) :
  (∀ acc x, x ∈ l → confined S (body acc x)) →
  ∀ acc, confined S (foldM body l acc).
Proof.
  induction l as [|x l IH]; intros Hbody acc; simpl.
  - by apply confined_same.
  - apply confined_bind; [apply Hbody; by left|].
    intros acc'. apply IH. intros acc'' x' Hx'. apply Hbody. by right.
Qed.

Lemma confined_print S p :
  (∀ path, p = PKeeper path ∨ p = PDuplicate path → S path) →
  confined S (fmt_Print p).
Proof.
  intros Hp s path. simpl. rewrite !elem_of_app, !list_elem_of_singleton.
  split_and!; [| |by left]; intros [?|?]; eauto.
Qed.

Lemma confined_remove S dup : S dup → confined S (os_Remove dup).
Proof.
  intros Hdup s path. unfold os_Remove.
  destruct (nodes (fs s) !! dup); [case_decide|]; simpl;
    rewrite elem_of_app, list_elem_of_singleton;
    (split_and!; [by left|by left|]; intros [?| ->]; eauto).
Qed.

Lemma confined_scanln S : confined S fmt_Scanln.
Proof. apply confined_same. intros s. unfold fmt_Scanln. by destruct (stdin s). Qed.

Lemma confined_process_duplicate S flags acc dup :
  S dup → confined S (process_duplicate flags acc dup).
Proof.
  intros Hdup. destruct acc as [n t]. unfold process_duplicate.
  assert (confined S (remove_duplicate dup)) as Hremove.
  { unfold remove_duplicate. apply confined_bind; [by apply confined_remove|].
    intros [err|]; [by apply confined_same|].
    apply confined_print. intros path [?|?]; done. }
  apply confined_bind; [by apply confined_same|]. intros info.
  apply confined_bind; [destruct info; by apply confined_same|]. intros info'.
  apply confined_bind.
  { apply confined_print. intros path [?|?]; by simplify_eq. }
  intros _. destruct (dryRun flags); simpl; [by apply confined_same|].
  destruct (confirm flags).
  - apply confined_bind.
    { apply confined_print. intros path [?|?]; done. }
    intros _. apply confined_bind; [apply confined_scanln|]. intros response.
    case_match; [by apply confined_same|].
    apply confined_bind; [done|]. intros _. by apply confined_same.
  - apply confined_bind; [done|]. intros _. by apply confined_same.
Qed.

Lemma confined_process_group `{GoLibLaws} S flags acc hash files :
  (∀ path, path ∈ files → S path) →
  confined S (process_group flags acc (hash, files)).
Proof.
  intros Hfiles. unfold process_group. case_match; [by apply confined_same|].
  apply (confined_bind_val S _ _ (λ sorted, sorted ≡ₚ files)).
  - apply confined_same. intros s. unfold sort_files.
    by destruct (sort_Slice _ _).
  - intros s sorted s' Hsort. unfold sort_files in Hsort.
    destruct (sort_Slice _ _) as [sorted'|] eqn:E; simplify_eq.
    by apply sort_Slice_permutes in E.
  - intros [|keeper duplicates] Hperm; [by apply confined_same|].
    apply confined_bind.
    { unfold slice_to. case_decide; by apply confined_same. }
    intros hash8. apply confined_bind.
    { apply confined_print. intros path [?|?]; done. }
    intros _. apply confined_bind.
    { apply confined_print. intros path [?|?]; simplify_eq.
      apply Hfiles. rewrite <-Hperm. by left. }
    intros _. apply confined_foldM. intros acc' dup Hdup.
    apply confined_process_duplicate. apply Hfiles. rewrite <-Hperm. by right.
Qed.

Lemma confined_process_duplicates `{GoLibLaws} S o flags hashMap :
  (∀ hash files path, hashMap !! hash = Some files → path ∈ files → S path) →
  (∀ m, range_hashes o m ≡ₚ map_to_list m) →
  confined S (process_duplicates o flags hashMap).
Proof.
  intros Hgroups Hrange. unfold process_duplicates.
  apply confined_foldM. intros acc [hash files] Hentry.
  apply confined_process_group. intros path Hpath.
  apply (Hgroups hash files); [|done].
  apply elem_of_map_to_list. by rewrite <-Hrange.
Qed.

(** ** Groups and buckets without a repeated path *)

(** Where no path is listed twice in a group, the keeper is not removed:
    the calls to [os.Remove] that the treatment of the group adds name
    duplicates only, and the keeper is not one of them. *)
Lemma keeper_kept_when_paths_distinct `{GoLibLaws} flags acc hash files s
    keeper duplicates path :
  NoDup files →
  sort_Slice (less (nodes (fs s))) files = Some (keeper :: duplicates) →
  path ∈ remove_calls (process_group flags acc (hash, files) s).2 →
  path ∈ remove_calls s ∨ (path ∈ duplicates ∧ path ≠ keeper).
Proof.
  intros Hnodup Hsort. unfold process_group.
  case_match; [by left|].
  assert (sort_files files s = (Done (keeper :: duplicates), s)) as Hsorted.
  { unfold sort_files. by rewrite Hsort. }
  rewrite (bind_Done _ _ _ _ _ Hsorted).
  apply sort_Slice_permutes in Hsort. rewrite <-Hsort in Hnodup.
  apply NoDup_cons in Hnodup as [Hkeeper _].
  unfold slice_to. case_decide; [|by left].
  unfold mbind at 1, Go_bind at 1, mret at 1, Go_ret at 1.
  unfold mbind at 1, Go_bind at 1, fmt_Print at 1.
  unfold mbind at 1, Go_bind at 1, fmt_Print at 1.
  intros Hpath.
  destruct (confined_foldM (λ p, p ∈ duplicates) (process_duplicate flags)
              duplicates) with (acc := acc) (path := path)
              (s := mkState (fs s) (stdin s)
                      ((stdout s ++ [PGroup (substring 0 8 hash)])
                         ++ [PKeeper keeper])
                      (stderr s) (remove_calls s))
    as (_ & _ & Hremoved).
  { intros acc' dup Hdup. by apply confined_process_duplicate. }
  destruct (Hremoved Hpath) as [?|Hin]; [by left|].
  right. split; [done|]. by intros ->.
Qed.

(** Where a path is recorded once and no other record has its size, it is
    not handed to [fileHash]; an entry of size 0 is not recorded at all. *)
Lemma lone_record_not_hashed (o : MapOrder) (sizeMap : gmap Z (list string))
    (path : string) :
  MapOrderOk o →
  (∀ size files, sizeMap !! size = Some files → path ∈ files →
     (length files < 2)%nat) →
  path ∉ candidates (range_sizes o sizeMap).
Proof.
  intros Ho Hlone (files & Hpath & Hfiles)%list_elem_of_join.
  apply list_elem_of_fmap in Hfiles as ([size files'] & -> & Hentry).
  apply list_elem_of_filter in Hentry as [Hlen Hentry]. simpl in *.
  rewrite (range_sizes_perm o Ho) in Hentry.
  apply elem_of_map_to_list in Hentry.
  specialize (Hlone size files' Hentry Hpath). lia.
Qed.

Lemma zero_byte_not_recorded path info :
  Size info = 0 → recorded_size (VisitOk path info) = None.
Proof. intros Hzero. simpl. rewrite Hzero. by repeat case_match. Qed.

(** ** Files that cannot be hashed *)

(** C7. A file whose digest cannot be computed is logged when the hashing
    reaches it, is in no digest group, is not counted among the files
    processed, and the stage that treats the groups never names it: neither
    as keeper, nor as duplicate, nor in a call to [os.Remove]. *)
Theorem hash_failure_excluded (lib : GoLib) (laws : GoLibLaws lib) (w : World)
    (o : MapOrder) (flags : Flags) (sizeMap : gmap Z (list string))
    (path : string) (err : error) (s : State) :
  (∀ m, range_hashes o m ≡ₚ map_to_list m) →
  fileHash w path = Err err →
  let paths := candidates (range_sizes o sizeMap) in
  ∃ hashMap totalFiles logs,
    hash_candidates w o flags sizeMap s
      = (Done (hashMap, totalFiles), add_logs s logs) ∧
    (path ∈ paths → LErrorHashing path err ∈ logs) ∧
    (∀ hash files, hashMap !! hash = Some files → path ∉ files) ∧
    digest_of w path = None ∧
    totalFiles = len (filter (λ p, is_Some (digest_of w p)) paths) ∧
    ∀ s1,
      let s2 := (process_duplicates o flags hashMap s1).2 in
      (PKeeper path ∈ stdout s2 → PKeeper path ∈ stdout s1) ∧
      (PDuplicate path ∈ stdout s2 → PDuplicate path ∈ stdout s1) ∧
      (path ∈ remove_calls s2 → path ∈ remove_calls s1).
Proof.
  intros Hrange Herr paths.
  destruct (hash_candidates_hashed w o flags sizeMap s)
    as ([hashMap totalFiles] & logs & Hrun & Hrep & Hcount & Hlogged).
  simpl in *.
  assert (∀ hash files, hashMap !! hash = Some files → path ∉ files) as Hout.
  { intros hash files Hgroup Hin.
    destruct (represents_elem_of _ _ _ _ _ _ _ Hrep Hgroup Hin)
      as (x & _ & Hdigest & Hx).
    simpl in Hx. subst x. unfold digest_of in Hdigest.
    by rewrite Herr in Hdigest. }
  exists hashMap, totalFiles, logs. split_and!.
  - done.
  - intros Hin. by apply Hlogged.
  - done.
  - unfold digest_of. by rewrite Herr.
  - done.
  - intros s1.
    pose proof (confined_process_duplicates
                  (λ p, ∃ hash files, hashMap !! hash = Some files ∧ p ∈ files)
                  o flags hashMap) as Hconfined.
    destruct (Hconfined) with (s := s1) (path := path) as (Hk & Hd & Hr);
      [by eauto|done|].
    split_and!.
    + intros Hin. destruct (Hk Hin) as [?|(hash & files & ? & ?)]; [done|].
      by destruct (Hout hash files).
    + intros Hin. destruct (Hd Hin) as [?|(hash & files & ? & ?)]; [done|].
      by destruct (Hout hash files).
    + intros Hin. destruct (Hr Hin) as [?|(hash & files & ? & ?)]; [done|].
      by destruct (Hout hash files).
Qed.

(** Of the three files of size 5, [/a/h] cannot be opened: it is logged
    and two files are counted. *)
Lemma hash_failure_excluded_witness :
  let sizeMap : gmap Z (list string) := {[ 5 := ["/a/f"; "/a/g"; "/a/h"] ]} in
  let s := start one_unreadable_fs [] in
  ∃ hashMap totalFiles logs,
    @hash_candidates unix_go119 one_unreadable forwards
        (mkFlags "/a" false false false) sizeMap s
      = (Done (hashMap, totalFiles), add_logs s logs) ∧
    LErrorHashing "/a/h" "open: permission denied" ∈ logs ∧
    (∀ hash files, hashMap !! hash = Some files → "/a/h" ∉ files) ∧
    totalFiles = 2.
Proof.
  intros sizeMap s.
  destruct (hash_failure_excluded unix_go119 unix_go119_laws one_unreadable
              forwards (mkFlags "/a" false false false) sizeMap
              "/a/h" "open: permission denied" s)
    as (hashMap & totalFiles & logs & Hrun & Hlog & Hout & _ & Hcount & _).
  - intros m. reflexivity.
  - reflexivity.
  - exists hashMap, totalFiles, logs. split_and!.
    + exact Hrun.
    + apply Hlog. apply (bool_decide_unpack _). vm_compute. exact I.
    + exact Hout.
    + rewrite Hcount. vm_compute. reflexivity.
Defined.

(** ** A dry run, stage by stage *)

Lemma add_out_nil s : add_out s [] = s.
Proof. destruct s. unfold add_out. simpl. by rewrite app_nil_r. Qed.

Lemma add_out_app s l1 l2 : add_out (add_out s l1) l2 = add_out s (l1 ++ l2).
Proof. unfold add_out. simpl. by rewrite app_assoc. Qed.

Lemma process_duplicate_dry flags acc dup s info :
  dryRun flags = true →
  nodes (fs s) !! dup = Some info →
  process_duplicate flags acc dup s
    = (Done (acc.1 + 1, int64 (acc.2 + Size info)), add_out s [PDuplicate dup]).
Proof.
  intros Hdry Hinfo. destruct acc as [n t]. run_step.
  by rewrite Hinfo, Hdry.
Qed.

Lemma process_duplicates_dry flags dups : ∀ acc s,
  dryRun flags = true →
  (∀ dup, dup ∈ dups → is_Some (nodes (fs s) !! dup)) →
  foldM (process_duplicate flags) dups acc s
    = (Done (acc.1 + len dups, add_sizes (fs s) acc.2 dups),
       add_out s (PDuplicate <$> dups)).
Proof.
  induction dups as [|dup dups IH]; intros acc s Hdry Hstat; simpl.
  - destruct acc. unfold len. simpl. by rewrite Z.add_0_r, add_out_nil.
  - destruct (Hstat dup) as [info Hinfo]; [by left|].
    rewrite (bind_Done _ _ _ _ _ (process_duplicate_dry flags acc dup s info
                                    Hdry Hinfo)).
    rewrite IH; [|done|intros d Hd; apply Hstat; by right].
    simpl. rewrite add_out_app. simpl. f_equal.
    replace (size_in (fs s) dup) with (Size info)
      by (unfold size_in; by rewrite Hinfo).
    unfold len. simpl length. do 2 f_equal. lia.
Qed.

Lemma process_group_dry `{GoLibLaws} flags acc hash files s :
  dryRun flags = true →
  (∀ path, path ∈ files → is_Some (nodes (fs s) !! path)) →
  (8 ≤ String.length hash)%nat →
  process_group flags acc (hash, files) s
    = (Done (count_group (fs s) acc (hash, files)),
       add_out s (group_report (fs s) (hash, files))).
Proof.
  intros Hdry Hstat Hlen.
  unfold process_group, count_group, group_duplicates, group_report. simpl.
  destruct (len files <? 2) eqn:Hshort.
  { destruct acc. unfold mret, Go_ret, add_sizes, len. simpl.
    by rewrite Z.add_0_r, add_out_nil. }
  destruct (sort_Slice_sorts (less (nodes (fs s))) (before (nodes (fs s))) files
              (before_swo _)) as (sorted & Hsort & Hperm & _).
  { intros a b Ha Hb. apply less_before; auto. }
  assert (sort_files files s = (Done sorted, s)) as Hsorted.
  { unfold sort_files. by rewrite Hsort. }
  rewrite (bind_Done _ _ _ _ _ Hsorted), Hsort.
  destruct sorted as [|keeper duplicates].
  { apply Permutation_nil_l in Hperm. subst files. done. }
  unfold slice_to. rewrite decide_True by done.
  unfold mbind at 1, Go_bind at 1, mret at 1, Go_ret at 1.
  unfold mbind at 1, Go_bind at 1, fmt_Print at 1.
  unfold mbind at 1, Go_bind at 1, fmt_Print at 1.
  rewrite process_duplicates_dry; [|done|].
  - simpl. unfold add_out. simpl. by rewrite <-!app_assoc.
  - intros dup Hdup. simpl. apply Hstat. rewrite <-Hperm. by right.
Qed.

Lemma process_groups_dry `{GoLibLaws} flags entries : ∀ acc s,
  dryRun flags = true →
  (∀ hash files, (hash, files) ∈ entries →
     (∀ path, path ∈ files → is_Some (nodes (fs s) !! path)) ∧
     (8 ≤ String.length hash)%nat) →
  foldM (process_group flags) entries acc s
    = (Done (foldl (count_group (fs s)) acc entries),
       add_out s (mjoin (group_report (fs s) <$> entries))).
Proof.
  induction entries as [|[hash files] entries IH]; intros acc s Hdry Hok.
  - simpl. by rewrite add_out_nil.
  - destruct (Hok hash files) as [Hstat Hlen]; [by left|].
    rewrite foldM_cons.
    rewrite (bind_Done _ _ _ _ _ (process_group_dry flags acc hash files s
                                    Hdry Hstat Hlen)).
    rewrite IH; [|done|].
    + simpl. by rewrite add_out_app.
    + intros h fs' Hin. simpl. apply Hok. by right.
Qed.

(** ** What does not depend on the order of a loop over a map *)

Lemma int64_add_l a b : int64 (int64 a + b) = int64 (a + b).
Proof.
  unfold int64. f_equal.
  replace ((a + 2 ^ 63) mod 2 ^ 64 - 2 ^ 63 + b + 2 ^ 63)
    with ((a + 2 ^ 63) mod 2 ^ 64 + b) by lia.
  rewrite Zplus_mod_idemp_l. f_equal. lia.
Qed.

Lemma add_sizes_sum fsys total path paths :
  add_sizes fsys total (path :: paths)
    = int64 (total + foldr (λ p z, size_in fsys p + z) 0 (path :: paths)).
Proof.
  revert total path. induction paths as [|q paths IH]; intros total path.
  - simpl. by rewrite Z.add_0_r.
  - change (add_sizes fsys total (path :: q :: paths))
      with (add_sizes fsys (int64 (total + size_in fsys path)) (q :: paths)).
    rewrite IH, int64_add_l. f_equal. simpl. lia.
Qed.

Lemma add_sizes_comm fsys total l1 l2 :
  add_sizes fsys (add_sizes fsys total l1) l2
    = add_sizes fsys (add_sizes fsys total l2) l1.
Proof.
  destruct l1 as [|p1 l1]; [done|]. destruct l2 as [|p2 l2]; [done|].
  rewrite !add_sizes_sum, !int64_add_l. f_equal. lia.
Qed.

Lemma foldl_Permutation_comm {A B} (f : A → B → A) (l1 l2 : list B) :
  (∀ a x y, f (f a x) y = f (f a y) x) →
  l1 ≡ₚ l2 → ∀ a, foldl f a l1 = foldl f a l2.
Proof.
  intros Hcomm. induction 1 as [|x l1 l2 _ IH|x y l|l1 l2 l3 _ IH1 _ IH2];
    intros a; simpl.
  - done.
  - apply IH.
  - by rewrite Hcomm.
  - by rewrite IH1.
Qed.

Lemma count_groups_Permutation `{GoLib} fsys (entries1 entries2 : list (string * list string)) acc :
  entries1 ≡ₚ entries2 →
  foldl (count_group fsys) acc entries1 = foldl (count_group fsys) acc entries2.
Proof.
  intros Hperm. apply foldl_Permutation_comm; [|done].
  intros [n t] x y. unfold count_group. simpl. f_equal; [lia|].
  apply add_sizes_comm.
Qed.

(** Joining lists of which at most one per key is not empty. *)
Lemma join_sparse_Permutation {X A} `{EqDecision K} (g : X → list A)
    (key : X → K) (l1 l2 : list X) :
  l1 ≡ₚ l2 →
  NoDup (key <$> l1) →
  (∀ x y, x ∈ l1 → y ∈ l1 → g x ≠ [] → g y ≠ [] → key x = key y) →
  mjoin (g <$> l1) = mjoin (g <$> l2).
Proof.
  induction 1 as [|x l1 l2 Hperm IH|x y l|l1 l2 l3 Hperm1 IH1 Hperm2 IH2];
    intros Hnodup Hsparse.
  - done.
  - simpl. f_equal. apply IH.
    + by apply NoDup_cons in Hnodup as [_ ?].
    + intros a b Ha Hb. apply Hsparse; by right.
  - simpl. rewrite !app_assoc. f_equal.
    destruct (g x) as [|a gx] eqn:Hx; [by rewrite app_nil_r|].
    destruct (g y) as [|b gy] eqn:Hy; [by rewrite app_nil_r|].
    exfalso. rewrite !fmap_cons in Hnodup.
    apply NoDup_cons in Hnodup as [Hy' _].
    assert (key y = key x) as Heq.
    { apply Hsparse; [by left|right; by left|by rewrite Hy|by rewrite Hx]. }
    rewrite Heq in Hy'. apply Hy'. by left.
  - rewrite IH1 by done. apply IH2.
    + by rewrite <-Hperm1.
    + intros a b Ha Hb. apply Hsparse; by rewrite Hperm1.
Qed.

Lemma filter_candidates (P : string → Prop) `{∀ p, Decision (P p)}
    (entries : list (Z * list string)) :
  filter P (candidates entries)
    = mjoin ((λ e, filter P (if decide (2 ≤ length e.2)%nat then e.2 else []))
               <$> entries).
Proof.
  unfold candidates. induction entries as [|e entries IH]; [done|].
  rewrite filter_cons. simpl. case_decide; simpl.
  - rewrite filter_app. f_equal. apply IH.
  - apply IH.
Qed.

Lemma candidates_Permutation entries1 entries2 :
  entries1 ≡ₚ entries2 → candidates entries1 ≡ₚ candidates entries2.
Proof. intros Hperm. unfold candidates. by rewrite Hperm. Qed.

Lemma represents_inj {X} `{Countable K} (key : X → option K) val m1 m2 items1 items2 :
  represents key val m1 items1 → represents key val m2 items2 →
  (∀ k, filed key val items1 k = filed key val items2 k) →
  m1 = m2.
Proof. intros H1 H2 Heq. apply map_eq. intros k. by rewrite H1, H2, Heq. Qed.

Lemma recorded_size_Some e size :
  recorded_size e = Some size →
  ∃ info, e = VisitOk (visit_path e) info ∧ Size info = size.
Proof.
  destruct e as [path info|path err]; simpl; [|done].
  repeat case_match; intros; simplify_eq. eauto.
Qed.

Lemma entry_visited sizeMap items entries size files path :
  represents recorded_size visit_path sizeMap items →
  entries ≡ₚ map_to_list sizeMap →
  (size, files) ∈ entries → path ∈ files →
  ∃ info, VisitOk path info ∈ items ∧ Size info = size.
Proof.
  intros Hrep Hperm Hentry Hpath. rewrite Hperm in Hentry.
  apply elem_of_map_to_list in Hentry.
  destruct (represents_elem_of _ _ _ _ _ _ _ Hrep Hentry Hpath)
    as (e & He & Hsize & <-).
  destruct (recorded_size_Some e size Hsize) as (info & Heq & ?).
  exists info. by rewrite <-Heq.
Qed.

Lemma candidate_entry entries path :
  path ∈ candidates entries →
  ∃ size files, (size, files) ∈ entries ∧ path ∈ files.
Proof.
  unfold candidates. intros (files & Hpath & Hfiles)%list_elem_of_join.
  apply list_elem_of_fmap in Hfiles as ([size files'] & -> & Hentry).
  apply list_elem_of_filter in Hentry as [_ Hentry]. eauto.
Qed.

Lemma digest_of_Some `{GoLib} w path hash :
  digest_of w path = Some hash ↔ fileHash w path = Ok hash.
Proof.
  unfold digest_of. destruct (fileHash w path); split; intros; by simplify_eq.
Qed.

(** With files of one digest all of one size, the digest groups do not
    depend on the order in which the buckets are hashed. *)
Lemma groups_order_independent `{GoLib} w flags sizeMap entries1 entries2 hash :
  represents recorded_size visit_path sizeMap (visits w flags) →
  same_digest_same_size w flags →
  entries1 ≡ₚ map_to_list sizeMap →
  entries2 ≡ₚ map_to_list sizeMap →
  filed (digest_of w) id (candidates entries1) hash
    = filed (digest_of w) id (candidates entries2) hash.
Proof.
  intros Hrep Hsame Hperm1 Hperm2. unfold filed.
  rewrite !list_fmap_id, !filter_candidates.
  apply (join_sparse_Permutation _ fst).
  - by rewrite Hperm1, Hperm2.
  - rewrite Hperm1. apply NoDup_fst_map_to_list.
  - intros [size1 files1] [size2 files2] He1 He2 Hne1 Hne2. simpl in *.
    assert (∀ size files,
              (size, files) ∈ entries1 →
              filter (λ x, digest_of w x = Some hash)
                (if decide (2 ≤ length files)%nat then files else []) ≠ [] →
              ∃ path info, VisitOk path info ∈ visits w flags ∧
                           Size info = size ∧ fileHash w path = Ok hash)
      as Hfind.
    { intros size files He.
      destruct (filter (λ x, digest_of w x = Some hash)
                  (if decide (2 ≤ length files)%nat then files else []))
        as [|path rest] eqn:Hfilter; [done|]. intros _.
      assert (path ∈ filter (λ x, digest_of w x = Some hash)
                (if decide (2 ≤ length files)%nat then files else [])) as Hin.
      { rewrite Hfilter. by left. }
      apply list_elem_of_filter in Hin as [Hdigest Hin].
      case_decide; [|by apply elem_of_nil in Hin].
      destruct (entry_visited _ _ _ _ _ _ Hrep Hperm1 He Hin) as (info & ? & ?).
      exists path, info. split_and!; [done..|]. by apply digest_of_Some. }
    destruct (Hfind _ _ He1 Hne1) as (p & infoP & HvP & <- & HhP).
    destruct (Hfind _ _ He2 Hne2) as (q & infoQ & HvQ & <- & HhQ).
    by apply (Hsame p q infoP infoQ hash).
Qed.

Lemma join_without_empty {A} (ls : list (list A)) :
  mjoin (filter (λ l, 0 < length l)%nat ls) = mjoin ls.
Proof.
  induction ls as [|l ls IH]; [done|].
  rewrite filter_cons. case_decide as Hlen.
  - simpl. f_equal. apply IH.
  - destruct l as [|x l]; [apply IH|simpl in Hlen; lia].
Qed.

Lemma group_report_shape `{GoLib} fsys entry :
  (0 < length (group_report fsys entry))%nat →
  ∃ hash8 keeper duplicates,
    group_report fsys entry
      = PGroup hash8 :: PKeeper keeper :: (PDuplicate <$> duplicates).
Proof.
  unfold group_report. case_match; simpl; [lia|].
  destruct (sort_Slice _ _) as [[|keeper duplicates]|]; simpl; [lia| |lia].
  eauto.
Qed.

(** A dry run on files that are all still there ends normally, and its
    output is the reports of the entries of [hashMap], in the order of the
    loop over it, and the summary. *)
Lemma main_dry_run `{GoLibLaws} w o flags s :
  dryRun flags = true →
  partitions flags ≠ "" →
  MapOrderOk o →
  hashed_files_present w flags (fs s) →
  ∃ sizeMap hashMap totalFiles logs logs',
    represents recorded_size visit_path sizeMap (visits w flags) ∧
    hashed w (candidates (range_sizes o sizeMap)) (hashMap, totalFiles) logs' ∧
    main w o flags s
      = (Done tt,
         add_out (add_logs s logs)
           (mjoin (group_report (fs s) <$> range_hashes o hashMap)
            ++ summary_lines totalFiles
                 (foldl (count_group (fs s)) (0, 0) (range_hashes o hashMap)))).
Proof.
  intros Hdry Hparts Horder Hpresent. unfold main.
  destruct (String.eqb_spec (partitions flags) "") as [|_]; [done|].
  destruct (scan_represents w flags s) as (sizeMap & l1 & Hscan & Hrep).
  rewrite (bind_Done _ _ _ _ _ Hscan).
  destruct (logs_only_when (verbose flags)
              (LScanned (Z.of_nat (size sizeMap)) (elapsed w)) (add_logs s l1))
    as ([] & l2 & Hlog2 & _).
  rewrite (bind_Done _ _ _ _ _ Hlog2), add_logs_app.
  destruct (logs_only_when (verbose flags)
              (LPotential (foldl count_potential 0 (range_count o sizeMap)))
              (add_logs s (l1 ++ l2)))
    as ([] & l3 & Hlog3 & _).
  rewrite (bind_Done _ _ _ _ _ Hlog3), add_logs_app.
  destruct (hash_candidates_hashed w o flags sizeMap (add_logs s ((l1 ++ l2) ++ l3)))
    as ([hashMap totalFiles] & l4 & Hhash & Hhashed).
  rewrite (bind_Done _ _ _ _ _ Hhash), add_logs_app.
  exists sizeMap, hashMap, totalFiles, (((l1 ++ l2) ++ l3) ++ l4), l4.
  split_and!; [done..|].
  set (s4 := add_logs s (((l1 ++ l2) ++ l3) ++ l4)).
  assert (process_duplicates o flags hashMap s4
            = (Done (foldl (count_group (fs s)) (0, 0) (range_hashes o hashMap)),
               add_out s4 (mjoin (group_report (fs s) <$> range_hashes o hashMap))))
    as Hprocess.
  { unfold process_duplicates.
    rewrite process_groups_dry; [done|done|].
    intros hash files Hentry.
    rewrite (range_hashes_perm o Horder) in Hentry.
    apply elem_of_map_to_list in Hentry.
    destruct Hhashed as (Hgroups & _ & _). simpl in Hgroups.
    assert (∀ path, path ∈ files →
              path ∈ candidates (range_sizes o sizeMap) ∧
              fileHash w path = Ok hash) as Hfiles.
    { intros path Hpath.
      destruct (represents_elem_of _ _ _ _ _ _ _ Hgroups Hentry Hpath)
        as (x & Hx & Hdigest & <-). simpl. split; [done|].
      by apply digest_of_Some. }
    split.
    - intros path Hpath. destruct (Hfiles path Hpath) as [Hcand Hok].
      destruct (candidate_entry _ _ Hcand) as (size & files' & He & Hin).
      destruct (entry_visited _ _ _ _ _ _ Hrep (range_sizes_perm o Horder _)
                  He Hin) as (info & Hvisit & _).
      simpl. by apply (Hpresent path info hash).
    - rewrite Hgroups in Hentry.
      destruct (filed (digest_of w) id _ hash) as [|path rest] eqn:Hfiled;
        [done|]. simpl in Hentry. simplify_eq.
      destruct (Hfiles path) as [_ Hok]; [by left|].
      unfold fileHash in Hok. destruct (Open w path); simplify_eq.
      rewrite sha256_hex_length. lia. }
  rewrite (bind_Done _ _ _ _ _ Hprocess).
  destruct (foldl (count_group (fs s)) (0, 0) (range_hashes o hashMap))
    as [duplicateCount totalSaved].
  unfold summary, summary_lines, when, mbind, Go_bind, fmt_Print.
  rewrite Hdry. simpl. unfold add_out. simpl.
  by rewrite <-!app_assoc.
Qed.

(** ** Two dry runs on the same input *)

Lemma forwards_ok : MapOrderOk forwards.
Proof. by split. Qed.

Lemma backwards_ok : MapOrderOk backwards.
Proof. split; intros m; apply reverse_Permutation. Qed.

(** C5 (as amended). Two dry runs on the same input, each with its own
    order of going through the maps, both end normally when the hashed files
    are still there; when, moreover, files with the same digest have the
    same size, they print the same group reports (header, keeper,
    duplicates: the same keeper for the same group), possibly in a different
    order of the groups, followed by the same summary. *)
Theorem dry_runs_agree_up_to_group_order (lib : GoLib) (laws : GoLibLaws lib)
    (w : World) (o1 o2 : MapOrder) (partitions : string)
    (confirm verbose : bool) (s : State) :
  let flags := mkFlags partitions true confirm verbose in
  MapOrderOk o1 → MapOrderOk o2 →
  partitions ≠ "" →
  same_digest_same_size w flags →
  hashed_files_present w flags (fs s) →
  ∃ groups1 groups2 closing,
    (main w o1 flags s).1 = Done tt ∧
    (main w o2 flags s).1 = Done tt ∧
    stdout (main w o1 flags s).2 = stdout s ++ mjoin groups1 ++ closing ∧
    stdout (main w o2 flags s).2 = stdout s ++ mjoin groups2 ++ closing ∧
    groups1 ≡ₚ groups2 ∧
    (∀ group, group ∈ groups1 →
       ∃ hash8 keeper duplicates,
         group = PGroup hash8 :: PKeeper keeper :: (PDuplicate <$> duplicates)) ∧
    ∃ totalFiles duplicateCount megabytes,
      closing = [PSummary; PTotalFiles totalFiles;
                 PTotalDuplicates duplicateCount; PSpaceSaved megabytes;
                 PDryRunBanner].
Proof.
  intros flags Ho1 Ho2 Hparts Hsame Hpresent.
  destruct (main_dry_run w o1 flags s eq_refl Hparts Ho1 Hpresent)
    as (sizeMap & hashMap & totalFiles & logs1 & logs1' & Hrep1 & Hhashed1 & Hrun1).
  destruct (main_dry_run w o2 flags s eq_refl Hparts Ho2 Hpresent)
    as (sizeMap2 & hashMap2 & totalFiles2 & logs2 & logs2' & Hrep2 & Hhashed2 & Hrun2).
  assert (sizeMap2 = sizeMap) as ->.
  { by apply (represents_inj _ _ _ _ _ _ Hrep2 Hrep1). }
  destruct Hhashed1 as (Hgroups1 & Hcount1 & _).
  destruct Hhashed2 as (Hgroups2 & Hcount2 & _). simpl in *.
  assert (hashMap2 = hashMap) as ->.
  { apply (represents_inj _ _ _ _ _ _ Hgroups2 Hgroups1). intros hash.
    apply (groups_order_independent w flags sizeMap); [done..| |].
    - apply (range_sizes_perm o2 Ho2).
    - apply (range_sizes_perm o1 Ho1). }
  assert (totalFiles2 = totalFiles) as ->.
  { rewrite Hcount1, Hcount2. unfold len. f_equal.
    apply Permutation_length. apply filter_Permutation.
    apply candidates_Permutation.
    by rewrite (range_sizes_perm o1 Ho1), (range_sizes_perm o2 Ho2). }
  assert (range_hashes o1 hashMap ≡ₚ range_hashes o2 hashMap) as Hperm.
  { by rewrite (range_hashes_perm o1 Ho1), (range_hashes_perm o2 Ho2). }
  rewrite <-(count_groups_Permutation (fs s) _ _ (0, 0) Hperm) in Hrun2.
  exists (filter (λ l, 0 < length l)%nat
            (group_report (fs s) <$> range_hashes o1 hashMap)),
         (filter (λ l, 0 < length l)%nat
            (group_report (fs s) <$> range_hashes o2 hashMap)),
         (summary_lines totalFiles
            (foldl (count_group (fs s)) (0, 0) (range_hashes o1 hashMap))).
  rewrite Hrun1, Hrun2, !join_without_empty. simpl.
  split_and!; [done..| | |].
  - by rewrite Hperm.
  - intros group [Hlen Hgroup]%list_elem_of_filter.
    apply list_elem_of_fmap in Hgroup as (entry & -> & _).
    by apply group_report_shape.
  - unfold summary_lines. eauto.
Qed.

Lemma two_groups_visits root e :
  e ∈ Walk two_groups root →
  e ∈ [VisitOk "/b" dirInfo;
       VisitOk "/b/p1" (regular 3 10); VisitOk "/b/p2" (regular 3 20);
       VisitOk "/b/q1" (regular 5 30); VisitOk "/b/q2" (regular 5 40);
       VisitErr root "lstat: no such file or directory"].
Proof.
  simpl. destruct (String.eqb root "/b"); intros He.
  - rewrite !elem_of_cons in He. rewrite !elem_of_cons. tauto.
  - rewrite !elem_of_cons in He. rewrite !elem_of_cons. tauto.
Qed.

Lemma two_groups_visited flags path info :
  VisitOk path info ∈ @visits unix_go119 two_groups flags →
  (path, info) ∈ [("/b", dirInfo);
                  ("/b/p1", regular 3 10); ("/b/p2", regular 3 20);
                  ("/b/q1", regular 5 30); ("/b/q2", regular 5 40)].
Proof.
  unfold visits. intros (l & He & Hl)%list_elem_of_join.
  apply list_elem_of_fmap in Hl as (root & -> & _).
  apply two_groups_visits in He. rewrite !elem_of_cons in He.
  rewrite !elem_of_cons.
  destruct He as [He|[He|[He|[He|[He|[He|He]]]]]]; simplify_eq; auto 10.
  by apply elem_of_nil in He.
Qed.

(** The two groups of [/b], met in one order and in the other. *)
Lemma dry_runs_agree_up_to_group_order_witness :
  let flags := mkFlags "/b" true false false in
  let s := start two_groups_fs [] in
  ∃ groups1 groups2 closing,
    stdout (@main unix_go119 two_groups forwards flags s).2
      = mjoin groups1 ++ closing ∧
    stdout (@main unix_go119 two_groups backwards flags s).2
      = mjoin groups2 ++ closing ∧
    groups1 ≡ₚ groups2.
Proof.
  intros flags s.
  destruct (dry_runs_agree_up_to_group_order unix_go119 unix_go119_laws
              two_groups forwards backwards "/b" false false s)
    as (groups1 & groups2 & closing & _ & _ & Hout1 & Hout2 & Hperm & _).
  - apply forwards_ok.
  - apply backwards_ok.
  - done.
  - intros p q infoP infoQ hash Hp Hq HhashP HhashQ.
    apply two_groups_visited in Hp, Hq.
    rewrite !elem_of_cons in Hp. rewrite !elem_of_cons in Hq.
    destruct Hp as [Hp|[Hp|[Hp|[Hp|[Hp|Hp]]]]];
      try (by apply elem_of_nil in Hp);
    destruct Hq as [Hq|[Hq|[Hq|[Hq|[Hq|Hq]]]]];
      try (by apply elem_of_nil in Hq);
      injection Hp as -> ->; injection Hq as -> ->; try reflexivity;
      vm_compute in HhashP; vm_compute in HhashQ; congruence.
  - intros p infoP hash Hp Hhash.
    apply two_groups_visited in Hp. rewrite !elem_of_cons in Hp.
    destruct Hp as [Hp|[Hp|[Hp|[Hp|[Hp|Hp]]]]];
      [..|by apply elem_of_nil in Hp]; injection Hp as -> ->;
      vm_compute; eauto.
  - exists groups1, groups2, closing. split_and!; [exact Hout1|exact Hout2|exact Hperm].
Defined.

(** C5 (as stated) fails.  Go does not fix the order of a loop over a map:
    on the two groups of [/b], a run that meets the groups in one order and
    a run that meets them in the other print the group reports in different
    orders. *)
Lemma group_order_differs_between_runs :
  MapOrderOk forwards ∧ MapOrderOk backwards ∧
  let flags := mkFlags "/b" true false false in
  let run1 := @main unix_go119 two_groups forwards flags (start two_groups_fs []) in
  let run2 := @main unix_go119 two_groups backwards flags (start two_groups_fs []) in
  run1.1 = Done tt ∧ run2.1 = Done tt ∧
  take 6 (stdout run1.2) =
    [PGroup "74687265"; PKeeper "/b/q1"; PDuplicate "/b/q2";
     PGroup "6f6e6500"; PKeeper "/b/p1"; PDuplicate "/b/p2"] ∧
  take 6 (stdout run2.2) =
    [PGroup "6f6e6500"; PKeeper "/b/p1"; PDuplicate "/b/p2";
     PGroup "74687265"; PKeeper "/b/q1"; PDuplicate "/b/q2"] ∧
  output_text run1.2 ≠ output_text run2.2.
Proof.
  split; [apply forwards_ok|]. split; [apply backwards_ok|].
  vm_compute. split_and!; try reflexivity. intros Heq. discriminate Heq.
Qed.

(** ** The comparison is an order *)

(** X6. On files whose metadata can be read the comparison handed to
    [sort.Slice] never panics: it returns a result for every pair, and these
    results are those of a strict weak order, as [sort.Slice] requires:
    irreflexive, asymmetric, transitive, and with a transitive "neither is
    less". *)
Theorem less_strict_weak_order (lib : GoLib) (nodes : gmap string FileInfo)
    (a b c : string) :
  is_Some (nodes !! a) → is_Some (nodes !! b) → is_Some (nodes !! c) →
  ∃ ab ba bc ac : bool,
    less nodes a b = Some ab ∧ less nodes b a = Some ba ∧
    less nodes b c = Some bc ∧ less nodes a c = Some ac ∧
    less nodes a a = Some false ∧
    (ab = true → ba = false) ∧
    (ab = true → bc = true → ac = true) ∧
    (ab = false → bc = false → ac = false).
Proof.
  intros Ha Hb Hc. rewrite !less_before by done.
  destruct (before_swo nodes) as [Hasym Hneg].
  assert (before nodes a a = false) as Hirr.
  { destruct (before nodes a a) eqn:E; [|done]. by rewrite (Hasym a a E) in E. }
  exists (before nodes a b), (before nodes b a), (before nodes b c),
    (before nodes a c).
  split_and!; [done..| | | |].
  - by rewrite Hirr.
  - apply Hasym.
  - intros Hab Hbc.
    destruct (before nodes a c) eqn:Hac; [done|].
    pose proof (Hneg a c b Hac (Hasym b c Hbc)) as Hab'. congruence.
  - apply Hneg.
Qed.

(** Of the copies in [/d], [/d/b] (time 1) is less than [/d/a] (time 5) and
    [/d/a] is not less than [/d/b]. *)
Lemma less_strict_weak_order_witness :
  @less unix_go119 seven_copies_nodes "/d/b" "/d/a" = Some true ∧
  @less unix_go119 seven_copies_nodes "/d/a" "/d/b" = Some false ∧
  @less unix_go119 seven_copies_nodes "/d/b" "/d/b" = Some false.
Proof.
  destruct (less_strict_weak_order unix_go119 seven_copies_nodes
              "/d/b" "/d/a" "/d/c")
    as (ab & ba & bc & ac & Hab & Hba & _ & _ & Hirr & Hasym & _).
  - vm_compute. eauto.
  - vm_compute. eauto.
  - vm_compute. eauto.
  - assert (ab = true) as Htrue.
    { assert (Some ab = Some true) as [= ->]; [|done].
      rewrite <-Hab. reflexivity. }
    rewrite Hab, Hba, (Hasym Htrue), Htrue. by split_and!.
Defined.

(** ** How a run can end *)

Lemma ends_bind_val {A B} (m : Go A) (k : A → Go B) (P : A → Prop) :
  ends_or_nil m →
  (∀ s a s', m s = (Done a, s') → P a) →
  (∀ a, P a → ends_or_nil (k a)) →
  ends_or_nil (m ≫= k).
Proof.
  intros Hm HP Hk s. specialize (Hm s). unfold mbind, Go_bind.
  destruct (m s) as [[a|why|code] s'] eqn:E; rewrite ?E in Hm; simpl in *.
  - apply Hk. by apply (HP s a s').
  - destruct Hm as [[a Ha]|[= ->]]; [done|]. by right.
  - by destruct Hm as [[a Ha]|Hnil].
Qed.

Lemma ends_bind {A B} (m : Go A) (k : A → Go B) :
  ends_or_nil m → (∀ a, ends_or_nil (k a)) → ends_or_nil (m ≫= k).
Proof.
  intros Hm Hk. apply (ends_bind_val m k (λ _, True)); auto.
Qed.

Lemma ends_foldM {A B} (body : B → A → Go B) (l : list A) :
  (∀ acc x, x ∈ l → ends_or_nil (body acc x)) →
  ∀ acc, ends_or_nil (foldM body l acc).
Proof.
  induction l as [|x l IH]; intros Hbody acc; simpl.
  - intros s. left. by exists acc.
  - apply ends_bind; [apply Hbody; by left|].
    intros acc'. apply IH. intros acc'' y Hy. apply Hbody. by right.
Qed.

Lemma ends_logs_only {A} (m : Go A) P : logs_only m P → ends_or_nil m.
Proof.
  intros Hm s. destruct (Hm s) as (a & logs & -> & _). left. by exists a.
Qed.

Lemma ends_print {A} (p : Printed) (k : Go A) :
  ends_or_nil k → ends_or_nil (fmt_Print p;; k).
Proof.
  intros Hk. apply ends_bind; [|done]. intros s. left. by exists tt.
Qed.

Lemma ends_process_duplicate flags acc dup :
  ends_or_nil (process_duplicate flags acc dup).
Proof.
  intros s. destruct acc as [n t]. run_step.
  destruct (nodes (fs s) !! dup) as [info|] eqn:Hinfo; simpl; [|by right].
  left. destruct (dryRun flags); simpl; [by eexists|].
  destruct (confirm flags); simpl.
  - destruct (stdin s) as [|response rest]; simpl.
    + by eexists.
    + destruct (negb _ && negb _); simpl; [by eexists|].
      rewrite Hinfo. case_decide; by eexists.
  - rewrite Hinfo. case_decide; by eexists.
Qed.

(** A group whose digest has eight characters or more is treated to its
    end unless [os.Stat] fails: [files[0]] and [hash[:8]] do not panic. *)
Lemma ends_process_group `{GoLibLaws} flags acc hash files :
  (8 ≤ String.length hash)%nat →
  ends_or_nil (process_group flags acc (hash, files)).
Proof.
  intros Hhash. unfold process_group.
  destruct (Z.ltb_spec (len files) 2) as [|Hlen].
  { intros s. left. by exists acc. }
  apply (ends_bind_val _ _ (λ sorted, sorted ≡ₚ files)).
  - intros s. unfold sort_files.
    destruct (sort_Slice _ _); [left; by eexists|by right].
  - intros s sorted s'. unfold sort_files.
    destruct (sort_Slice _ _) as [sorted'|] eqn:Hsort; [|done].
    intros [= <- _]. by apply (sort_Slice_permutes _ _ _ Hsort).
  - intros [|keeper duplicates] Hperm.
    { apply Permutation_nil in Hperm. subst files.
      unfold len in Hlen. simpl in Hlen. lia. }
    apply ends_bind.
    { intros s. unfold slice_to. rewrite decide_True by done.
      left. by eexists. }
    intros hash8. do 2 apply ends_print.
    apply ends_foldM. intros acc' dup _. apply ends_process_duplicate.
Qed.

Lemma group_digest_length `{GoLibLaws} w paths
    (hashMap : gmap string (list string)) hash files :
  represents (digest_of w) id hashMap paths →
  hashMap !! hash = Some files →
  (8 ≤ String.length hash)%nat.
Proof.
  intros Hrep Hgroup. pose proof Hgroup as Hfiled. rewrite Hrep in Hfiled.
  destruct (filed (digest_of w) id paths hash) as [|path rest] eqn:E;
    [done|]. simpl in Hfiled. simplify_eq.
  destruct (represents_elem_of _ _ _ _ _ _ path Hrep Hgroup) as (x & _ & Hx & _);
    [by left|].
  apply digest_of_Some in Hx. unfold fileHash in Hx.
  destruct (Open w x); simplify_eq. rewrite sha256_hex_length. lia.
Qed.

(** X1. From line 23 on, that is once [flag.Parse] has returned the flags:
    with an empty [--partitions] the run ends by [os.Exit] with status 1,
    after the one log line, having printed, read and changed nothing.  With
    partitions given it never calls [os.Exit]: it ends normally, or by the
    panic of a method called on the nil result of a failed [os.Stat], and
    in no other way; an error of the walk, of the hashing or of a removal
    does not end it, and neither [files[0]] nor [hash[:8]] panics. *)
Theorem exits_only_without_partitions (lib : GoLib) (laws : GoLibLaws lib)
    (w : World) (o : MapOrder) (flags : Flags) (s : State) :
  MapOrderOk o →
  (partitions flags = "" →
   main w o flags s = (Exit 1, add_logs s [LNoPartitions])) ∧
  (partitions flags ≠ "" →
   (main w o flags s).1 = Done tt ∨
   (main w o flags s).1 = Panic NilDereference).
Proof.
  intros Ho. split.
  - intros Hempty. unfold main. by rewrite Hempty.
  - intros Hparts.
    assert (ends_or_nil (main w o flags)) as Hends.
    { unfold main.
      destruct (String.eqb_spec (partitions flags) "") as [|_]; [done|].
      apply ends_bind.
      { eapply ends_logs_only. apply scan_represents. }
      intros sizeMap. apply ends_bind.
      { eapply ends_logs_only. apply logs_only_when. }
      intros _. apply ends_bind.
      { eapply ends_logs_only. apply logs_only_when. }
      intros _.
      apply (ends_bind_val _ _
               (λ acc, ∃ logs, hashed w (candidates (range_sizes o sizeMap))
                                 acc logs)).
      { eapply ends_logs_only. apply hash_candidates_hashed. }
      { intros s0 acc s' Hhash.
        destruct (hash_candidates_hashed w o flags sizeMap s0)
          as (acc' & l & Hrun & Hhashed).
        exists l. congruence. }
      intros [hashMap totalFiles] (logs & Hgroups & _ & _). simpl in Hgroups.
      apply ends_bind.
      { unfold process_duplicates. apply ends_foldM.
        intros acc [hash files] Hentry. apply ends_process_group.
        rewrite (range_hashes_perm o Ho) in Hentry.
        apply elem_of_map_to_list in Hentry.
        by apply (group_digest_length w (candidates (range_sizes o sizeMap))
                    hashMap hash files). }
      intros [duplicateCount totalSaved]. unfold summary.
      do 4 apply ends_print.
      intros s0. left. exists tt. by destruct (dryRun flags). }
    destruct (Hends s) as [[[] Hdone]|Hnil]; auto.
Qed.

(** Without partitions the run on [/a] exits at once; the run on the two
    groups ends normally. *)
Lemma exits_only_without_partitions_witness :
  @main unix_go119 one_file forwards (mkFlags "" false false false)
      (start one_file_fs [])
    = (Exit 1, add_logs (start one_file_fs []) [LNoPartitions]) ∧
  ((@main unix_go119 two_groups forwards (mkFlags "/b" false false false)
      (start two_groups_fs [])).1 = Done tt ∨
   (@main unix_go119 two_groups forwards (mkFlags "/b" false false false)
      (start two_groups_fs [])).1 = Panic NilDereference).
Proof.
  split.
  - apply (exits_only_without_partitions unix_go119 unix_go119_laws one_file
             forwards (mkFlags "" false false false));
      [apply forwards_ok|reflexivity].
  - apply (exits_only_without_partitions unix_go119 unix_go119_laws two_groups
             forwards (mkFlags "/b" false false false));
      [apply forwards_ok|discriminate].
Defined.

(** ** Standard input *)

Lemma keeps_stdin_bind {A B} (m : Go A) (k : A → Go B) :
  keeps_stdin m → (∀ a, keeps_stdin (k a)) → keeps_stdin (m ≫= k).
Proof.
  intros Hm Hk s. specialize (Hm s). unfold mbind, Go_bind.
  destruct (m s) as [[a|why|code] s'] eqn:E; simpl in *; [|done..].
  by rewrite Hk.
Qed.

Lemma keeps_stdin_foldM {A B} (body : B → A → Go B) (l : list A) :
  (∀ acc x, keeps_stdin (body acc x)) → ∀ acc, keeps_stdin (foldM body l acc).
Proof.
  intros Hbody. induction l as [|x l IH]; intros acc; simpl.
  - by intros s.
  - apply keeps_stdin_bind; auto.
Qed.

Lemma keeps_stdin_logs_only {A} (m : Go A) P : logs_only m P → keeps_stdin m.
Proof. intros Hm s. destruct (Hm s) as (a & logs & -> & _). done. Qed.

Lemma keeps_stdin_process_duplicate flags acc dup :
  dryRun flags = true ∨ confirm flags = false →
  keeps_stdin (process_duplicate flags acc dup).
Proof.
  intros Hmode s. destruct acc as [n t]. run_step.
  destruct (nodes (fs s) !! dup) as [info|] eqn:Hinfo; simpl; [|done].
  destruct (dryRun flags); simpl; [done|].
  destruct Hmode as [|Hconfirm]; [done|]. rewrite Hconfirm. simpl.
  rewrite Hinfo. by case_decide.
Qed.

(** X15. Standard input is read only to confirm a removal: with [--dry-run],
    or without [--confirm], the run leaves it untouched, however it ends. *)
Theorem stdin_read_only_to_confirm (lib : GoLib) (w : World) (o : MapOrder)
    (flags : Flags) (s : State) :
  dryRun flags = true ∨ confirm flags = false →
  stdin (main w o flags s).2 = stdin s.
Proof.
  intros Hmode. revert s. change (keeps_stdin (main w o flags)). unfold main.
  case_match; [by intros s|].
  apply keeps_stdin_bind.
  { eapply keeps_stdin_logs_only. apply scan_represents. }
  intros sizeMap. apply keeps_stdin_bind.
  { eapply keeps_stdin_logs_only. apply logs_only_when. }
  intros _. apply keeps_stdin_bind.
  { eapply keeps_stdin_logs_only. apply logs_only_when. }
  intros _. apply keeps_stdin_bind.
  { eapply keeps_stdin_logs_only. apply hash_candidates_hashed. }
  intros [hashMap totalFiles]. apply keeps_stdin_bind.
  { unfold process_duplicates. apply keeps_stdin_foldM.
    intros acc [hash files]. unfold process_group.
    case_match; [by intros s|].
    apply keeps_stdin_bind.
    { intros s. unfold sort_files. by destruct (sort_Slice _ _). }
    intros [|keeper duplicates]; [by intros s|].
    apply keeps_stdin_bind.
    { intros s. unfold slice_to. by case_decide. }
    intros hash8. apply keeps_stdin_bind; [by intros s|]. intros _.
    apply keeps_stdin_bind; [by intros s|]. intros _.
    apply keeps_stdin_foldM. intros acc' dup.
    by apply keeps_stdin_process_duplicate. }
  intros [duplicateCount totalSaved]. unfold summary.
  repeat (apply keeps_stdin_bind; [by intros ?|intros _]).
  destruct (dryRun flags); by intros ?.
Qed.

(** A run that removes without asking leaves the answers typed ahead. *)
Lemma stdin_read_only_to_confirm_witness :
  stdin (@main unix_go119 two_groups forwards (mkFlags "/b" false false false)
           (start two_groups_fs ["y"; "n"])).2 = ["y"; "n"].
Proof.
  apply (stdin_read_only_to_confirm unix_go119 two_groups forwards
           (mkFlags "/b" false false false) (start two_groups_fs ["y"; "n"])).
  right. reflexivity.
Defined.

(** ** What [--verbose] changes *)

Lemma agree_refl s : agree s s.
Proof. by repeat split. Qed.

Lemma alike_bind {A B} (m1 m2 : Go A) (k1 k2 : A → Go B) :
  alike m1 m2 → (∀ a, alike (k1 a) (k2 a)) → alike (m1 ≫= k1) (m2 ≫= k2).
Proof.
  intros Hm Hk s1 s2 Hs. destruct (Hm s1 s2 Hs) as [Hout Hs'].
  unfold mbind, Go_bind.
  destruct (m1 s1) as [[a1|why1|code1] s1'], (m2 s2) as [[a2|why2|code2] s2'];
    simpl in *; simplify_eq; try done.
  by apply Hk.
Qed.

Lemma alike_foldM {A B} (body1 body2 : B → A → Go B) (l : list A) :
  (∀ acc x, alike (body1 acc x) (body2 acc x)) →
  ∀ acc, alike (foldM body1 l acc) (foldM body2 l acc).
Proof.
  intros Hbody. induction l as [|x l IH]; intros acc; simpl.
  - by intros s1 s2 Hs.
  - apply alike_bind; auto.
Qed.

Lemma alike_ret {A} (a : A) : alike (mret a) (mret a).
Proof. by intros s1 s2 Hs. Qed.

Lemma alike_panic {A} why : alike (panic why : Go A) (panic why).
Proof. by intros s1 s2 Hs. Qed.

Lemma alike_print p : alike (fmt_Print p) (fmt_Print p).
Proof.
  intros s1 s2 (Hfs & Hin & Hout & Hcalls). unfold fmt_Print, agree. simpl.
  by rewrite Hfs, Hin, Hout, Hcalls.
Qed.

Lemma alike_log l1 l2 : alike (log_Printf l1) (log_Printf l2).
Proof. by intros s1 s2 Hs. Qed.

Lemma alike_log_ret l : alike (log_Printf l) (mret tt).
Proof. by intros s1 s2 Hs. Qed.

Lemma alike_when_log b1 b2 l1 l2 :
  alike (when b1 (log_Printf l1)) (when b2 (log_Printf l2)).
Proof. destruct b1, b2; by intros s1 s2 Hs. Qed.

Lemma alike_stat path : alike (os_Stat path) (os_Stat path).
Proof.
  intros s1 s2 Hs. unfold os_Stat. simpl. split; [|done].
  by destruct Hs as (-> & _).
Qed.

Lemma alike_deref info : alike (deref info) (deref info).
Proof. destruct info; [apply alike_ret|apply alike_panic]. Qed.

Lemma alike_scanln : alike fmt_Scanln fmt_Scanln.
Proof.
  intros s1 s2 (Hfs & Hin & Hout & Hcalls). unfold fmt_Scanln. rewrite Hin.
  destruct (stdin s2) eqn:E; unfold agree; simpl;
    by rewrite ?Hfs, ?Hout, ?Hcalls, ?Hin, ?E.
Qed.

Lemma alike_remove path : alike (os_Remove path) (os_Remove path).
Proof.
  intros s1 s2 (Hfs & Hin & Hout & Hcalls). unfold os_Remove, agree.
  rewrite Hfs, Hcalls. destruct (nodes (fs s2) !! path); [case_decide|];
    simpl; by rewrite ?Hfs.
Qed.

Lemma alike_slice_to hash n : alike (slice_to hash n) (slice_to hash n).
Proof. unfold slice_to. case_decide; [apply alike_ret|apply alike_panic]. Qed.

Lemma alike_sort_files `{GoLib} files : alike (sort_files files) (sort_files files).
Proof.
  intros s1 s2 Hs. unfold sort_files. destruct Hs as (Hfs & Hrest).
  rewrite Hfs. destruct (sort_Slice _ _); simpl; (split; [done|]); by split.
Qed.

Lemma alike_walkFn sizeMap e : alike (walkFn sizeMap e) (walkFn sizeMap e).
Proof.
  destruct e as [path info|path err]; simpl.
  - repeat case_match; apply alike_ret.
  - apply alike_bind; [apply alike_log|]. intros _. apply alike_ret.
Qed.

Lemma alike_process_duplicate flags acc dup :
  alike (process_duplicate flags acc dup) (process_duplicate flags acc dup).
Proof.
  destruct acc as [n t]. unfold process_duplicate.
  assert (alike (remove_duplicate dup) (remove_duplicate dup)) as Hremove.
  { unfold remove_duplicate. apply alike_bind; [apply alike_remove|].
    intros [err|]; [apply alike_log|apply alike_print]. }
  apply alike_bind; [apply alike_stat|]. intros info.
  apply alike_bind; [apply alike_deref|]. intros info'.
  apply alike_bind; [apply alike_print|]. intros _.
  destruct (dryRun flags); simpl; [apply alike_ret|].
  destruct (confirm flags).
  - apply alike_bind; [apply alike_print|]. intros _.
    apply alike_bind; [apply alike_scanln|]. intros response.
    case_match; [apply alike_ret|].
    apply alike_bind; [done|]. intros _. apply alike_ret.
  - apply alike_bind; [done|]. intros _. apply alike_ret.
Qed.

Lemma alike_process_group `{GoLib} flags acc entry :
  alike (process_group flags acc entry) (process_group flags acc entry).
Proof.
  destruct entry as [hash files]. unfold process_group.
  case_match; [apply alike_ret|].
  apply alike_bind; [apply alike_sort_files|].
  intros [|keeper duplicates]; [apply alike_panic|].
  apply alike_bind; [apply alike_slice_to|]. intros hash8.
  apply alike_bind; [apply alike_print|]. intros _.
  apply alike_bind; [apply alike_print|]. intros _.
  apply alike_foldM. intros acc' dup. apply alike_process_duplicate.
Qed.

(** X16. [--verbose] changes the log and nothing else: with and without it
    the run ends the same way, prints the same lines, reads the same
    answers, makes the same calls to [os.Remove] and leaves the same file
    system. *)
Theorem verbose_changes_the_log_only (lib : GoLib) (w : World) (o : MapOrder)
    (partitions : string) (dryRun confirm : bool) (s : State) :
  let quiet := main w o (mkFlags partitions dryRun confirm false) s in
  let loud := main w o (mkFlags partitions dryRun confirm true) s in
  loud.1 = quiet.1 ∧
  stdout loud.2 = stdout quiet.2 ∧
  fs loud.2 = fs quiet.2 ∧
  remove_calls loud.2 = remove_calls quiet.2 ∧
  stdin loud.2 = stdin quiet.2.
Proof.
  intros quiet loud.
  assert (alike (main w o (mkFlags partitions dryRun confirm true))
                (main w o (mkFlags partitions dryRun confirm false))) as Halike.
  { unfold main. simpl. case_match; [by intros s1 s2 Hs|].
    apply alike_bind.
    { unfold scan. apply alike_foldM. intros sizeMap partition.
      unfold scan_partition. apply alike_bind; [apply alike_log_ret|].
      intros _. apply alike_foldM. intros sizeMap' e. apply alike_walkFn. }
    intros sizeMap. apply alike_bind; [apply alike_log_ret|]. intros _.
    apply alike_bind; [apply alike_log_ret|]. intros _.
    apply alike_bind.
    { unfold hash_candidates. apply alike_foldM. intros acc [size files].
      unfold hash_bucket. case_match; [apply alike_ret|].
      apply alike_bind; [apply alike_log_ret|]. intros _.
      apply alike_foldM. intros [hashMap totalFiles] path. unfold hash_file.
      case_match; [apply alike_ret|].
      apply alike_bind; [apply alike_log|]. intros _. apply alike_ret. }
    intros [hashMap totalFiles]. apply alike_bind.
    { unfold process_duplicates. apply alike_foldM. intros acc entry.
      apply (alike_process_group (mkFlags partitions dryRun confirm true)). }
    intros [duplicateCount totalSaved]. unfold summary. simpl.
    repeat (apply alike_bind; [apply alike_print|intros _]).
    destruct dryRun; [apply alike_print|apply alike_ret]. }
  destruct (Halike s s (agree_refl s)) as (Hout & Hfs & Hin & Hprinted & Hcalls).
  by subst quiet loud.
Qed.

(** ** What the scan records *)

Lemma logs_only_and {A} (m : Go A) (P Q : A → list Logged → Prop) :
  logs_only m P → logs_only m Q → logs_only m (λ a logs, P a logs ∧ Q a logs).
Proof.
  intros HP HQ s. destruct (HP s) as (a & logs & Hrun & ?).
  destruct (HQ s) as (a' & logs' & Hrun' & ?).
  rewrite Hrun in Hrun'. injection Hrun' as <- Hlogs.
  apply app_inv_head in Hlogs as <-. eauto.
Qed.

Lemma recorded_size_regular e size :
  recorded_size e = Some size ↔
  ∃ info, e = VisitOk (visit_path e) info ∧ IsDir info = false ∧
          ModeSymlink info = false ∧ Size info = size ∧ size ≠ 0.
Proof.
  destruct e as [path info|path err]; simpl.
  - split.
    + repeat case_match; intros; simplify_eq.
      exists info. split_and!; [done..|]. by apply Z.eqb_neq.
    + intros (info' & [= <-] & -> & -> & <- & Hsize).
      apply Z.eqb_neq in Hsize. by rewrite Hsize.
  - split; [done|]. by intros (? & ? & _).
Qed.

Lemma walkFn_logs_error sizeMap e :
  logs_only (walkFn sizeMap e)
    (λ _ logs, ∀ path err, e = VisitErr path err →
                 LErrorAccessing path err ∈ logs).
Proof.
  destruct e as [path info|path err]; simpl.
  - repeat case_match; by apply logs_only_ret.
  - eapply logs_only_bind; [apply logs_only_log|].
    intros _ l1 ->. apply logs_only_ret. intros p e [= <- <-]. by left.
Qed.

Lemma scan_logs_errors `{GoLib} w flags :
  logs_only (scan w flags)
    (λ _ logs, ∀ path err, VisitErr path err ∈ visits w flags →
                 LErrorAccessing path err ∈ logs).
Proof.
  unfold scan, visits.
  pose (I := λ (roots : list string) (_ : gmap Z (list string))
               (logs : list Logged),
             ∀ path err, VisitErr path err ∈ mjoin (Walk w <$> roots) →
               LErrorAccessing path err ∈ logs).
  eapply logs_only_weaken.
  - apply (logs_only_foldM _ I _) with (done := []) (logs := []).
    + intros roots root sizeMap logs HI. unfold scan_partition.
      eapply logs_only_bind; [apply logs_only_when|].
      intros _ l1 _.
      pose (J := λ (entries : list WalkEntry) (_ : gmap Z (list string))
                   (logs' : list Logged),
                 ∀ path err, VisitErr path err ∈ entries →
                   LErrorAccessing path err ∈ logs').
      eapply logs_only_weaken.
      * apply (logs_only_foldM _ J _) with (done := []) (logs := []).
        -- intros entries e sizeMap' logs' HJ.
           eapply logs_only_weaken; [apply walkFn_logs_error|].
           intros sizeMap'' l3 He path err Hin. simpl.
           apply elem_of_app in Hin as [Hin|Hin]; apply elem_of_app.
           ++ left. by apply HJ.
           ++ right. apply list_elem_of_singleton in Hin. by apply He.
        -- intros path err Hin. by apply elem_of_nil in Hin.
      * intros sizeMap' l2 HJ path err Hin. simpl in *.
        rewrite fmap_app, join_app in Hin. simpl in Hin.
        rewrite app_nil_r in Hin.
        apply elem_of_app in Hin as [Hin|Hin]; apply elem_of_app.
        -- left. by apply HI.
        -- right. apply elem_of_app. right. by apply HJ.
    + intros path err Hin. by apply elem_of_nil in Hin.
  - intros sizeMap logs HI. exact HI.
Qed.

(** X2. The scan always runs to its end and only logs.  The bucket of a
    size is the list of the paths of the entries it visited without error
    that are neither a directory nor a symlink nor empty and have that
    size: in the order of the visits, a path as many times as it was
    visited.  No bucket is empty, none is filed under size 0, and every
    entry that could not be read has its "Error accessing" line. *)
Theorem scan_buckets_regular_files_by_size (lib : GoLib) (w : World)
    (flags : Flags) (s : State) :
  ∃ sizeMap logs,
    scan w flags s = (Done sizeMap, add_logs s logs) ∧
    (∀ size,
       default [] (sizeMap !! size)
       = visit_path <$> filter (λ e, recorded_size e = Some size)
                          (visits w flags)) ∧
    (∀ e size,
       recorded_size e = Some size ↔
       ∃ info, e = VisitOk (visit_path e) info ∧ IsDir info = false ∧
               ModeSymlink info = false ∧ Size info = size ∧ size ≠ 0) ∧
    (∀ size files path,
       sizeMap !! size = Some files → path ∈ files →
       size ≠ 0 ∧
       ∃ info, VisitOk path info ∈ visits w flags ∧ IsDir info = false ∧
               ModeSymlink info = false ∧ Size info = size) ∧
    (∀ path info,
       VisitOk path info ∈ visits w flags → IsDir info = false →
       ModeSymlink info = false → Size info ≠ 0 →
       ∃ files, sizeMap !! Size info = Some files ∧ path ∈ files) ∧
    (∀ size, sizeMap !! size ≠ Some []) ∧
    (∀ path err,
       VisitErr path err ∈ visits w flags → LErrorAccessing path err ∈ logs).
Proof.
  destruct (logs_only_and _ _ _ (scan_represents w flags)
              (scan_logs_errors w flags) s)
    as (sizeMap & logs & Hrun & Hrep & Hlogs).
  exists sizeMap, logs. split_and!; [done| | | | | |done].
  - intros size. rewrite Hrep. apply default_nonempty.
  - apply recorded_size_regular.
  - intros size files path Hbucket Hpath.
    destruct (represents_elem_of _ _ _ _ _ _ _ Hrep Hbucket Hpath)
      as (e & He & Hsize & <-).
    apply recorded_size_regular in Hsize
      as (info & Heq & Hdir & Hlink & Hsize & Hne).
    split; [done|]. exists info. rewrite <-Heq. by split_and!.
  - intros path info Hvisit Hdir Hlink Hsize.
    assert (recorded_size (VisitOk path info) = Some (Size info)) as Hrec.
    { apply recorded_size_regular. exists info. by split_and!. }
    rewrite Hrep.
    assert (path ∈ filed recorded_size visit_path (visits w flags) (Size info))
      as Hin.
    { unfold filed.
      apply (list_elem_of_fmap_2' visit_path _ (VisitOk path info)); [|done].
      by apply list_elem_of_filter. }
    destruct (filed _ _ _ _) as [|p l] eqn:E; [by apply elem_of_nil in Hin|].
    by exists (p :: l).
  - intros size. rewrite Hrep. by destruct (filed _ _ _ _).
Qed.

(** ** What the hashing builds *)

Lemma group_sizes_append_at `{Countable K} (m : gmap K (list string)) k path :
  group_sizes (append_at m k path) = S (group_sizes m).
Proof.
  unfold group_sizes, append_at.
  destruct (m !! k) as [old|] eqn:Hk; simpl.
  - rewrite <-insert_delete_eq.
    rewrite map_to_list_insert by apply lookup_delete_eq.
    rewrite <-(map_to_list_delete m k old Hk). simpl.
    rewrite length_app. simpl. lia.
  - by rewrite map_to_list_insert.
Qed.

Lemma hash_candidates_counts `{GoLib} w o flags sizeMap :
  logs_only (hash_candidates w o flags sizeMap)
    (λ acc _, acc.2 = Z.of_nat (group_sizes acc.1)).
Proof.
  unfold hash_candidates.
  pose (I := λ (_ : list (Z * list string))
               (acc : gmap string (list string) * Z) (_ : list Logged),
             acc.2 = Z.of_nat (group_sizes acc.1)).
  eapply logs_only_weaken.
  - apply (logs_only_foldM _ I _) with (done := []) (logs := []).
    + intros entries [size files] acc logs HI. unfold hash_bucket.
      case_match; [by apply logs_only_ret|].
      eapply logs_only_bind; [apply logs_only_when|]. intros _ l1 _.
      pose (J := λ (_ : list string)
                   (acc : gmap string (list string) * Z) (_ : list Logged),
                 acc.2 = Z.of_nat (group_sizes acc.1)).
      eapply logs_only_weaken.
      * apply (logs_only_foldM _ J _) with (done := []) (logs := logs ++ l1).
        -- intros paths path [hashMap totalFiles] logs' HJ. unfold hash_file.
           unfold J in *. simpl in *.
           destruct (fileHash w path) as [hash|err].
           ++ apply logs_only_ret. simpl.
              rewrite group_sizes_append_at. lia.
           ++ eapply logs_only_bind; [apply logs_only_log|].
              intros _ l2 _. by apply logs_only_ret.
        -- exact HI.
      * intros acc' l2 HJ. exact HJ.
    + unfold I, group_sizes. simpl. by rewrite map_to_list_empty.
  - intros acc logs HI. exact HI.
Qed.

(** X4. The hashing always runs to its end, and puts two hashed files in
    the same group exactly when their digests are equal: every group holds
    files that were handed to [fileHash] and got the digest of the group,
    and any two such files with one digest are in the group of that digest,
    whatever the order of the buckets. *)
Theorem same_digest_same_group (lib : GoLib) (w : World) (o : MapOrder)
    (flags : Flags) (sizeMap : gmap Z (list string)) (s : State) :
  let paths := candidates (range_sizes o sizeMap) in
  ∃ hashMap totalFiles logs,
    hash_candidates w o flags sizeMap s
      = (Done (hashMap, totalFiles), add_logs s logs) ∧
    (∀ p q hash,
       p ∈ paths → q ∈ paths →
       fileHash w p = Ok hash → fileHash w q = Ok hash →
       ∃ files, hashMap !! hash = Some files ∧ p ∈ files ∧ q ∈ files) ∧
    (∀ hash files p,
       hashMap !! hash = Some files → p ∈ files →
       p ∈ paths ∧ fileHash w p = Ok hash).
Proof.
  intros paths.
  destruct (hash_candidates_hashed w o flags sizeMap s)
    as ([hashMap totalFiles] & logs & Hrun & Hrep & _ & _). simpl in Hrep.
  exists hashMap, totalFiles, logs. split_and!; [done| |].
  - intros p q hash Hp Hq Hhp Hhq. rewrite Hrep.
    assert (∀ r, r ∈ paths → fileHash w r = Ok hash →
                 r ∈ filed (digest_of w) id paths hash) as Hin.
    { intros r Hr Hhr. unfold filed. rewrite list_fmap_id.
      apply list_elem_of_filter. split; [|done]. by apply digest_of_Some. }
    pose proof (Hin p Hp Hhp) as Hp'. pose proof (Hin q Hq Hhq) as Hq'.
    fold paths. destruct (filed _ _ _ _) as [|x l] eqn:E;
      [by apply elem_of_nil in Hp'|].
    by exists (x :: l).
  - intros hash files p Hgroup Hp.
    destruct (represents_elem_of _ _ _ _ _ _ _ Hrep Hgroup Hp)
      as (x & Hx & Hdigest & <-).
    split; [done|]. by apply digest_of_Some.
Qed.

(** X5. The count of files processed that the summary prints is the number
    of paths held by the digest groups, and no group is empty. *)
Theorem total_files_is_size_of_groups (lib : GoLib) (w : World) (o : MapOrder)
    (flags : Flags) (sizeMap : gmap Z (list string)) (s : State) :
  ∃ hashMap totalFiles logs,
    hash_candidates w o flags sizeMap s
      = (Done (hashMap, totalFiles), add_logs s logs) ∧
    totalFiles = Z.of_nat (group_sizes hashMap) ∧
    ∀ hash, hashMap !! hash ≠ Some [].
Proof.
  destruct (logs_only_and _ _ _ (hash_candidates_hashed w o flags sizeMap)
              (hash_candidates_counts w o flags sizeMap) s)
    as ([hashMap totalFiles] & logs & Hrun & (Hrep & _ & _) & Hcount).
  simpl in *. exists hashMap, totalFiles, logs. split_and!; [done..|].
  intros hash. rewrite Hrep. by destruct (filed _ _ _ _).
Qed.

(** ** Which files a run can touch *)

Lemma confined_process_group_big `{GoLibLaws} S flags acc hash files :
  ((2 ≤ length files)%nat → ∀ path, path ∈ files → S path) →
  confined S (process_group flags acc (hash, files)).
Proof.
  intros Hfiles. destruct (Z.ltb_spec (len files) 2) as [Hshort|Hbig].
  - unfold process_group. apply Z.ltb_lt in Hshort. rewrite Hshort.
    by apply confined_same.
  - apply confined_process_group. apply Hfiles. unfold len in Hbig. lia.
Qed.

Lemma confined_logs_only {A} S (m : Go A) P : logs_only m P → confined S m.
Proof.
  intros Hm. apply confined_same. intros s.
  destruct (Hm s) as (a & logs & -> & _). done.
Qed.

(** X10. A file whose digest no other hashed file shares is alone in its
    group, and the treatment of the groups never names it: it is printed
    neither as keeper nor as duplicate and is never handed to [os.Remove]. *)
Theorem lone_digest_untouched (lib : GoLib) (laws : GoLibLaws lib) (w : World)
    (o : MapOrder) (flags : Flags) (sizeMap : gmap Z (list string))
    (path hash : string) (s : State) :
  (∀ m, range_hashes o m ≡ₚ map_to_list m) →
  filter (λ p, digest_of w p = Some hash) (candidates (range_sizes o sizeMap))
    = [path] →
  ∃ hashMap totalFiles logs,
    hash_candidates w o flags sizeMap s
      = (Done (hashMap, totalFiles), add_logs s logs) ∧
    hashMap !! hash = Some [path] ∧
    ∀ s1,
      let s2 := (process_duplicates o flags hashMap s1).2 in
      (PKeeper path ∈ stdout s2 → PKeeper path ∈ stdout s1) ∧
      (PDuplicate path ∈ stdout s2 → PDuplicate path ∈ stdout s1) ∧
      (path ∈ remove_calls s2 → path ∈ remove_calls s1).
Proof.
  intros Hrange Hlone.
  destruct (hash_candidates_hashed w o flags sizeMap s)
    as ([hashMap totalFiles] & logs & Hrun & Hrep & _ & _). simpl in Hrep.
  assert (hashMap !! hash = Some [path]) as Hgroup.
  { rewrite Hrep. unfold filed. by rewrite list_fmap_id, Hlone. }
  exists hashMap, totalFiles, logs. split_and!; [done..|].
  intros s1.
  pose (S := λ p : string,
          ∃ h files, hashMap !! h = Some files ∧ (2 ≤ length files)%nat ∧
                     p ∈ files).
  assert (¬ S path) as Hnot.
  { intros (h & files & Hh & Hlen & Hin).
    destruct (represents_elem_of _ _ _ _ _ _ _ Hrep Hh Hin)
      as (x & _ & Hdigest & Hx). simpl in Hx. subst x.
    assert (path ∈ filter (λ p, digest_of w p = Some hash)
                     (candidates (range_sizes o sizeMap))) as Hself.
    { rewrite Hlone. by left. }
    apply list_elem_of_filter in Hself as [Hdigest' _].
    assert (h = hash) as -> by congruence.
    rewrite Hgroup in Hh. simplify_eq. simpl in Hlen. lia. }
  assert (confined S (process_duplicates o flags hashMap)) as Hconfined.
  { unfold process_duplicates. apply confined_foldM.
    intros acc [h files] Hentry. apply confined_process_group_big.
    intros Hlen p Hp. exists h, files. split_and!; [|done..].
    apply elem_of_map_to_list. by rewrite <-Hrange. }
  destruct (Hconfined s1 path) as (Hk & Hd & Hr).
  simpl. split_and!; intros Hin.
  - by destruct (Hk Hin).
  - by destruct (Hd Hin).
  - by destruct (Hr Hin).
Qed.

(** Of the three files of size 5, [/a/f] and [/a/g] share a digest; give
    [/a/g] other bytes and [/a/f] is alone. *)
Lemma lone_digest_untouched_witness :
  let w := mkWorld (Walk one_unreadable)
             (λ path, if String.eqb path "/a/f" then Ok (bytes_of "hello")
                      else Ok (bytes_of "world"))
             "1ms" in
  let sizeMap : gmap Z (list string) := {[ 5 := ["/a/f"; "/a/g"; "/a/h"] ]} in
  let s := start one_unreadable_fs [] in
  ∃ hashMap totalFiles logs,
    @hash_candidates unix_go119 w forwards (mkFlags "/a" false false false)
        sizeMap s
      = (Done (hashMap, totalFiles), add_logs s logs) ∧
    hashMap !! toy_hex (bytes_of "hello") = Some ["/a/f"] ∧
    "/a/f" ∉ remove_calls
               (@process_duplicates unix_go119 forwards
                  (mkFlags "/a" false false false) hashMap s).2.
Proof.
  intros w sizeMap s.
  destruct (lone_digest_untouched unix_go119 unix_go119_laws w forwards
              (mkFlags "/a" false false false) sizeMap "/a/f"
              (toy_hex (bytes_of "hello")) s)
    as (hashMap & totalFiles & logs & Hrun & Hgroup & Huntouched).
  - intros m. reflexivity.
  - vm_compute. reflexivity.
  - exists hashMap, totalFiles, logs. split_and!; [exact Hrun|exact Hgroup|].
    intros Hin. destruct (Huntouched s) as (_ & _ & Hremoved).
    apply Hremoved in Hin. by apply elem_of_nil in Hin.
Defined.

(** X11. Whatever the flags and however the run ends, every path it hands to
    [os.Remove] is the path of an entry that the scan saw as a regular file
    (no directory, no symlink) that is not empty, and that the hashing
    could read; nothing else is ever removed. *)
Theorem removes_only_scanned_hashed_files (lib : GoLib) (laws : GoLibLaws lib)
    (w : World) (o : MapOrder) (flags : Flags) (s : State) (path : string) :
  MapOrderOk o →
  path ∈ remove_calls (main w o flags s).2 →
  path ∈ remove_calls s ∨ scanned_and_hashed w flags path.
Proof.
  intros Ho.
  assert (confined (scanned_and_hashed w flags) (main w o flags)) as Hconfined.
  { unfold main. case_match; [by apply confined_same|].
    apply (confined_bind_val _ _ _
             (λ sizeMap, represents recorded_size visit_path sizeMap
                           (visits w flags))).
    { eapply confined_logs_only. apply scan_represents. }
    { intros s0 sizeMap s' Hscan.
      destruct (scan_represents w flags s0) as (sizeMap' & l & Hrun & Hrep).
      congruence. }
    intros sizeMap Hsizes.
    apply confined_bind; [eapply confined_logs_only; apply logs_only_when|].
    intros _.
    apply confined_bind; [eapply confined_logs_only; apply logs_only_when|].
    intros _.
    apply (confined_bind_val _ _ _
             (λ acc, ∃ logs, hashed w (candidates (range_sizes o sizeMap))
                               acc logs)).
    { eapply confined_logs_only. apply hash_candidates_hashed. }
    { intros s0 acc s' Hhash.
      destruct (hash_candidates_hashed w o flags sizeMap s0)
        as (acc' & l & Hrun & Hhashed).
      exists l. congruence. }
    intros [hashMap totalFiles] (logs & Hgroups & _ & _). simpl in Hgroups.
    apply confined_bind.
    { apply confined_process_duplicates; [|apply (range_hashes_perm o Ho)].
      intros hash files p Hgroup Hp.
      destruct (represents_elem_of _ _ _ _ _ _ _ Hgroups Hgroup Hp)
        as (x & Hcand & Hdigest & Hx). simpl in Hx. subst x.
      destruct (candidate_entry _ _ Hcand) as (size & files' & Hentry & Hin).
      rewrite (range_sizes_perm o Ho) in Hentry.
      apply elem_of_map_to_list in Hentry.
      destruct (represents_elem_of _ _ _ _ _ _ _ Hsizes Hentry Hin)
        as (e & He & Hsize & <-).
      apply recorded_size_regular in Hsize
        as (info & Heq & Hdir & Hlink & Hsize & Hne).
      exists info, hash. rewrite <-Heq. split_and!; [done..|congruence|].
      by apply digest_of_Some. }
    intros [duplicateCount totalSaved]. unfold summary.
    repeat (apply confined_bind;
            [apply confined_print; by intros ? [?|?]|intros _]).
    destruct (dryRun flags); simpl;
      [apply confined_print; by intros ? [?|?]|by apply confined_same]. }
  intros Hin. by apply (Hconfined s path).
Qed.

(** In the run that removes [/a/f] (the root listed twice), [/a/f] is such
    a file. *)
Lemma removes_only_scanned_hashed_files_witness :
  @scanned_and_hashed unix_go119 one_file (mkFlags "/a:/a" false false false)
    "/a/f".
Proof.
  destruct (removes_only_scanned_hashed_files unix_go119 unix_go119_laws
              one_file forwards (mkFlags "/a:/a" false false false)
              (start one_file_fs []) "/a/f") as [Hin|Hok].
  - apply forwards_ok.
  - vm_compute. left.
  - by apply elem_of_nil in Hin.
  - exact Hok.
Defined.

(** ** The step for one duplicate, case by case *)

Lemma process_duplicate_effect flags acc dup s :
  (nodes (fs s) !! dup = None ∧
   process_duplicate flags acc dup s = (Panic NilDereference, s)) ∨
  (∃ info out calls s',
     nodes (fs s) !! dup = Some info ∧
     process_duplicate flags acc dup s
       = (Done (acc.1 + 1, int64 (acc.2 + Size info)), s') ∧
     stdout s' = stdout s ++ PDuplicate dup :: out ∧
     duplicate_lines out = 0 ∧
     remove_calls s' = remove_calls s ++ calls ∧
     (calls = [] ∨ calls = [dup])).
Proof.
  destruct (nodes (fs s) !! dup) as [info|] eqn:Hinfo.
  2: { left. split; [done|]. by apply process_duplicate_nil_dereference. }
  right. exists info.
  assert (∀ out calls (r : Outcome (Z * Z)) s1,
            r = Done (acc.1 + 1, int64 (acc.2 + Size info)) →
            stdout s1 = (stdout s ++ [PDuplicate dup]) ++ out →
            duplicate_lines out = 0 →
            remove_calls s1 = remove_calls s ++ calls →
            calls = [] ∨ calls = [dup] →
            ∃ out calls s',
              Some info = Some info ∧
              (r, s1) = (Done (acc.1 + 1, int64 (acc.2 + Size info)), s') ∧
              stdout s' = stdout s ++ PDuplicate dup :: out ∧
              duplicate_lines out = 0 ∧
              remove_calls s' = remove_calls s ++ calls ∧
              (calls = [] ∨ calls = [dup])) as Hfinish.
  { intros out calls r s1 -> Hout Hlines Hcalls Hshape.
    exists out, calls, s1. split_and!; try done.
    by rewrite Hout, <-app_assoc. }
  destruct acc as [n t], flags as [? [] [] ?]; run_step;
    rewrite Hinfo; simpl.
  1,2: apply (Hfinish [] []); simpl; rewrite ?app_nil_r; auto.
  - destruct (stdin s) as [|response rest]; simpl.
    + apply (Hfinish [PPrompt dup] []); simpl; rewrite ?app_nil_r; auto.
    + destruct (negb (response =? "y")%string && negb (response =? "Y")%string);
        simpl.
      * apply (Hfinish [PPrompt dup] []); simpl; rewrite ?app_nil_r; auto.
      * rewrite Hinfo. case_decide; simpl.
        -- apply (Hfinish [PPrompt dup] [dup]); simpl; auto.
        -- apply (Hfinish [PPrompt dup; PDeleted dup] [dup]); simpl; auto.
           by rewrite <-!app_assoc.
  - rewrite Hinfo. case_decide; simpl.
    + apply (Hfinish [] [dup]); simpl; rewrite ?app_nil_r; auto.
    + apply (Hfinish [PDeleted dup] [dup]); simpl; auto.
Qed.

Lemma bind_Done_inv {A B} (m : Go A) (k : A → Go B) s b s' :
  (m ≫= k) s = (Done b, s') →
  ∃ a s1, m s = (Done a, s1) ∧ k a s1 = (Done b, s').
Proof.
  unfold mbind, Go_bind. destruct (m s) as [[a|why|code] s1]; [|done..].
  eauto.
Qed.

Lemma duplicate_lines_app out1 out2 :
  duplicate_lines (out1 ++ out2) = duplicate_lines out1 + duplicate_lines out2.
Proof.
  unfold duplicate_lines, len. rewrite filter_app, length_app. lia.
Qed.

(** ** Removals are reported *)

Lemma reported_process_duplicate flags acc dup s :
  removals_reported s →
  removals_reported (process_duplicate flags acc dup s).2.
Proof.
  intros Hs.
  destruct (process_duplicate_effect flags acc dup s)
    as [[_ ->]|(info & out & calls & s' & _ & -> & Hout & _ & Hcalls & Hshape)];
    [done|].
  simpl. intros path. rewrite Hout, Hcalls, !elem_of_app.
  intros [Hin|Hin].
  - left. by apply Hs.
  - right. destruct Hshape as [-> | ->].
    + by apply elem_of_nil in Hin.
    + apply list_elem_of_singleton in Hin as ->. by left.
Qed.

Lemma reported_bind {A B} (m : Go A) (k : A → Go B) :
  (∀ s, removals_reported s → removals_reported (m s).2) →
  (∀ a s, removals_reported s → removals_reported (k a s).2) →
  ∀ s, removals_reported s → removals_reported ((m ≫= k) s).2.
Proof.
  intros Hm Hk s Hs. specialize (Hm s Hs). unfold mbind, Go_bind.
  destruct (m s) as [[a|why|code] s'] eqn:E; simpl in *; [|done..].
  by apply Hk.
Qed.

Lemma reported_foldM {A B} (body : B → A → Go B) (l : list A) :
  (∀ acc x s, removals_reported s → removals_reported (body acc x s).2) →
  ∀ acc s, removals_reported s → removals_reported (foldM body l acc s).2.
Proof.
  intros Hbody. induction l as [|x l IH]; intros acc s Hs; simpl.
  - done.
  - apply reported_bind; auto.
Qed.

Lemma reported_print p s :
  removals_reported s → removals_reported (fmt_Print p s).2.
Proof. intros Hs path Hin. simpl in *. apply elem_of_app. left. by apply Hs. Qed.

Lemma reported_logs_only {A} (m : Go A) P s :
  logs_only m P → removals_reported s → removals_reported (m s).2.
Proof. intros Hm Hs. destruct (Hm s) as (a & logs & -> & _). exact Hs. Qed.

(** X12. The run never removes a file behind the user's back: at any end of
    the run, every path that was handed to [os.Remove] has its "Duplicate:"
    line on standard output. *)
Theorem every_removal_is_reported (lib : GoLib) (w : World) (o : MapOrder)
    (flags : Flags) (s : State) :
  removals_reported s → removals_reported (main w o flags s).2.
Proof.
  revert s. unfold main. case_match; [by intros s Hs|].
  apply reported_bind.
  { intros s. eapply reported_logs_only. apply scan_represents. }
  intros sizeMap. apply reported_bind.
  { intros s. eapply reported_logs_only. apply logs_only_when. }
  intros _. apply reported_bind.
  { intros s. eapply reported_logs_only. apply logs_only_when. }
  intros _. apply reported_bind.
  { intros s. eapply reported_logs_only. apply hash_candidates_hashed. }
  intros [hashMap totalFiles]. apply reported_bind.
  { unfold process_duplicates. apply reported_foldM.
    intros acc [hash files]. unfold process_group.
    case_match; [by intros s Hs|].
    apply reported_bind.
    { intros s Hs. unfold sort_files. by destruct (sort_Slice _ _). }
    intros [|keeper duplicates]; [by intros s Hs|].
    apply reported_bind.
    { intros s Hs. unfold slice_to. by case_decide. }
    intros hash8. apply reported_bind; [apply reported_print|]. intros _.
    apply reported_bind; [apply reported_print|]. intros _.
    apply reported_foldM. intros acc' dup. apply reported_process_duplicate. }
  intros [duplicateCount totalSaved]. unfold summary.
  repeat (apply reported_bind; [apply reported_print|intros _]).
  destruct (dryRun flags); simpl; [apply reported_print|by intros s Hs].
Qed.

(** The run that removes [/b/p2] and [/b/q2] reported both. *)
Lemma every_removal_is_reported_witness :
  removals_reported
    (@main unix_go119 two_groups forwards (mkFlags "/b" false false false)
       (start two_groups_fs [])).2.
Proof.
  apply (every_removal_is_reported unix_go119 two_groups forwards
           (mkFlags "/b" false false false) (start two_groups_fs [])).
  intros path Hin. simpl in Hin. by apply elem_of_nil in Hin.
Defined.

(** ** The summary of a run that ends normally *)

Lemma process_duplicates_lines flags dups : ∀ acc s a s',
  foldM (process_duplicate flags) dups acc s = (Done a, s') →
  ∃ out, stdout s' = stdout s ++ out ∧ a.1 = acc.1 + duplicate_lines out.
Proof.
  induction dups as [|dup dups IH]; intros acc s a s' Hrun.
  - simpl in Hrun. injection Hrun as <- <-. exists [].
    rewrite app_nil_r. split; [done|]. unfold duplicate_lines, len. simpl. lia.
  - rewrite foldM_cons in Hrun.
    apply bind_Done_inv in Hrun as (acc1 & s1 & Hstep & Hrest).
    destruct (process_duplicate_effect flags acc dup s)
      as [[_ Hpanic]|(info & out & calls & s1' & _ & Hdone & Hout & Hlines & _)];
      [congruence|].
    rewrite Hdone in Hstep. injection Hstep as <- <-.
    destruct (IH _ _ _ _ Hrest) as (out' & Hout' & Hcount). simpl in Hcount.
    exists ((PDuplicate dup :: out) ++ out'). split.
    + by rewrite Hout', Hout, <-app_assoc.
    + rewrite duplicate_lines_app, Hcount.
      change (PDuplicate dup :: out) with ([PDuplicate dup] ++ out).
      rewrite duplicate_lines_app, Hlines.
      unfold duplicate_lines at 2, len. simpl. lia.
Qed.

Lemma process_group_lines `{GoLib} flags acc entry s a s' :
  process_group flags acc entry s = (Done a, s') →
  ∃ out, stdout s' = stdout s ++ out ∧ a.1 = acc.1 + duplicate_lines out.
Proof.
  destruct entry as [hash files]. unfold process_group.
  case_match.
  { intros [= <- <-]. exists []. rewrite app_nil_r. split; [done|].
    unfold duplicate_lines, len. simpl. lia. }
  intros Hrun. apply bind_Done_inv in Hrun as (sorted & s1 & Hsort & Hrun).
  unfold sort_files in Hsort.
  destruct (sort_Slice _ _) as [sorted'|]; [|done]. injection Hsort as -> <-.
  destruct sorted as [|keeper duplicates]; [done|].
  apply bind_Done_inv in Hrun as (hash8 & s2 & Hslice & Hrun).
  unfold slice_to in Hslice. case_decide; [|done]. injection Hslice as <- <-.
  apply bind_Done_inv in Hrun as ([] & s3 & [= <-] & Hrun).
  apply bind_Done_inv in Hrun as ([] & s4 & [= <-] & Hrun).
  destruct (process_duplicates_lines _ _ _ _ _ _ Hrun) as (out & Hout & Hcount).
  simpl in Hout.
  exists ([PGroup (substring 0 8 hash); PKeeper keeper] ++ out). split.
  - rewrite Hout. by rewrite <-!app_assoc.
  - rewrite duplicate_lines_app, Hcount.
    unfold duplicate_lines at 2, len. simpl. lia.
Qed.

Lemma process_groups_lines `{GoLib} flags entries : ∀ acc s a s',
  foldM (process_group flags) entries acc s = (Done a, s') →
  ∃ out, stdout s' = stdout s ++ out ∧ a.1 = acc.1 + duplicate_lines out.
Proof.
  induction entries as [|entry entries IH]; intros acc s a s' Hrun.
  - simpl in Hrun. injection Hrun as <- <-. exists [].
    rewrite app_nil_r. split; [done|]. unfold duplicate_lines, len. simpl. lia.
  - rewrite foldM_cons in Hrun.
    apply bind_Done_inv in Hrun as (acc1 & s1 & Hstep & Hrest).
    destruct (process_group_lines _ _ _ _ _ _ Hstep) as (out1 & Hout1 & Hc1).
    destruct (IH _ _ _ _ Hrest) as (out2 & Hout2 & Hc2).
    exists (out1 ++ out2). split.
    + by rewrite Hout2, Hout1, <-app_assoc.
    + rewrite duplicate_lines_app. lia.
Qed.

(** X17. When the run ends normally, what it printed ends with the summary,
    followed by the dry-run banner exactly under [--dry-run], and the count
    of duplicates found in the summary is the number of "Duplicate:" lines
    printed before it. *)
Theorem summary_counts_the_duplicate_lines (lib : GoLib) (w : World)
    (o : MapOrder) (flags : Flags) (s : State) :
  (main w o flags s).1 = Done tt →
  ∃ out totalFiles megabytes,
    stdout (main w o flags s).2
      = stdout s ++ out
        ++ [PSummary; PTotalFiles totalFiles;
            PTotalDuplicates (duplicate_lines out); PSpaceSaved megabytes]
        ++ (if dryRun flags then [PDryRunBanner] else []).
Proof.
  intros Hdone.
  destruct (main w o flags s) as [r s'] eqn:Hrun. simpl in *. subst r.
  unfold main in Hrun. case_match; [done|].
  apply bind_Done_inv in Hrun as (sizeMap & s1 & Hscan & Hrun).
  destruct (scan_represents w flags s) as (? & l1 & Hscan' & _).
  rewrite Hscan' in Hscan. injection Hscan as -> <-.
  apply bind_Done_inv in Hrun as ([] & s2 & Hlog2 & Hrun).
  destruct (logs_only_when (verbose flags)
              (LScanned (Z.of_nat (size sizeMap)) (elapsed w)) (add_logs s l1))
    as ([] & l2 & Hlog2' & _).
  rewrite Hlog2' in Hlog2. injection Hlog2 as <-.
  apply bind_Done_inv in Hrun as ([] & s3 & Hlog3 & Hrun).
  destruct (logs_only_when (verbose flags)
              (LPotential (foldl count_potential 0 (range_count o sizeMap)))
              (add_logs (add_logs s l1) l2))
    as ([] & l3 & Hlog3' & _).
  rewrite Hlog3' in Hlog3. injection Hlog3 as <-.
  apply bind_Done_inv in Hrun as ([hashMap totalFiles] & s4 & Hhash & Hrun).
  destruct (hash_candidates_hashed w o flags sizeMap
              (add_logs (add_logs (add_logs s l1) l2) l3))
    as (? & l4 & Hhash' & _).
  rewrite Hhash' in Hhash. injection Hhash as -> <-.
  apply bind_Done_inv in Hrun
    as ([duplicateCount totalSaved] & s5 & Hprocess & Hrun).
  destruct (process_groups_lines _ _ _ _ _ _ Hprocess) as (out & Hout & Hcount).
  simpl in Hout, Hcount.
  exists out, totalFiles, (totalSaved `quot` (1024 * 1024)).
  unfold summary, mbind, Go_bind, fmt_Print, when in Hrun.
  destruct (dryRun flags); simpl in Hrun; injection Hrun as <-; simpl;
    rewrite Hout, Hcount; rewrite <-?app_assoc; simpl; by rewrite ?app_nil_r.
Qed.

(** The run on the two groups of [/b], removing: two "Duplicate:" lines,
    "Total duplicates found: 2", no banner. *)
Lemma summary_counts_the_duplicate_lines_witness :
  ∃ out totalFiles megabytes,
    stdout (@main unix_go119 two_groups forwards
              (mkFlags "/b" false false false) (start two_groups_fs [])).2
      = out ++ [PSummary; PTotalFiles totalFiles;
                PTotalDuplicates (duplicate_lines out); PSpaceSaved megabytes].
Proof.
  destruct (summary_counts_the_duplicate_lines unix_go119 two_groups forwards
              (mkFlags "/b" false false false) (start two_groups_fs []))
    as (out & totalFiles & megabytes & Hout).
  - vm_compute. reflexivity.
  - exists out, totalFiles, megabytes. rewrite Hout. reflexivity.
Defined.

(** ** Removing without asking *)

(** X8. A removal that is refused (without [--dry-run] and [--confirm]) does
    not stop the run: the step ends normally, the duplicate stays reported
    and counted, the error is logged, nothing is printed as deleted and the
    file system is unchanged. *)
Theorem refused_removal_is_logged (partitions : string) (verbose : bool)
    (acc : Z * Z) (dup : string) (s : State) (info : FileInfo) :
  nodes (fs s) !! dup = Some info →
  dup ∈ locked (fs s) →
  process_duplicate (mkFlags partitions false false verbose) acc dup s
    = (Done (acc.1 + 1, int64 (acc.2 + Size info)),
       mkState (fs s) (stdin s) (stdout s ++ [PDuplicate dup])
         (stderr s ++ [LErrorDeleting dup
                         ("remove " +:+ dup +:+ ": permission denied")])
         (remove_calls s ++ [dup])).
Proof.
  intros Hinfo Hlocked. destruct acc as [n t]. run_step.
  rewrite Hinfo. simpl. rewrite Hinfo. by rewrite decide_True.
Qed.

(** [/a/f] with its removal refused. *)
Lemma refused_removal_is_logged_witness :
  let s := start (mkFileSys (nodes one_file_fs) {["/a/f"]}) [] in
  (process_duplicate (mkFlags "/a" false false false) (0, 0) "/a/f" s).1
    = Done (1, 5) ∧
  fs (process_duplicate (mkFlags "/a" false false false) (0, 0) "/a/f" s).2
    = fs s.
Proof.
  intros s.
  rewrite (refused_removal_is_logged "/a" false (0, 0) "/a/f" s (regular 5 100)).
  - split; reflexivity.
  - reflexivity.
  - vm_compute. reflexivity.
Defined.

Lemma process_duplicate_removes flags acc dup s info :
  dryRun flags = false → confirm flags = false →
  nodes (fs s) !! dup = Some info → dup ∉ locked (fs s) →
  process_duplicate flags acc dup s
    = (Done (acc.1 + 1, int64 (acc.2 + Size info)),
       mkState (mkFileSys (delete dup (nodes (fs s))) (locked (fs s)))
         (stdin s) (stdout s ++ [PDuplicate dup; PDeleted dup]) (stderr s)
         (remove_calls s ++ [dup])).
Proof.
  intros Hdry Hconfirm Hinfo Hfree. destruct acc as [n t]. run_step.
  rewrite Hinfo, Hdry, Hconfirm. simpl. rewrite Hinfo.
  rewrite decide_False by done. simpl. by rewrite <-app_assoc.
Qed.

Lemma process_duplicates_remove flags dups : ∀ acc s,
  dryRun flags = false → confirm flags = false →
  NoDup dups →
  (∀ dup, dup ∈ dups →
     is_Some (nodes (fs s) !! dup) ∧ dup ∉ locked (fs s)) →
  ∃ s',
    foldM (process_duplicate flags) dups acc s
      = (Done (acc.1 + len dups, add_sizes (fs s) acc.2 dups), s') ∧
    (∀ path, nodes (fs s') !! path
             = if decide (path ∈ dups) then None else nodes (fs s) !! path) ∧
    locked (fs s') = locked (fs s) ∧
    remove_calls s' = remove_calls s ++ dups ∧
    stdout s'
      = stdout s ++ mjoin ((λ dup, [PDuplicate dup; PDeleted dup]) <$> dups) ∧
    stderr s' = stderr s ∧
    stdin s' = stdin s.
Proof.
  induction dups as [|dup dups IH]; intros acc s Hdry Hconfirm Hnodup Hok.
  - exists s. destruct acc. simpl. unfold len. simpl.
    rewrite Z.add_0_r, !app_nil_r. split_and!; done.
  - apply NoDup_cons in Hnodup as [Hfresh Hnodup].
    destruct (Hok dup) as [[info Hinfo] Hfree]; [by left|].
    rewrite foldM_cons.
    rewrite (bind_Done _ _ _ _ _
               (process_duplicate_removes flags acc dup s info
                  Hdry Hconfirm Hinfo Hfree)).
    set (s1 := mkState _ _ _ _ _).
    destruct (IH (acc.1 + 1, int64 (acc.2 + Size info)) s1 Hdry Hconfirm Hnodup)
      as (s' & Hrun & Hnodes & Hlocked & Hcalls & Hout & Herr & Hin).
    { intros d Hd. simpl. rewrite lookup_delete_ne by (by intros ->).
      apply Hok. by right. }
    exists s'. split_and!.
    + rewrite Hrun. simpl.
      replace (acc.1 + 1 + len dups) with (acc.1 + len (dup :: dups))
        by (unfold len; simpl length; lia).
      do 3 f_equal. unfold add_sizes. simpl.
      replace (size_in (fs s) dup) with (Size info)
        by (unfold size_in; by rewrite Hinfo).
      apply foldl_ext_elem. intros total d Hd. unfold size_in. simpl.
      rewrite lookup_delete_ne by (by intros ->). done.
    + intros path. rewrite Hnodes. simpl.
      destruct (decide (path = dup)) as [->|Hne].
      * rewrite decide_False by done. rewrite lookup_delete_eq.
        by rewrite decide_True by left.
      * rewrite lookup_delete_ne by done.
        destruct (decide (path ∈ dups)).
        -- by rewrite decide_True by (by right).
        -- rewrite decide_False; [done|]. by intros [?|?]%elem_of_cons.
    + by rewrite Hlocked.
    + rewrite Hcalls. simpl. by rewrite <-app_assoc.
    + rewrite Hout. simpl. by rewrite <-!app_assoc.
    + by rewrite Herr.
    + by rewrite Hin.
Qed.

Lemma process_group_removes `{GoLibLaws} flags acc hash files s :
  dryRun flags = false → confirm flags = false →
  (2 ≤ length files)%nat →
  NoDup files →
  (∀ path, path ∈ files →
     is_Some (nodes (fs s) !! path) ∧ path ∉ locked (fs s)) →
  (8 ≤ String.length hash)%nat →
  ∃ keeper duplicates s',
    sort_Slice (less (nodes (fs s))) files = Some (keeper :: duplicates) ∧
    (keeper :: duplicates) ≡ₚ files ∧
    process_group flags acc (hash, files) s
      = (Done (acc.1 + len duplicates, add_sizes (fs s) acc.2 duplicates), s') ∧
    remove_calls s' = remove_calls s ++ duplicates ∧
    (∀ path, nodes (fs s') !! path
             = if decide (path ∈ duplicates) then None
               else nodes (fs s) !! path) ∧
    (keeper ∉ duplicates) ∧
    stderr s' = stderr s ∧
    locked (fs s') = locked (fs s).
Proof.
  intros Hdry Hconfirm Hlen Hnodup Hok Hhash.
  destruct (sort_Slice_sorts (less (nodes (fs s))) (before (nodes (fs s))) files
              (before_swo _)) as (sorted & Hsort & Hperm & _).
  { intros a b Ha Hb. apply less_before; by apply Hok. }
  destruct sorted as [|keeper duplicates].
  { apply Permutation_nil_l in Hperm. subst files. simpl in Hlen. lia. }
  rewrite <-Hperm in Hnodup. apply NoDup_cons in Hnodup as [Hkeeper Hnodup].
  set (s2 := mkState (fs s) (stdin s)
               ((stdout s ++ [PGroup (substring 0 8 hash)]) ++ [PKeeper keeper])
               (stderr s) (remove_calls s)).
  destruct (process_duplicates_remove flags duplicates acc s2 Hdry Hconfirm
              Hnodup)
    as (s' & Hrun & Hnodes & Hlocked & Hcalls & _ & Herr & _).
  { intros dup Hdup. simpl. apply Hok. rewrite <-Hperm. by right. }
  exists keeper, duplicates, s'. split_and!; try done.
  unfold process_group.
  assert ((len files <? 2) = false) as ->.
  { apply Z.ltb_ge. unfold len. lia. }
  assert (sort_files files s = (Done (keeper :: duplicates), s)) as Hsorted.
  { unfold sort_files. by rewrite Hsort. }
  rewrite (bind_Done _ _ _ _ _ Hsorted).
  unfold slice_to. rewrite decide_True by done.
  unfold mbind at 1, Go_bind at 1, mret at 1, Go_ret at 1.
  unfold mbind at 1, Go_bind at 1, fmt_Print at 1.
  unfold mbind at 1, Go_bind at 1, fmt_Print at 1.
  exact Hrun.
Qed.

(** X7. Without [--dry-run] and [--confirm], for a group of two or more
    distinct files that can all be read and removed: the treatment of the
    group ends normally, hands exactly the files after the first of the
    ordered group to [os.Remove], in order; afterwards those files are gone,
    the keeper and every file outside the group are as they were, and
    nothing is logged. *)
Theorem delete_mode_removes_all_but_keeper (lib : GoLib) (laws : GoLibLaws lib)
    (partitions : string) (verbose : bool) (acc : Z * Z) (hash : string)
    (files : list string) (s : State) :
  let flags := mkFlags partitions false false verbose in
  (2 ≤ length files)%nat →
  NoDup files →
  (∀ path, path ∈ files →
     is_Some (nodes (fs s) !! path) ∧ path ∉ locked (fs s)) →
  (8 ≤ String.length hash)%nat →
  ∃ keeper duplicates s',
    sort_Slice (less (nodes (fs s))) files = Some (keeper :: duplicates) ∧
    (keeper :: duplicates) ≡ₚ files ∧
    process_group flags acc (hash, files) s
      = (Done (acc.1 + len duplicates, add_sizes (fs s) acc.2 duplicates), s') ∧
    remove_calls s' = remove_calls s ++ duplicates ∧
    (∀ path, path ∈ duplicates → nodes (fs s') !! path = None) ∧
    (∀ path, path ∉ duplicates →
       nodes (fs s') !! path = nodes (fs s) !! path) ∧
    (keeper ∉ duplicates) ∧
    stderr s' = stderr s.
Proof.
  intros flags Hlen Hnodup Hok Hhash.
  destruct (process_group_removes flags acc hash files s eq_refl eq_refl
              Hlen Hnodup Hok Hhash)
    as (keeper & duplicates & s' & Hsort & Hperm & Hrun & Hcalls & Hnodes
        & Hkeeper & Herr & _).
  exists keeper, duplicates, s'. split_and!; try done.
  - intros path Hpath. rewrite Hnodes. by rewrite decide_True.
  - intros path Hpath. rewrite Hnodes. by rewrite decide_False.
Qed.

(** The group of [/b/p1] and [/b/p2]: [/b/p2] is removed, [/b/p1] stays. *)
Lemma delete_mode_removes_all_but_keeper_witness :
  ∃ keeper duplicates s',
    @process_group unix_go119 (mkFlags "/b" false false false) (0, 0)
        (toy_hex (bytes_of "one"), ["/b/p1"; "/b/p2"]) (start two_groups_fs [])
      = (Done (0 + len duplicates, add_sizes two_groups_fs 0 duplicates), s') ∧
    remove_calls s' = duplicates ∧
    (keeper ∉ duplicates) ∧
    (keeper :: duplicates) ≡ₚ ["/b/p1"; "/b/p2"].
Proof.
  destruct (delete_mode_removes_all_but_keeper unix_go119 unix_go119_laws
              "/b" false (0, 0) (toy_hex (bytes_of "one")) ["/b/p1"; "/b/p2"]
              (start two_groups_fs []))
    as (keeper & duplicates & s' & _ & Hperm & Hrun & Hcalls & _ & _ & Hkeeper & _).
  - simpl. lia.
  - apply (bool_decide_unpack _). vm_compute. exact I.
  - intros path Hpath.
    repeat (apply elem_of_cons in Hpath as [->|Hpath];
            [split; [vm_compute; eauto|apply not_elem_of_empty]|]).
    by apply elem_of_nil in Hpath.
  - vm_compute. lia.
  - exists keeper, duplicates, s'.
    split_and!; [exact Hrun|exact Hcalls|exact Hkeeper|exact Hperm].
Defined.

(** ** The bytes that can be reclaimed *)

Lemma process_duplicates_total flags dups : ∀ acc s,
  NoDup dups →
  (∀ dup, dup ∈ dups → is_Some (nodes (fs s) !! dup)) →
  (foldM (process_duplicate flags) dups acc s).1
    = Done (acc.1 + len dups, add_sizes (fs s) acc.2 dups).
Proof.
  induction dups as [|dup dups IH]; intros acc s Hnodup Hstat.
  - destruct acc. simpl. unfold len. simpl. by rewrite Z.add_0_r.
  - apply NoDup_cons in Hnodup as [Hfresh Hnodup].
    destruct (Hstat dup) as [info Hinfo]; [by left|].
    destruct (process_duplicate_Done flags acc dup s info Hinfo)
      as (s1 & Hstep & _ & _ & Hothers).
    rewrite foldM_cons, (bind_Done _ _ _ _ _ Hstep).
    rewrite IH; [|done|].
    + simpl.
      replace (acc.1 + 1 + len dups) with (acc.1 + len (dup :: dups))
        by (unfold len; simpl length; lia).
      do 2 f_equal. unfold add_sizes. simpl.
      replace (size_in (fs s) dup) with (Size info)
        by (unfold size_in; by rewrite Hinfo).
      apply foldl_ext_elem. intros total d Hd. unfold size_in.
      rewrite Hothers; [done|]. by intros ->.
    + intros d Hd. rewrite Hothers; [apply Hstat; by right|]. by intros ->.
Qed.

Lemma int64_small z : - 2 ^ 63 ≤ z < 2 ^ 63 → int64 z = z.
Proof. intros Hz. unfold int64. rewrite Z.mod_small; lia. Qed.

Lemma add_sizes_exact fsys paths : ∀ total,
  (∀ path, path ∈ paths → 0 ≤ size_in fsys path) →
  0 ≤ total →
  total + sum_sizes fsys paths < 2 ^ 63 →
  add_sizes fsys total paths = total + sum_sizes fsys paths.
Proof.
  induction paths as [|path paths IH]; intros total Hsizes Htotal Hfits.
  - simpl. unfold add_sizes, sum_sizes. simpl. lia.
  - assert (0 ≤ size_in fsys path) as Hpath by (apply Hsizes; by left).
    assert (0 ≤ sum_sizes fsys paths) as Hrest.
    { clear -Hsizes. induction paths as [|q paths IH]; [done|].
      unfold sum_sizes. simpl.
      assert (0 ≤ size_in fsys q) by (apply Hsizes; right; by left).
      assert (0 ≤ sum_sizes fsys paths); [|unfold sum_sizes in *; lia].
      apply IH. intros p [->|Hp]%elem_of_cons; apply Hsizes;
        [by left|right; by right]. }
    change (sum_sizes fsys (path :: paths))
      with (size_in fsys path + sum_sizes fsys paths) in *.
    change (add_sizes fsys total (path :: paths))
      with (add_sizes fsys (int64 (total + size_in fsys path)) paths).
    rewrite int64_small by lia.
    rewrite IH; [lia| |lia|lia].
    intros p Hp. apply Hsizes. by right.
Qed.

(** X9. In every mode, for distinct duplicates that can be read: as long as
    the sizes are not negative and their sum with the total so far stays
    below 2^63, the total of reclaimable bytes after the loop is exactly
    that sum (the 64-bit addition does not wrap). *)
Theorem space_saved_is_exact_sum (flags : Flags) (dups : list string)
    (acc : Z * Z) (s : State) :
  NoDup dups →
  (∀ dup, dup ∈ dups → is_Some (nodes (fs s) !! dup)) →
  (∀ dup, dup ∈ dups → 0 ≤ size_in (fs s) dup) →
  0 ≤ acc.2 →
  acc.2 + sum_sizes (fs s) dups < 2 ^ 63 →
  (foldM (process_duplicate flags) dups acc s).1
    = Done (acc.1 + len dups, acc.2 + sum_sizes (fs s) dups).
Proof.
  intros Hnodup Hstat Hsizes Hacc Hfits.
  rewrite process_duplicates_total by done.
  by rewrite add_sizes_exact.
Qed.

(** Five copies of 3 bytes after 2^20 bytes: 2^20 + 15. *)
Lemma space_saved_is_exact_sum_witness :
  (foldM (process_duplicate (mkFlags "/d" true false false))
     ["/d/a"; "/d/b"; "/d/c"; "/d/d"; "/d/e"] (0, 2 ^ 20)
     (start seven_copies_fs [])).1
    = Done (5, 2 ^ 20 + 15).
Proof.
  rewrite (space_saved_is_exact_sum (mkFlags "/d" true false false)
             ["/d/a"; "/d/b"; "/d/c"; "/d/d"; "/d/e"] (0, 2 ^ 20)
             (start seven_copies_fs [])).
  - reflexivity.
  - apply (bool_decide_unpack _). vm_compute. exact I.
  - intros dup Hdup.
    repeat (apply elem_of_cons in Hdup as [->|Hdup]; [vm_compute; eauto|]).
    by apply elem_of_nil in Hdup.
  - intros dup Hdup.
    repeat (apply elem_of_cons in Hdup as [->|Hdup];
            [vm_compute; discriminate|]).
    by apply elem_of_nil in Hdup.
  - vm_compute. discriminate.
  - vm_compute. reflexivity.
Defined.

(** ** A run that removes, group after group *)











(** ** Every reported duplicate is handed to [os.Remove] *)

Lemma held_bind {A B} (I : State → Prop) (m : Go A) (k : A → Go B) :
  (∀ s, I s → I (m s).2) →
  (∀ a s, I s → I (k a s).2) →
  ∀ s, I s → I ((m ≫= k) s).2.
Proof.
  intros Hm Hk s Hs. specialize (Hm s Hs). unfold mbind, Go_bind.
  destruct (m s) as [[a|why|code] s'] eqn:E; simpl in *; [|done..].
  by apply Hk.
Qed.

Lemma held_foldM {A B} (I : State → Prop) (body : B → A → Go B) (l : list A) :
  (∀ acc x s, I s → I (body acc x s).2) →
  ∀ acc s, I s → I (foldM body l acc s).2.
Proof.
  intros Hbody. induction l as [|x l IH]; intros acc s Hs; simpl.
  - done.
  - apply held_bind; auto.
Qed.

Lemma duplicate_paths_app out1 out2 :
  duplicate_paths (out1 ++ out2) = duplicate_paths out1 ++ duplicate_paths out2.
Proof. apply omap_app. Qed.

Lemma attempted_print p :
  is_duplicate_line p = false →
  ∀ s, all_attempted s → all_attempted (fmt_Print p s).2.
Proof.
  intros Hp s Hs. unfold all_attempted in *. simpl.
  rewrite duplicate_paths_app, Hs. destruct p; simpl in *; try done.
  all: by rewrite app_nil_r.
Qed.

Lemma attempted_logs_only {A} (m : Go A) P s :
  logs_only m P → all_attempted s → all_attempted (m s).2.
Proof. intros Hm Hs. destruct (Hm s) as (a & logs & -> & _). exact Hs. Qed.

Lemma attempted_process_duplicate flags acc dup s :
  dryRun flags = false → confirm flags = false →
  all_attempted s → all_attempted (process_duplicate flags acc dup s).2.
Proof.
  intros Hdry Hconfirm Hs.
  destruct (nodes (fs s) !! dup) as [info|] eqn:Hinfo.
  2: { by rewrite process_duplicate_nil_dereference. }
  destruct acc as [n t], flags as [? ? ? ?]. simpl in Hdry, Hconfirm. subst.
  unfold all_attempted in *. run_step. rewrite Hinfo. simpl.
  rewrite Hinfo. case_decide; simpl.
  all: rewrite ?duplicate_paths_app, Hs; simpl; by rewrite ?app_nil_r.
Qed.

(** X13. Without [--dry-run] and without [--confirm], [os.Remove] is called
    for every duplicate the run reports, once for each "Duplicate:" line
    and in the order of the lines, however the run ends. *)
Theorem unattended_delete_attempts_every_duplicate (lib : GoLib) (w : World)
    (o : MapOrder) (flags : Flags) (s : State) :
  dryRun flags = false → confirm flags = false →
  all_attempted s → all_attempted (main w o flags s).2.
Proof.
  intros Hdry Hconfirm. revert s. unfold main. case_match; [by intros s Hs|].
  apply held_bind.
  { intros s. eapply attempted_logs_only. apply scan_represents. }
  intros sizeMap. apply held_bind.
  { intros s. eapply attempted_logs_only. apply logs_only_when. }
  intros _. apply held_bind.
  { intros s. eapply attempted_logs_only. apply logs_only_when. }
  intros _. apply held_bind.
  { intros s. eapply attempted_logs_only. apply hash_candidates_hashed. }
  intros [hashMap totalFiles]. apply held_bind.
  { unfold process_duplicates. apply held_foldM.
    intros acc [hash files]. unfold process_group.
    case_match; [by intros s Hs|].
    apply held_bind.
    { intros s Hs. unfold sort_files. by destruct (sort_Slice _ _). }
    intros [|keeper duplicates]; [by intros s Hs|].
    apply held_bind.
    { intros s Hs. unfold slice_to. by case_decide. }
    intros hash8. apply held_bind; [by apply attempted_print|]. intros _.
    apply held_bind; [by apply attempted_print|]. intros _.
    apply held_foldM. intros acc' dup s.
    by apply attempted_process_duplicate. }
  intros [duplicateCount totalSaved]. unfold summary.
  repeat (apply held_bind; [by apply attempted_print|intros _]).
  rewrite Hdry. by intros s Hs.
Qed.

(** The run on the two groups calls [os.Remove] for the two duplicates it
    reports. *)
Lemma unattended_delete_attempts_every_duplicate_witness :
  all_attempted
    (@main unix_go119 two_groups forwards (mkFlags "/b" false false false)
       (start two_groups_fs [])).2.
Proof.
  apply (unattended_delete_attempts_every_duplicate unix_go119 two_groups
           forwards (mkFlags "/b" false false false) (start two_groups_fs []));
    reflexivity.
Defined.

(** ** The figure of potential duplicates *)

Lemma scan_counts `{GoLib} w flags :
  logs_only (scan w flags)
    (λ sizeMap _, group_sizes sizeMap = length (recorded_paths w flags)).
Proof.
  unfold scan, recorded_paths, visits.
  pose (I := λ (roots : list string) (sizeMap : gmap Z (list string))
               (_ : list Logged),
             group_sizes sizeMap
             = length (filter (λ e, is_Some (recorded_size e))
                         (mjoin (Walk w <$> roots)))).
  eapply logs_only_weaken.
  - apply (logs_only_foldM _ I _) with (done := []) (logs := []).
    + intros roots root sizeMap logs HI. unfold scan_partition.
      eapply logs_only_bind; [apply logs_only_when|].
      intros _ l1 _.
      pose (J := λ (entries : list WalkEntry) (sizeMap : gmap Z (list string))
                   (_ : list Logged),
                 group_sizes sizeMap
                 = length (filter (λ e, is_Some (recorded_size e))
                             (mjoin (Walk w <$> roots) ++ entries))).
      eapply logs_only_weaken.
      * apply (logs_only_foldM _ J _) with (done := []) (logs := []).
        -- intros entries e sizeMap' logs' HJ.
           eapply logs_only_weaken; [apply walkFn_records|].
           intros sizeMap'' l3 ->. unfold J in *.
           rewrite app_assoc, filter_app, length_app, <-HJ.
           rewrite filter_cons, filter_nil.
           destruct (recorded_size e) as [size|].
           ++ rewrite decide_True by eauto. rewrite group_sizes_append_at.
              simpl. lia.
           ++ rewrite decide_False by (by intros [? ?]). simpl. lia.
        -- unfold J. by rewrite app_nil_r.
      * intros sizeMap' l2 HJ. unfold I, J in *. simpl in HJ.
        by rewrite fmap_app, join_app; simpl; rewrite app_nil_r.
    + unfold I, group_sizes. by rewrite map_to_list_empty.
  - intros sizeMap logs HI. unfold I in HI. by rewrite length_fmap.
Qed.

Lemma count_potential_foldl (entries : list (Z * list string)) : ∀ acc,
  (∀ e, e ∈ entries → (1 ≤ length e.2)%nat) →
  foldl count_potential acc entries
  = acc + Z.of_nat (sum_list_with (λ e : Z * list string, length e.2) entries)
    - len entries.
Proof.
  induction entries as [|e entries IH]; intros acc Hfull.
  - unfold len. simpl. lia.
  - simpl. rewrite IH by (intros e' ?; apply Hfull; by right).
    assert (1 ≤ length e.2)%nat as Hlen by (apply Hfull; by left).
    unfold count_potential, len. simpl.
    destruct (Z.ltb_spec 1 (Z.of_nat (length e.2))); lia.
Qed.

(** X3. The figure logged as "potential duplicates" (lines 65-70) is the
    number of files the scan recorded less the number of distinct sizes
    among them, whatever the order of the loop over the map. *)
Theorem potential_duplicates_is_files_less_sizes (lib : GoLib) (w : World)
    (o : MapOrder) (flags : Flags) (s : State) :
  MapOrderOk o →
  ∃ sizeMap logs,
    scan w flags s = (Done sizeMap, add_logs s logs) ∧
    foldl count_potential 0 (range_count o sizeMap)
    = len (recorded_paths w flags) - Z.of_nat (size sizeMap).
Proof.
  intros Ho.
  destruct (logs_only_and _ _ _ (scan_represents w flags)
              (scan_counts w flags) s)
    as (sizeMap & logs & Hrun & Hrep & Hcount).
  exists sizeMap, logs. split; [done|].
  rewrite count_potential_foldl.
  - assert (sum_list_with (λ e : Z * list string, length e.2)
              (range_count o sizeMap) = group_sizes sizeMap) as ->.
    { unfold group_sizes. by rewrite (range_count_perm o Ho). }
    assert (length (range_count o sizeMap) = size sizeMap) as Hsize.
    { rewrite <-length_map_to_list.
      apply Permutation_length, (range_count_perm o Ho). }
    unfold len. rewrite Hcount, Hsize. lia.
  - intros [size files] Hentry. rewrite (range_count_perm o Ho) in Hentry.
    apply elem_of_map_to_list in Hentry. rewrite Hrep in Hentry. simpl.
    destruct (filed _ _ _ _); simpl in Hentry; simplify_eq. simpl. lia.
Qed.

(** In the tree with two groups the scan records four files of two sizes:
    two potential duplicates. *)
Lemma potential_duplicates_is_files_less_sizes_witness :
  ∃ sizeMap logs,
    @scan unix_go119 two_groups (mkFlags "/b" true false false)
        (start two_groups_fs [])
      = (Done sizeMap, add_logs (start two_groups_fs []) logs) ∧
    foldl count_potential 0 (range_count backwards sizeMap)
    = len (@recorded_paths unix_go119 two_groups (mkFlags "/b" true false false))
      - Z.of_nat (size sizeMap).
Proof.
  apply (potential_duplicates_is_files_less_sizes unix_go119 two_groups
           backwards (mkFlags "/b" true false false) (start two_groups_fs [])).
  apply backwards_ok.
Defined.
